(** * Tower: a falling-block game (tower/main.go)

    Shallow embedding of the game core of [tower/main.go] and the
    properties its specification states about it.

    Conventions of the embedding:
    - a Go [int] is a [Z] kept in the signed 64-bit range by [GoInt.wrap];
    - a Go run-time panic (index out of range) is the result [Panic];
    - the two unbounded [for] loops ([hardDrop], [ghostPieceY]) take a
      fuel argument and answer [OutOfFuel] when it is exhausted;
    - the board [[boardH][boardW]int] is a list of rows, its dimensions
      recorded by [wf_board];
    - [math/rand] is a parameter: a state type and the list of index
      pairs on which [Shuffle] calls its swap function. *)

From Stdlib Require Import ZArith Lia Bool.
From stdpp Require Import base tactics option list.

Local Open Scope Z_scope.

(** ** Go integers *)

Module GoInt.

Definition min_int : Z := -9223372036854775808.
Definition max_int : Z := 9223372036854775807.
Definition modulus : Z := 18446744073709551616.

Definition in_range (z : Z) : Prop := min_int <= z <= max_int.

(** Two's complement wrap-around of a mathematical integer. *)
Definition wrap (z : Z) : Z := (z - min_int) mod modulus + min_int.

Definition add (a b : Z) : Z := wrap (a + b).
Definition sub (a b : Z) : Z := wrap (a - b).
Definition mul (a b : Z) : Z := wrap (a * b).
(** Go's [/] and [%] truncate toward zero. *)
Definition quot (a b : Z) : Z := wrap (Z.quot a b).
Definition rem (a b : Z) : Z := Z.rem a b.

End GoInt.

(** ** Results of fallible code *)

Inductive result (A : Type) : Type :=
| Ok (a : A)
| Panic
| OutOfFuel.
Arguments Ok {A} a.
Arguments Panic {A}.
Arguments OutOfFuel {A}.

Definition bind {A B : Type} (m : result A) (k : A -> result B) : result B :=
  match m with
  | Ok a => k a
  | Panic => Panic
  | OutOfFuel => OutOfFuel
  end.

Notation "'do' x <- m ; k" := (bind m (fun x => k))
  (at level 10, x name, m at level 100, k at level 200).
Notation "'do' ' p <- m ; k" := (bind m (fun x => match x with p => k end))
  (at level 10, p pattern, m at level 100, k at level 200).

(** [l[i]] on a slice or array: panics outside [0, len). *)
Definition index {A : Type} (l : list A) (i : Z) : result A :=
  if i <? 0 then Panic
  else match l !! Z.to_nat i with
       | Some a => Ok a
       | None => Panic
       end.

(** [l[i] = v]: panics outside [0, len). *)
Definition store {A : Type} (l : list A) (i : Z) (v : A) : result (list A) :=
  if i <? 0 then Panic
  else if (Z.to_nat i <? length l)%nat then Ok (<[Z.to_nat i := v]> l)
  else Panic.

(** ** Constants and the piece catalog *)

Definition boardW : Z := 10.
Definition boardH : Z := 20.

Record point : Type := Point { p_x : Z; p_y : Z }.

Definition pt (a b : Z) : point := Point a b.

(** [pieceShapes[kind][rot]]: four cells in a 4x4 bounding box. *)
Definition pieceShapes : list (list (list point)) :=
  [ (* I *)
    [ [pt 0 1; pt 1 1; pt 2 1; pt 3 1];
      [pt 2 0; pt 2 1; pt 2 2; pt 2 3];
      [pt 0 2; pt 1 2; pt 2 2; pt 3 2];
      [pt 1 0; pt 1 1; pt 1 2; pt 1 3] ];
    (* O *)
    [ [pt 1 1; pt 2 1; pt 1 2; pt 2 2];
      [pt 1 1; pt 2 1; pt 1 2; pt 2 2];
      [pt 1 1; pt 2 1; pt 1 2; pt 2 2];
      [pt 1 1; pt 2 1; pt 1 2; pt 2 2] ];
    (* T *)
    [ [pt 1 0; pt 0 1; pt 1 1; pt 2 1];
      [pt 1 0; pt 1 1; pt 2 1; pt 1 2];
      [pt 0 1; pt 1 1; pt 2 1; pt 1 2];
      [pt 1 0; pt 0 1; pt 1 1; pt 1 2] ];
    (* S *)
    [ [pt 1 0; pt 2 0; pt 0 1; pt 1 1];
      [pt 1 0; pt 1 1; pt 2 1; pt 2 2];
      [pt 1 1; pt 2 1; pt 0 2; pt 1 2];
      [pt 0 0; pt 0 1; pt 1 1; pt 1 2] ];
    (* Z *)
    [ [pt 0 0; pt 1 0; pt 1 1; pt 2 1];
      [pt 2 0; pt 1 1; pt 2 1; pt 1 2];
      [pt 0 1; pt 1 1; pt 1 2; pt 2 2];
      [pt 1 0; pt 0 1; pt 1 1; pt 0 2] ];
    (* J *)
    [ [pt 0 0; pt 0 1; pt 1 1; pt 2 1];
      [pt 1 0; pt 2 0; pt 1 1; pt 1 2];
      [pt 0 1; pt 1 1; pt 2 1; pt 2 2];
      [pt 1 0; pt 1 1; pt 0 2; pt 1 2] ];
    (* L *)
    [ [pt 2 0; pt 0 1; pt 1 1; pt 2 1];
      [pt 1 0; pt 1 1; pt 1 2; pt 2 2];
      [pt 0 1; pt 1 1; pt 2 1; pt 0 2];
      [pt 0 0; pt 1 0; pt 1 1; pt 1 2] ] ].

Record activePiece : Type := ActivePiece {
  ap_kind : Z;
  ap_rot : Z;
  ap_x : Z;
  ap_y : Z
}.

Abbreviation Row := (list Z).
Abbreviation Board := (list (list Z)).

Definition emptyRow : Row := replicate (Z.to_nat boardW) 0.
Definition emptyBoard : Board := replicate (Z.to_nat boardH) emptyRow.

(** The dimensions the array type [[boardH][boardW]int] guarantees. *)
Definition wf_board (b : Board) : Prop :=
  length b = Z.to_nat boardH /\ Forall (fun r => length r = Z.to_nat boardW) b.

(** [pieceCells]: the absolute cells of a piece, in catalog order. *)
Definition shapeOf (kind rot : Z) : result (list point) :=
  do rots <- index pieceShapes kind;
  index rots rot.

Definition pieceCells (ap : activePiece) : result (list point) :=
  do src <- shapeOf (ap_kind ap) (ap_rot ap);
  Ok (map (fun p => Point (GoInt.add (ap_x ap) (p_x p))
                          (GoInt.add (ap_y ap) (p_y p))) src).

(** The body of the loop of [collides], over the remaining cells. *)
Fixpoint collidesCells (b : Board) (cells : list point) : result bool :=
  match cells with
  | [] => Ok false
  | p :: rest =>
      if (p_x p <? 0) || (p_x p >=? boardW) || (p_y p >=? boardH) then Ok true
      else if p_y p >=? 0 then
        do row <- index b (p_y p);
        do c <- index row (p_x p);
        if negb (c =? 0) then Ok true else collidesCells b rest
      else collidesCells b rest
  end.

(** ** The game state and its operations *)

Section Game.

(** [*rand.Rand]: its state, and the index pairs [Shuffle(n, swap)]
    hands to [swap], together with the state it leaves. *)
Context {Rng : Type}.
Variable Shuffle : Rng -> Z -> list (Z * Z) * Rng.

Record Game : Type := MkGame {
  board : Board;            (* 0 empty, 1..7 piece kinds *)
  cur : activePiece;
  nextKind : Z;
  bag : list Z;
  rng : Rng;
  score : Z;
  lines : Z;
  level : Z;
  dropFrameCounter : Z;
  gameOver : bool
}.

Definition set_board (g : Game) (b : Board) : Game :=
  MkGame b (cur g) (nextKind g) (bag g) (rng g) (score g) (lines g)
         (level g) (dropFrameCounter g) (gameOver g).
Definition set_cur (g : Game) (ap : activePiece) : Game :=
  MkGame (board g) ap (nextKind g) (bag g) (rng g) (score g) (lines g)
         (level g) (dropFrameCounter g) (gameOver g).
Definition set_nextKind (g : Game) (k : Z) : Game :=
  MkGame (board g) (cur g) k (bag g) (rng g) (score g) (lines g)
         (level g) (dropFrameCounter g) (gameOver g).
Definition set_bag (g : Game) (l : list Z) (r : Rng) : Game :=
  MkGame (board g) (cur g) (nextKind g) l r (score g) (lines g)
         (level g) (dropFrameCounter g) (gameOver g).
Definition set_counters (g : Game) (s l lv : Z) : Game :=
  MkGame (board g) (cur g) (nextKind g) (bag g) (rng g) s l lv
         (dropFrameCounter g) (gameOver g).
Definition set_dropFrameCounter (g : Game) (c : Z) : Game :=
  MkGame (board g) (cur g) (nextKind g) (bag g) (rng g) (score g) (lines g)
         (level g) c (gameOver g).
Definition set_gameOver (g : Game) (b : bool) : Game :=
  MkGame (board g) (cur g) (nextKind g) (bag g) (rng g) (score g) (lines g)
         (level g) (dropFrameCounter g) b.

(** *** The 7-bag *)

(** [g.bag[i], g.bag[j] = g.bag[j], g.bag[i]] *)
Definition swapBag (l : list Z) (ij : Z * Z) : result (list Z) :=
  do vj <- index l (snd ij);
  do vi <- index l (fst ij);
  do l1 <- store l (fst ij) vj;
  store l1 (snd ij) vi.

Fixpoint applySwaps (swaps : list (Z * Z)) (l : list Z) : result (list Z) :=
  match swaps with
  | [] => Ok l
  | ij :: rest => do l1 <- swapBag l ij; applySwaps rest l1
  end.

Definition freshBag : list Z := [0; 1; 2; 3; 4; 5; 6].

Definition popBag (g : Game) : result (Z * Game) :=
  do g1 <- (if (length (bag g) =? 0)%nat then
              let '(swaps, r) := Shuffle (rng g) (Z.of_nat (length freshBag)) in
              do l <- applySwaps swaps freshBag;
              Ok (set_bag g l r)
            else Ok g);
  match bag g1 with
  | [] => Panic
  | v :: rest => Ok (v, set_bag g1 rest (rng g1))
  end.

(** *** Collision, spawn, lock *)

Definition collides (g : Game) (ap : activePiece) : result bool :=
  do cells <- pieceCells ap;
  collidesCells (board g) cells.

Definition spawn (g : Game) : result Game :=
  let g1 := set_cur g (ActivePiece (nextKind g) 0 3 0) in
  do '(v, g2) <- popBag g1;
  let g3 := set_nextKind g2 v in
  do c <- collides g3 (cur g3);
  if c then Ok (set_gameOver g3 true) else Ok g3.

(** The row scan of [clearLines]: the rows kept, in order, and the
    number of full rows dropped ([cleared] counts rows of the board,
    so it stays far below the range of [int]). *)
Definition rowFull (r : Row) : bool := forallb (fun c => negb (c =? 0)) r.

Fixpoint scanRows (rows : list Row) (newRows : list Row) (cleared : Z)
  : list Row * Z :=
  match rows with
  | [] => (newRows, cleared)
  | r :: rest =>
      if rowFull r then scanRows rest newRows (cleared + 1)
      else scanRows rest (newRows ++ [r]) cleared
  end.

(** [for len(newRows) < boardH { newRows = append({{}}, newRows...) }];
    at most [boardH] rows can be missing, the bound of the recursion. *)
Fixpoint padRows (n : nat) (newRows : list Row) : list Row :=
  match n with
  | O => newRows
  | S n' =>
      if Z.of_nat (length newRows) <? boardH
      then padRows n' (emptyRow :: newRows)
      else newRows
  end.

Definition scoreTable : list Z := [0; 40; 100; 300; 1200].

Definition clearLines (g : Game) : result Game :=
  let '(kept, cleared) := scanRows (board g) [] 0 in
  let newRows := padRows (Z.to_nat boardH) kept in
  let g1 := set_board g (take (Z.to_nat boardH) newRows) in
  if cleared >? 0 then
    let lines' := GoInt.add (lines g1) cleared in
    let level' := GoInt.quot lines' 10 in
    if (cleared >=? 0) && (cleared <=? 4) then
      do pts <- index scoreTable cleared;
      Ok (set_counters g1
            (GoInt.add (score g1) (GoInt.mul pts (GoInt.add level' 1)))
            lines' level')
    else Ok (set_counters g1 (score g1) lines' level')
  else Ok g1.

(** The loop of [lockPiece]: the board after the writes, and whether
    the loop left through the [p.y < 0] return. *)
Fixpoint placeCells (b : Board) (cells : list point) (v : Z)
  : result (Board * bool) :=
  match cells with
  | [] => Ok (b, false)
  | p :: rest =>
      if p_y p <? 0 then Ok (b, true)
      else
        do row <- index b (p_y p);
        do row' <- store row (p_x p) v;
        do b' <- store b (p_y p) row';
        placeCells b' rest v
  end.

Definition lockPiece (g : Game) : result Game :=
  do cells <- pieceCells (cur g);
  do '(b, overflow) <- placeCells (board g) cells (GoInt.add (ap_kind (cur g)) 1);
  let g1 := set_board g b in
  if overflow then Ok (set_gameOver g1 true)
  else
    do g2 <- clearLines g1;
    spawn g2.

(** *** Moves *)

Definition tryMove (g : Game) (dx dy : Z) : result (Game * bool) :=
  let next := ActivePiece (ap_kind (cur g)) (ap_rot (cur g))
                          (GoInt.add (ap_x (cur g)) dx)
                          (GoInt.add (ap_y (cur g)) dy) in
  do c <- collides g next;
  if negb c then Ok (set_cur g next, true) else Ok (g, false).

Definition kicks : list Z := [0; -1; 1; -2; 2].

Fixpoint tryKicks (g : Game) (next : activePiece) (oxs : list Z)
  : result (Game * bool) :=
  match oxs with
  | [] => Ok (g, false)
  | ox :: rest =>
      let test := ActivePiece (ap_kind next) (ap_rot next)
                              (GoInt.add (ap_x next) ox) (ap_y next) in
      do c <- collides g test;
      if negb c then Ok (set_cur g test, true) else tryKicks g next rest
  end.

Definition tryRotate (g : Game) (dir : Z) : result (Game * bool) :=
  let next := ActivePiece (ap_kind (cur g))
                (GoInt.rem (GoInt.add (GoInt.add (ap_rot (cur g)) dir) 4) 4)
                (ap_x (cur g)) (ap_y (cur g)) in
  tryKicks g next kicks.

(** [for g.tryMove(0, 1) {}] *)
Fixpoint dropLoop (fuel : nat) (g : Game) : result Game :=
  match fuel with
  | O => OutOfFuel
  | S fuel' =>
      do '(g1, moved) <- tryMove g 0 1;
      if moved then dropLoop fuel' g1 else Ok g1
  end.

Definition hardDrop (fuel : nat) (g : Game) : result Game :=
  do g1 <- dropLoop fuel g;
  do g2 <- lockPiece g1;
  Ok (set_dropFrameCounter g2 0).

Definition gravityFrames (level : Z) : Z :=
  let f := GoInt.sub 30 (GoInt.mul level 2) in
  if f <? 2 then 2 else f.

(** The loop of [ghostPieceY], on the row of the ghost. *)
Fixpoint ghostLoop (fuel : nat) (g : Game) (ghost : activePiece) : result Z :=
  match fuel with
  | O => OutOfFuel
  | S fuel' =>
      do c <- collides g (ActivePiece (ap_kind ghost) (ap_rot ghost) (ap_x ghost)
                                      (GoInt.add (ap_y ghost) 1));
      if negb c then
        ghostLoop fuel' g (ActivePiece (ap_kind ghost) (ap_rot ghost) (ap_x ghost)
                                       (GoInt.add (ap_y ghost) 1))
      else Ok (ap_y ghost)
  end.

Definition ghostPieceY (fuel : nat) (g : Game) : result Z :=
  ghostLoop fuel g (cur g).

(** *** Construction and the per-frame update *)

(** [NewGame], from the generator it creates. *)
Definition NewGame (r : Rng) : result Game :=
  let g := MkGame emptyBoard (ActivePiece 0 0 0 0) 0 [] r 0 0 0 0 false in
  do '(v, g1) <- popBag g;
  spawn (set_nextKind g1 v).

(** [Reset]: [*g = *NewGame()], the old state is dropped. *)
Definition Reset (g : Game) (r : Rng) : result Game := NewGame r.

(** What one call of [Update] reads from the keyboard, the touch
    screen, the platform and (for [Reset]) the clock-seeded generator. *)
Record input : Type := MkInput {
  justSpace : bool;
  justEnter : bool;
  justTouch : bool;      (* len(AppendJustPressedTouchIDs(nil)) > 0 *)
  justLeft : bool;       (* Left or A *)
  justRight : bool;      (* Right or D *)
  justZ : bool;
  justCW : bool;         (* X, Up or W *)
  heldDown : bool;       (* Down or S *)
  mobile : bool;         (* GOOS is ios or android *)
  justIn0 : bool;        (* justPressIn(0) .. justPressIn(3) *)
  justIn1 : bool;
  justIn2 : bool;
  justIn3 : bool;
  heldIn0 : bool;        (* pressIn(0), pressIn(1) *)
  heldIn1 : bool;
  seed : Rng
}.

Definition restartPressed (i : input) : bool :=
  justSpace i || justEnter i || justTouch i.

Definition when (b : bool) (f : Game -> result Game) (g : Game) : result Game :=
  if b then f g else Ok g.

Definition move_ (dx dy : Z) (g : Game) : result Game :=
  do '(g1, _) <- tryMove g dx dy; Ok g1.

Definition rotate_ (dir : Z) (g : Game) : result Game :=
  do '(g1, _) <- tryRotate g dir; Ok g1.

(** [if !g.tryMove(0, 1) { g.lockPiece() }; g.dropFrameCounter = 0] *)
Definition fallOrLock (g : Game) : result Game :=
  do '(g1, moved) <- tryMove g 0 1;
  do g2 <- (if negb moved then lockPiece g1 else Ok g1);
  Ok (set_dropFrameCounter g2 0).

Definition gravity (softDrop : bool) (g : Game) : result Game :=
  let g1 := set_dropFrameCounter g (GoInt.add (dropFrameCounter g) 1) in
  if softDrop then fallOrLock g1
  else if dropFrameCounter g1 >=? gravityFrames (level g1) then fallOrLock g1
  else Ok g1.

Definition Update (fuel : nat) (g : Game) (i : input) : result Game :=
  if gameOver g then
    if restartPressed i then Reset g (seed i) else Ok g
  else
    do g1 <- when (justLeft i) (move_ (-1) 0) g;
    do g2 <- when (justRight i) (move_ 1 0) g1;
    do g3 <- when (justZ i) (rotate_ (-1)) g2;
    do g4 <- when (justCW i) (rotate_ 1) g3;
    do g5 <- when (justSpace i) (hardDrop fuel) g4;
    let softDrop := heldDown i in
    if mobile i then
      do g6 <- when (justIn0 i) (move_ (-1) 0) g5;
      do g7 <- when (justIn1 i) (move_ 1 0) g6;
      do g8 <- when (justIn2 i) (rotate_ 1) g7;
      do g9 <- when (justIn3 i) (hardDrop fuel) g8;
      gravity (softDrop || (heldIn0 i || heldIn1 i)) g9
    else gravity softDrop g5.

(** States a run can be in, between two calls of [Update] or inside
    one: the new game, and what the operations [Update] is made of
    lead to. *)
Inductive reachable : Game -> Prop :=
| reach_new r g : NewGame r = Ok g -> reachable g
| reach_update fuel g i g' :
    reachable g -> Update fuel g i = Ok g' -> reachable g'
| reach_move g dx dy g' moved :
    reachable g -> -1 <= dx <= 1 -> 0 <= dy <= 1 ->
    tryMove g dx dy = Ok (g', moved) -> reachable g'
| reach_rotate g dir g' turned :
    reachable g -> dir = 1 \/ dir = -1 ->
    tryRotate g dir = Ok (g', turned) -> reachable g'
| reach_hardDrop fuel g g' :
    reachable g -> hardDrop fuel g = Ok g' -> reachable g'
| reach_lock g g' :
    reachable g -> lockPiece g = Ok g' -> reachable g'
| reach_counter g c :
    reachable g -> reachable (set_dropFrameCounter g c).

End Game.

Arguments Game : clear implicits.
Arguments input : clear implicits.

(** A concrete generator for examples: a linear congruential state that
    drives the Fisher-Yates loop of [Shuffle]. *)
Module Lcg.

Definition next (s : Z) : Z := (s * 1103515245 + 12345) mod 2147483648.

Fixpoint swaps (n : nat) (s : Z) : list (Z * Z) * Z :=
  match n with
  | O => ([], s)
  | S n' =>
      let s1 := next s in
      let '(rest, s2) := swaps n' s1 in
      ((Z.of_nat n, s1 mod (Z.of_nat n + 1)) :: rest, s2)
  end.

Definition Shuffle (s : Z) (n : Z) : list (Z * Z) * Z :=
  swaps (Z.to_nat n - 1) s.

End Lcg.

(** The generator of [Lcg] swaps in bounds. *)
Definition lcgBound (n : nat) (ij : Z * Z) : Prop :=
  0 <= fst ij <= Z.of_nat n /\ 0 <= snd ij <= Z.of_nat n.

(** ** Concrete states used in examples *)

Module Examples.

Definition fullRow : Row := replicate (Z.to_nat boardW) 1.

(** An empty board with an I piece at the spawn anchor. *)
Definition fresh : Game Z :=
  MkGame emptyBoard (ActivePiece 0 0 3 0) 0 [] 42 0 0 0 0 false.

(** Nine lines cleared so far (level 0) and the bottom row full. *)
Definition nineLines : Game Z :=
  MkGame (replicate 19 emptyRow ++ [fullRow]) (ActivePiece 0 0 3 0)
         0 [] 42 0 9 0 0 false.

(** The same board when the game was lost. *)
Definition lost : Game Z := set_gameOver nineLines true.

Definition idle : input Z :=
  MkInput false false false false false false false false
          false false false false false false false 7.

(** A T piece one row above the top edge of an empty board. *)
Definition overTop : Game Z :=
  MkGame emptyBoard (ActivePiece 2 0 3 (-1)) 0 [] 42 0 0 0 0 false.

(** An O piece above a single block at column 4, row 5. *)
Definition overhang : Game Z :=
  MkGame (replicate 5 emptyRow ++ [[0; 0; 0; 0; 7; 0; 0; 0; 0; 0]]
          ++ replicate 14 emptyRow)
         (ActivePiece 1 0 3 0) 0 [] 42 0 0 0 0 false.

(** The game [NewGame] builds from the generator state 42. *)
Definition started : Game Z :=
  match NewGame Lcg.Shuffle 42 with
  | Ok g => g
  | _ => fresh
  end.

(** Columns 3..6 filled from row 2 down: the I piece locks on row 1 and
    every next piece collides at the spawn anchor. *)
Definition stacked : Game Z :=
  MkGame (replicate 2 emptyRow ++ replicate 18 [0; 0; 0; 1; 1; 1; 1; 0; 0; 0])
         (ActivePiece 0 0 3 0) 2 [0; 1] 42 0 0 0 0 false.

(** Space just pressed while Down is held. *)
Definition spaceAndDown : input Z :=
  MkInput true false false false false false false true
          false false false false false false false 7.

Definition pressEnter : input Z :=
  MkInput false true false false false false false false
          false false false false false false false 7.

End Examples.

(** ** Vocabulary of the statements *)

Definition wf_piece (ap : activePiece) : Prop :=
  0 <= ap_kind ap < 7 /\ 0 <= ap_rot ap < 4.

Definition in_box (p : point) : Prop := 0 <= p_x p <= 3 /\ 0 <= p_y p <= 3.

(** The board cell at column [x], row [y], when there is one. *)
Definition cellAt (b : Board) (x y : Z) : option Z :=
  if (x <? 0) || (y <? 0) then None
  else match b !! Z.to_nat y with
       | Some row => row !! Z.to_nat x
       | None => None
       end.

(** What [collides] checks of one cell. *)
Definition cellFree (b : Board) (p : point) : Prop :=
  0 <= p_x p < boardW /\ p_y p < boardH /\
  (p_y p < 0 \/ cellAt b (p_x p) (p_y p) = Some 0).

(** The result of the row scan of [clearLines] on a board. *)
Definition clearedCount (b : Board) : Z := snd (scanRows b [] 0).
Definition keptRows (b : Board) : list Row := fst (scanRows b [] 0).

(** The cells the loop of [lockPiece] writes: those before the first
    cell above the board. *)
Fixpoint writtenCells (cells : list point) : list point :=
  match cells with
  | [] => []
  | p :: rest => if p_y p <? 0 then [] else p :: writtenCells rest
  end.

(** Whether one of the points is the cell at column [x], row [y]. *)
Definition covers (cells : list point) (x y : Z) : bool :=
  existsb (fun p => (p_x p =? x) && (p_y p =? y)) cells.

(** The active piece moved to row [y']. *)
Definition atRow (ap : activePiece) (y' : Z) : activePiece :=
  ActivePiece (ap_kind ap) (ap_rot ap) (ap_x ap) y'.

(** The rotation candidate of [tryRotate] at horizontal offset [ox]. *)
Definition rotated (ap : activePiece) (dir ox : Z) : activePiece :=
  ActivePiece (ap_kind ap) ((ap_rot ap + dir) mod 4) (ap_x ap + ox) (ap_y ap).

(** [n] draws from the bag, in order, and the state they leave. *)
Fixpoint draws {Rng} (Shuffle : Rng -> Z -> list (Z * Z) * Rng) (n : nat)
    (g : Game Rng) : result (list Z * Game Rng) :=
  match n with
  | O => Ok ([], g)
  | S n' =>
      do '(v, g1) <- popBag Shuffle g;
      do '(vs, g2) <- draws Shuffle n' g1;
      Ok (v :: vs, g2)
  end.

(** The contract of [rand.Shuffle]: on [n] elements it swaps indices
    below [n] only. *)
Definition Shuffle_in_bounds {Rng} (Shuffle : Rng -> Z -> list (Z * Z) * Rng)
  : Prop :=
  forall r n ij, ij ∈ fst (Shuffle r n) -> 0 <= fst ij < n /\ 0 <= snd ij < n.

(** Every cell of the piece is a cell of the board. *)
Definition cellsOnBoard (ap : activePiece) : Prop :=
  exists cells, pieceCells ap = Ok cells /\
    forall p, p ∈ cells -> 0 <= p_x p < boardW /\ 0 <= p_y p < boardH.

(** The invariant of the game states. *)
Definition Inv {Rng} (g : Game Rng) : Prop :=
  wf_board (board g) /\
  cellsOnBoard (cur g) /\
  -3 <= ap_x (cur g) <= 9 /\
  0 <= ap_y (cur g) <= 19 /\
  0 <= nextKind g < 7 /\
  (forall k, k ∈ bag g -> 0 <= k < 7) /\
  (gameOver g = false -> collides g (cur g) = Ok false) /\
  (forall r, r ∈ board g -> rowFull r = false).

(** A result that is not a panic and, when it is a state, satisfies the
    invariant; with [strict] it has to be a state. *)
Definition good {Rng} (strict : bool) (r : result (Game Rng)) : Prop :=
  match r with
  | Ok g => Inv g
  | Panic => False
  | OutOfFuel => strict = false
  end.

(** The counters stay where 64-bit arithmetic is exact. *)
Definition small_counters {Rng} (g : Game Rng) : Prop :=
  0 <= lines g <= 4294967296 /\ 0 <= score g <= 4611686018427387904.


(** ** The rest of [main.go] *)

(** *** Touch buttons of [Update] *)

Definition logicalW : Z := 480.
Definition logicalH : Z := 640.

(** [w, h := ebiten.WindowSize(); if w == 0 || h == 0 { w, h = logicalW,
    logicalH }], then [btnY := h - ctrlH] and [btnW := w / 4]. *)
Definition touchLayout (w h : Z) : Z * Z :=
  let '(w1, h1) := if (w =? 0) || (h =? 0) then (logicalW, logicalH) else (w, h) in
  let ctrlH := 160 in
  (GoInt.sub h1 ctrlH, GoInt.quot w1 4).

(** The test of [justPressIn] and [pressIn] on one touch position. *)
Definition inButton (btnY btnW ix : Z) (pos : Z * Z) : bool :=
  let '(x, y) := pos in
  (y >=? btnY) && (x >=? GoInt.mul ix btnW)
  && (x <? GoInt.mul (GoInt.add ix 1) btnW).

(** [justPressIn(ix)] / [pressIn(ix)], over the positions of the touch
    ids in order. *)
Fixpoint pressIn (btnY btnW : Z) (touches : list (Z * Z)) (ix : Z) : bool :=
  match touches with
  | [] => false
  | pos :: rest =>
      if inButton btnY btnW ix pos then true else pressIn btnY btnW rest ix
  end.

(** *** What [Draw] draws on the board *)

Record RGBA : Type := MkRGBA { c_r : Z; c_g : Z; c_b : Z; c_a : Z }.

Definition pieceColors : list RGBA :=
  [ MkRGBA 0 255 255 255;   (* I *)
    MkRGBA 255 255 0 255;   (* O *)
    MkRGBA 160 0 240 255;   (* T *)
    MkRGBA 0 200 0 255;     (* S *)
    MkRGBA 220 0 0 255;     (* Z *)
    MkRGBA 0 80 220 255;    (* J *)
    MkRGBA 255 140 0 255 ]. (* L *)

(** The colour of an empty board cell in [Draw]. *)
Definition gridCell : RGBA := MkRGBA 30 30 44 255.

(** A call [drawCell(screen, originX, originY, tile, x, y, c)], by its
    cell and colour, and a rectangle of [drawNext], by its catalog offset
    and colour. The pixel geometry is floating point and is left out. *)
Inductive drawOp : Type :=
| DrawCell (x y : Z) (c : RGBA)
| DrawNextCell (px py : Z) (c : RGBA).

(** A loop that appends what its body yields. *)
Fixpoint forEach {A B : Type} (body : A -> result (list B)) (l : list A)
  : result (list B) :=
  match l with
  | [] => Ok []
  | a :: rest =>
      do out <- body a;
      do outs <- forEach body rest;
      Ok (out ++ outs)
  end.

(** [for i := 0; i < n; i++] *)
Definition upTo (n : Z) : list Z := map Z.of_nat (seq 0 (Z.to_nat n)).

(** The body of the board loops of [Draw]. *)
Definition drawBoardCell (b : Board) (y x : Z) : result (list drawOp) :=
  do row <- index b y;
  do v <- index row x;
  if negb (v =? 0) then
    do pc <- index pieceColors (GoInt.sub v 1);
    Ok [DrawCell x y pc]
  else Ok [DrawCell x y gridCell].

Definition drawBoard (b : Board) : result (list drawOp) :=
  forEach (fun y => forEach (drawBoardCell b y) (upTo boardW)) (upTo boardH).

(** The loop of [Draw] over [pieceShapes[g.cur.kind][g.cur.rot]]. *)
Definition drawCurrent (ap : activePiece) : result (list drawOp) :=
  do src <- shapeOf (ap_kind ap) (ap_rot ap);
  forEach (fun p =>
             let x := GoInt.add (ap_x ap) (p_x p) in
             let y := GoInt.add (ap_y ap) (p_y p) in
             if (y >=? 0) && (y <? boardH) && (x >=? 0) && (x <? boardW) then
               do pc <- index pieceColors (ap_kind ap);
               Ok [DrawCell x y pc]
             else Ok []) src.

(** [drawNext]: the colour first, then the cells of rotation 0. *)
Definition drawNext (kind : Z) : result (list drawOp) :=
  do c <- index pieceColors kind;
  do src <- shapeOf kind 0;
  Ok (map (fun p => DrawNextCell (p_x p) (p_y p) c) src).

(** The cells [Draw] draws: the board, the current piece, the preview. *)
Definition Draw {Rng} (g : Game Rng) : result (list drawOp) :=
  do onBoard <- drawBoard (board g);
  do piece <- drawCurrent (cur g);
  do preview <- drawNext (nextKind g);
  Ok (onBoard ++ piece ++ preview).

(** [Layout] ignores the outside size. *)
Definition Layout (ow oh : Z) : Z * Z := (logicalW, logicalH).

(** ** Vocabulary of the further statements *)

(** States between two calls of [Update], and no others. *)
Inductive played {Rng} (Shuffle : Rng -> Z -> list (Z * Z) * Rng)
  : Game Rng -> Prop :=
| played_new r g : NewGame Shuffle r = Ok g -> played Shuffle g
| played_update fuel g i g' :
    played Shuffle g -> Update Shuffle fuel g i = Ok g' -> played Shuffle g'.

(** [Update] called once per frame, over the inputs of successive
    frames. *)
Fixpoint frames {Rng} (Shuffle : Rng -> Z -> list (Z * Z) * Rng)
    (fuel : nat) (ins : list (input Rng)) (g : Game Rng) : result (Game Rng) :=
  match ins with
  | [] => Ok g
  | i :: rest => do g1 <- Update Shuffle fuel g i; frames Shuffle fuel rest g1
  end.

(** Space tapped nine times while Down is pressed, with a frame without
    keys after each tap. *)
Definition nineTaps : list (input Z) :=
  concat (replicate 9 [Examples.spaceAndDown; Examples.idle]).

(** The game these frames lead to from [Examples.started]: nine pieces
    stacked in the middle columns, the tenth falling. *)
Definition nearTop : Game Z :=
  match frames Lcg.Shuffle 30 nineTaps Examples.started with
  | Ok g => g
  | _ => Examples.fresh
  end.

(** An operation keeps a property of the states it returns. *)
Definition preserves {Rng} (P : Game Rng -> Prop)
    (f : Game Rng -> result (Game Rng)) : Prop :=
  forall g g', P g -> f g = Ok g' -> P g'.

(** The number of locked blocks on a board. *)
Definition occupied (b : Board) : Z :=
  Z.of_nat (length (filter (fun c => c <> 0) (concat b))).

(** The number of locked blocks in a row. *)
Definition rowCount (r : Row) : nat := length (filter (fun c => c <> 0) r).

(** Every cell holds 0 or a kind 1..7. *)
Definition palette (b : Board) : Prop :=
  Forall (Forall (fun c => 0 <= c <= 7)) b.

(** What the reachable states keep besides [Inv]. *)
Definition Inv2 {Rng} (g : Game Rng) : Prop :=
  palette (board g) /\
  GoInt.in_range (lines g) /\
  level g = Z.quot (lines g) 10 /\
  NoDup (nextKind g :: bag g).

(** Both invariants of the reachable states. *)
Definition Both {Rng} (g : Game Rng) : Prop := Inv g /\ Inv2 g.

(** The gravity counter stays below the interval of the level. *)
Definition counterInv {Rng} (g : Game Rng) : Prop :=
  0 <= dropFrameCounter g < gravityFrames (level g).

#[global] Instance point_eq_dec : EqDecision point.
Proof. solve_decision. Defined.

(** Closes [wf_board] on a concrete board. *)
Ltac board_ok :=
  split; [vm_compute; reflexivity | vm_compute; repeat constructor].

(** * Properties *)

(** ** Arithmetic of Go integers *)

Module GoIntFacts.
Import GoInt.

Lemma wrap_small z : in_range z -> wrap z = z.
Proof.
  unfold in_range, wrap, min_int, max_int, modulus. intros H.
  rewrite Z.mod_small; lia.
Qed.

Lemma wrap_in_range z : in_range (wrap z).
Proof.
  unfold in_range, wrap, min_int, max_int, modulus.
  pose proof (Z.mod_pos_bound (z - -9223372036854775808) 18446744073709551616).
  lia.
Qed.

Lemma add_small a b : in_range (a + b) -> add a b = a + b.
Proof. apply wrap_small. Qed.

Lemma mul_small a b : in_range (a * b) -> mul a b = a * b.
Proof. apply wrap_small. Qed.


Lemma quot_small a b : in_range (Z.quot a b) -> quot a b = Z.quot a b.
Proof. apply wrap_small. Qed.

Lemma add_0_r a : in_range a -> add a 0 = a.
Proof. intros H. unfold add. rewrite Z.add_0_r. by apply wrap_small. Qed.

(** A bound that keeps small sums away from the wrap. *)
Lemma in_range_small z : -1000000 <= z <= 1000000 -> in_range z.
Proof. unfold in_range, min_int, max_int. lia. Qed.

End GoIntFacts.

(** ** Indexing *)

Lemma bind_Ok {A B} (m : result A) (k : A -> result B) b :
  bind m k = Ok b -> exists a, m = Ok a /\ k a = Ok b.
Proof. destruct m; simpl; intros; eauto; discriminate. Qed.

Lemma index_Ok {A} (l : list A) i a :
  index l i = Ok a <-> 0 <= i /\ l !! Z.to_nat i = Some a.
Proof.
  unfold index. destruct (Z.ltb_spec i 0).
  - split; [discriminate | lia].
  - destruct (l !! Z.to_nat i) eqn:E; split; intros H1.
    + by inversion H1.
    + destruct H1 as [_ H1]. by inversion H1.
    + discriminate.
    + by destruct H1.
Qed.


Lemma store_Ok {A} (l : list A) i v l' :
  store l i v = Ok l' <->
  0 <= i < Z.of_nat (length l) /\ l' = <[Z.to_nat i := v]> l.
Proof.
  unfold store. destruct (Z.ltb_spec i 0).
  - split; [discriminate | lia].
  - destruct (Nat.ltb_spec (Z.to_nat i) (length l)); split; intros H1.
    + inversion H1. split; [lia | done].
    + destruct H1 as [_ ->]. done.
    + discriminate.
    + lia.
Qed.

Lemma store_in_bounds {A} (l : list A) i v :
  0 <= i < Z.of_nat (length l) -> store l i v = Ok (<[Z.to_nat i := v]> l).
Proof. intros H. by apply store_Ok. Qed.

(** ** The piece catalog *)

Lemma in_box_dec_all kind rot :
  0 <= kind < 7 -> 0 <= rot < 4 ->
  exists src, shapeOf kind rot = Ok src /\ length src = 4%nat /\ Forall in_box src.
Proof.
  intros Hk Hr.
  assert (Hk' : kind = 0 \/ kind = 1 \/ kind = 2 \/ kind = 3 \/ kind = 4
                \/ kind = 5 \/ kind = 6) by lia.
  assert (Hr' : rot = 0 \/ rot = 1 \/ rot = 2 \/ rot = 3) by lia.
  destruct Hk' as [->|[->|[->|[->|[->|[->| ->]]]]]];
    destruct Hr' as [->|[->|[->| ->]]];
    (eexists; split; [reflexivity | split; [reflexivity |]];
     repeat constructor; simpl; lia).
Qed.

Lemma shapeOf_Ok_wf kind rot src :
  shapeOf kind rot = Ok src -> 0 <= kind < 7 /\ 0 <= rot < 4.
Proof.
  unfold shapeOf. intros H. apply bind_Ok in H as (rots & H1 & H2).
  apply index_Ok in H1 as [Hk H1]. apply index_Ok in H2 as [Hr H2].
  apply lookup_lt_Some in H1 as Hlen. simpl in Hlen.
  assert (Hk' : kind = 0 \/ kind = 1 \/ kind = 2 \/ kind = 3 \/ kind = 4
                \/ kind = 5 \/ kind = 6) by lia.
  destruct Hk' as [->|[->|[->|[->|[->|[->| ->]]]]]];
    simpl in H1; inversion H1; subst rots;
    apply lookup_lt_Some in H2; simpl in H2; lia.
Qed.

Lemma pieceCells_wf ap :
  wf_piece ap ->
  exists src, shapeOf (ap_kind ap) (ap_rot ap) = Ok src /\
    length src = 4%nat /\ Forall in_box src /\
    pieceCells ap =
      Ok (map (fun p => Point (GoInt.add (ap_x ap) (p_x p))
                              (GoInt.add (ap_y ap) (p_y p))) src).
Proof.
  intros [Hk Hr]. destruct (in_box_dec_all _ _ Hk Hr) as (src & H1 & H2 & H3).
  exists src. repeat split; try done. unfold pieceCells. by rewrite H1.
Qed.

Lemma pieceCells_Ok_wf ap cells : pieceCells ap = Ok cells -> wf_piece ap.
Proof.
  unfold pieceCells. intros H. apply bind_Ok in H as (src & H1 & _).
  by apply shapeOf_Ok_wf in H1.
Qed.

(** ** Collision *)

Lemma wf_board_cell (b : Board) x y :
  wf_board b -> 0 <= x < boardW -> 0 <= y < boardH ->
  exists row c, index b y = Ok row /\ index row x = Ok c /\
    length row = Z.to_nat boardW /\ cellAt b x y = Some c.
Proof.
  intros [Hlen Hrows] Hx Hy.
  destruct (lookup_lt_is_Some_2 b (Z.to_nat y)) as [row Hrow]; [lia|].
  assert (Hl : length row = Z.to_nat boardW).
  { rewrite Forall_lookup in Hrows. by eapply Hrows. }
  destruct (lookup_lt_is_Some_2 row (Z.to_nat x)) as [c Hc]; [lia|].
  exists row, c. repeat split; try done.
  - apply index_Ok. split; [lia | done].
  - apply index_Ok. split; [lia | done].
  - unfold cellAt. destruct (Z.ltb_spec x 0); [lia|].
    destruct (Z.ltb_spec y 0); [lia|]. simpl. by rewrite Hrow.
Qed.

Lemma collidesCells_spec (b : Board) cells :
  wf_board b ->
  exists r, collidesCells b cells = Ok r /\ (r = false <-> Forall (cellFree b) cells).
Proof.
  intros Hwf. induction cells as [|p rest (r & IH1 & IH2)]; simpl.
  - exists false. split; [done|]. split; [constructor | done].
  - destruct (Z.ltb_spec (p_x p) 0) as [Hx0|Hx0]; simpl.
    { exists true. split; [done|]. split; [done|].
      intros H; inversion H as [|? ? [? _]]; lia. }
    destruct (Z.geb_spec (p_x p) boardW) as [HxW|HxW]; simpl.
    { exists true. split; [done|]. split; [done|].
      intros H; inversion H as [|? ? [? _]]; lia. }
    destruct (Z.geb_spec (p_y p) boardH) as [HyH|HyH]; simpl.
    { exists true. split; [done|]. split; [done|].
      intros H; inversion H as [|? ? (_ & ? & _)]; lia. }
    destruct (Z.geb_spec (p_y p) 0) as [Hy0|Hy0].
    + destruct (wf_board_cell b (p_x p) (p_y p) Hwf) as (row & c & H1 & H2 & _ & H3);
        [lia | lia |].
      rewrite H1. simpl. rewrite H2. simpl.
      destruct (Z.eqb_spec c 0) as [->|Hc]; simpl.
      * exists r. split; [done|]. rewrite IH2. split.
        -- intros H. constructor; [|done]. repeat split; try lia. by right.
        -- intros H. by inversion H.
      * exists true. split; [done|]. split; [done|].
        intros H; inversion H as [|? ? (_ & _ & [?|Hc'])]; [lia|].
        rewrite H3 in Hc'. by inversion Hc'.
    + exists r. split; [done|]. rewrite IH2. split.
      * intros H. constructor; [|done]. repeat split; lia.
      * intros H. by inversion H.
Qed.

(** C5. [collides] is the negation of the placement test: for a piece of
    the catalog on a board of the right dimensions it returns [false]
    exactly when every cell of the piece has 0 <= x < W, y < H and is
    either above the board (y < 0) or on an empty board cell; a cell with
    y < 0 is exempt from the occupancy test only. *)
Theorem collides_iff_some_cell_blocked {Rng} (g : Game Rng) (ap : activePiece) :
  wf_board (board g) -> wf_piece ap ->
  exists cells r,
    pieceCells ap = Ok cells /\ collides g ap = Ok r /\
    (negb r = true <->
     forall p, p ∈ cells ->
       0 <= p_x p < boardW /\ p_y p < boardH /\
       (p_y p < 0 \/ cellAt (board g) (p_x p) (p_y p) = Some 0)).
Proof.
  intros Hb Hp. destruct (pieceCells_wf ap Hp) as (src & _ & _ & _ & Hc).
  set (cells := map _ src) in Hc.
  destruct (collidesCells_spec (board g) cells Hb) as (r & H1 & H2).
  exists cells, r. split; [exact Hc|]. split.
  - unfold collides. rewrite Hc. exact H1.
  - rewrite negb_true_iff, H2, Forall_forall. done.
Qed.

Lemma collides_iff_some_cell_blocked_witness :
  exists cells r,
    pieceCells (ActivePiece 0 0 3 0) = Ok cells /\
    collides Examples.fresh (ActivePiece 0 0 3 0) = Ok r /\
    (negb r = true <->
     forall p, p ∈ cells ->
       0 <= p_x p < boardW /\ p_y p < boardH /\
       (p_y p < 0 \/ cellAt (board Examples.fresh) (p_x p) (p_y p) = Some 0)).
Proof.
  apply (collides_iff_some_cell_blocked Examples.fresh (ActivePiece 0 0 3 0)).
  - board_ok.
  - unfold wf_piece; simpl; lia.
Defined.

(** ** Clearing rows *)

Lemma rowFull_spec (r : Row) : rowFull r = true <-> Forall (fun c => c <> 0) r.
Proof.
  unfold rowFull. rewrite forallb_forall, Forall_forall.
  split; intros H c Hc.
  - apply list_elem_of_In in Hc. specialize (H c Hc).
    apply negb_true_iff in H. by apply Z.eqb_neq.
  - apply list_elem_of_In in Hc. specialize (H c Hc).
    apply negb_true_iff. by apply Z.eqb_neq.
Qed.

Lemma scanRows_spec (rows acc : list Row) (c : Z) :
  scanRows rows acc c =
  (acc ++ filter (fun r => rowFull r = false) rows,
   c + Z.of_nat (length (filter (fun r => rowFull r = true) rows))).
Proof.
  revert acc c. induction rows as [|r rows IH]; intros acc c; simpl.
  - by rewrite app_nil_r, Z.add_0_r.
  - destruct (rowFull r) eqn:E.
    + rewrite IH. rewrite (filter_cons_True (fun r => rowFull r = true)) by done.
      rewrite (filter_cons_False (fun r => rowFull r = false)) by congruence.
      simpl. f_equal. lia.
    + rewrite IH. rewrite (filter_cons_False (fun r => rowFull r = true)) by congruence.
      rewrite (filter_cons_True (fun r => rowFull r = false)) by done.
      by rewrite <- app_assoc.
Qed.

Lemma filter_rowFull_length (rows : list Row) :
  (length (filter (fun r => rowFull r = true) rows)
   + length (filter (fun r => rowFull r = false) rows) = length rows)%nat.
Proof.
  induction rows as [|r rows IH]; [done|].
  destruct (rowFull r) eqn:E.
  - rewrite (filter_cons_True (fun r => rowFull r = true)) by done.
    rewrite (filter_cons_False (fun r => rowFull r = false)) by congruence.
    simpl. lia.
  - rewrite (filter_cons_False (fun r => rowFull r = true)) by congruence.
    rewrite (filter_cons_True (fun r => rowFull r = false)) by done.
    simpl. lia.
Qed.

Lemma clearedCount_spec (b : Board) :
  clearedCount b = Z.of_nat (length (filter (fun r => rowFull r = true) b)).
Proof. unfold clearedCount. by rewrite scanRows_spec. Qed.

Lemma keptRows_spec (b : Board) :
  keptRows b = filter (fun r => rowFull r = false) b.
Proof. unfold keptRows. by rewrite scanRows_spec. Qed.

Lemma padRows_spec (n : nat) (rows : list Row) :
  padRows n rows =
  replicate (Nat.min n (Z.to_nat boardH - length rows)) emptyRow ++ rows.
Proof.
  revert rows. induction n as [|n IH]; intros rows; [done|].
  cbn [padRows].
  destruct (Z.ltb_spec (Z.of_nat (length rows)) boardH) as [Hlt|Hge].
  - rewrite IH. cbn [length].
    replace (Nat.min (S n) (Z.to_nat boardH - length rows))
      with (S (Nat.min n (Z.to_nat boardH - S (length rows)))) by lia.
    rewrite replicate_S_end, <- app_assoc. done.
  - replace (Z.to_nat boardH - length rows)%nat with 0%nat by lia.
    by rewrite Nat.min_0_r.
Qed.

Lemma clearedCount_bounds (b : Board) :
  0 <= clearedCount b <= Z.of_nat (length b).
Proof.
  rewrite clearedCount_spec. pose proof (filter_rowFull_length b). lia.
Qed.

(** The rows [clearLines] leaves in the array. *)
Lemma cleared_rows (b : Board) :
  wf_board b ->
  take (Z.to_nat boardH) (padRows (Z.to_nat boardH) (keptRows b)) =
    replicate (Z.to_nat (clearedCount b)) emptyRow ++ keptRows b /\
  length (replicate (Z.to_nat (clearedCount b)) emptyRow ++ keptRows b)
    = Z.to_nat boardH.
Proof.
  intros [Hlen _]. rewrite padRows_spec, clearedCount_spec, keptRows_spec.
  pose proof (filter_rowFull_length b) as Hs.
  rewrite Nat2Z.id.
  replace (Nat.min (Z.to_nat boardH)
             (Z.to_nat boardH - length (filter (fun r => rowFull r = false) b)))
    with (length (filter (fun r => rowFull r = true) b)) by lia.
  assert (Hl : length (replicate (length (filter (fun r => rowFull r = true) b))
                         emptyRow ++ filter (fun r => rowFull r = false) b)
               = Z.to_nat boardH).
  { rewrite length_app, length_replicate. lia. }
  split; [|done]. apply take_ge. lia.
Qed.

(** [clearLines] in closed form. *)
Lemma clearLines_eq {Rng} (g : Game Rng) :
  wf_board (board g) ->
  let C := clearedCount (board g) in
  let g1 := set_board g (replicate (Z.to_nat C) emptyRow ++ keptRows (board g)) in
  let lines' := GoInt.add (lines g) C in
  let level' := GoInt.quot lines' 10 in
  clearLines g =
  Ok (if C >? 0 then
        set_counters g1
          (if C <=? 4
           then GoInt.add (score g)
                  (GoInt.mul (nth (Z.to_nat C) scoreTable 0) (GoInt.add level' 1))
           else score g)
          lines' level'
      else g1).
Proof.
  intros Hwf C g1 lines' level'.
  destruct (cleared_rows _ Hwf) as [Hrows _].
  pose proof (clearedCount_bounds (board g)) as HC.
  unfold clearLines. fold (keptRows (board g)). fold (clearedCount (board g)).
  replace (scanRows (board g) [] 0)
    with (keptRows (board g), clearedCount (board g))
    by (unfold keptRows, clearedCount; by destruct (scanRows (board g) [] 0)).
  rewrite Hrows. fold C. fold g1.
  destruct (Z.gtb_spec C 0) as [Hpos|Hz]; [|done].
  destruct (Z.geb_spec C 0) as [_|?]; [|lia]. simpl.
  destruct (Z.leb_spec C 4) as [Hle|Hgt]; [|done].
  assert (HC' : C = 1 \/ C = 2 \/ C = 3 \/ C = 4) by lia.
  destruct HC' as [->|[->|[->| ->]]]; reflexivity.
Qed.

Lemma no_full_row_scan (b : Board) :
  (forall r, r ∈ b -> rowFull r = false) ->
  clearedCount b = 0 /\ keptRows b = b.
Proof.
  intros H. rewrite clearedCount_spec, keptRows_spec.
  assert (Hk : filter (fun r => rowFull r = false) b = b).
  { induction b as [|r b IH]; [done|].
    rewrite filter_cons_True by (apply H; left).
    f_equal. apply IH. intros r' Hr'. apply H. by right. }
  pose proof (filter_rowFull_length b) as Hs. rewrite Hk in Hs.
  split; [lia | done].
Qed.

Lemma clearedCount_zero_kept (b : Board) :
  clearedCount b = 0 -> keptRows b = b.
Proof.
  rewrite clearedCount_spec, keptRows_spec. intros H0.
  assert (Hlen : length (filter (fun r => rowFull r = false) b) = length b).
  { pose proof (filter_rowFull_length b). lia. }
  clear H0. induction b as [|r b IH]; [done|].
  destruct (rowFull r) eqn:E.
  - rewrite filter_cons_False in Hlen by congruence.
    pose proof (length_filter (fun r => rowFull r = false) b). simpl in Hlen. lia.
  - rewrite filter_cons_True in * by done. simpl in Hlen.
    f_equal. apply IH. lia.
Qed.

Lemma set_board_same {Rng} (g : Game Rng) : set_board g (board g) = g.
Proof. by destruct g. Qed.

(** C9. On a board without a full row [clearLines] counts 0 rows and
    changes nothing, so a second call right after it counts 0 again and
    leaves the state as it is. *)
Theorem clearLines_idempotent_without_full_row {Rng} (g : Game Rng) :
  wf_board (board g) ->
  (forall r, r ∈ board g -> rowFull r = false) ->
  clearedCount (board g) = 0 /\
  clearLines g = Ok g /\
  (do g1 <- clearLines g; clearLines g1) = Ok g.
Proof.
  intros Hwf Hnone. destruct (no_full_row_scan _ Hnone) as [HC Hk].
  assert (H1 : clearLines g = Ok g).
  { rewrite clearLines_eq by done. rewrite HC, Hk. simpl.
    by rewrite set_board_same. }
  split; [done|]. split; [done|]. rewrite H1. simpl. exact H1.
Qed.

Lemma clearLines_idempotent_without_full_row_witness :
  clearedCount (board Examples.fresh) = 0 /\
  clearLines Examples.fresh = Ok Examples.fresh /\
  (do g1 <- clearLines Examples.fresh; clearLines g1) = Ok Examples.fresh.
Proof.
  apply (clearLines_idempotent_without_full_row Examples.fresh).
  - board_ok.
  - intros r Hr. apply elem_of_replicate in Hr as [-> _]. reflexivity.
Defined.

(** ** Scoring *)

(** C1, as the code has it. When [clearLines] finds C rows to clear,
    1 <= C <= 4, it first adds C to the line count, recomputes the level
    as lines / 10, and only then adds scoreTable[C] * (level + 1) to the
    score, with the level just recomputed; when C = 0 the state is left
    as it is. Clearing 4 rows adds 1200 when the new line count is below
    10, and clearing 1 row adds 120 when the new line count is in
    20..29. *)
Theorem scoring_uses_recomputed_level {Rng} (g : Game Rng) :
  wf_board (board g) -> small_counters g ->
  exists g', clearLines g = Ok g' /\
    (clearedCount (board g) = 0 -> g' = g) /\
    (forall C, clearedCount (board g) = C -> 1 <= C <= 4 ->
       lines g' = lines g + C /\
       level g' = (lines g + C) / 10 /\
       exists pts, scoreTable !! Z.to_nat C = Some pts /\
         score g' = score g + pts * (level g' + 1)) /\
    (clearedCount (board g) = 4 -> lines g + 4 < 10 ->
       score g' = score g + 1200) /\
    (clearedCount (board g) = 1 -> 20 <= lines g + 1 < 30 ->
       score g' = score g + 120).
Proof.
  intros Hwf [Hl Hs].
  assert (Hgen : forall C, clearedCount (board g) = C -> 1 <= C <= 4 ->
    exists g', clearLines g = Ok g' /\ lines g' = lines g + C /\
      level g' = (lines g + C) / 10 /\
      exists pts, scoreTable !! Z.to_nat C = Some pts /\
        score g' = score g + pts * (level g' + 1)).
  { intros C HC Hr. eexists. split; [by apply clearLines_eq|].
    rewrite HC. destruct (Z.gtb_spec C 0); [|lia].
    destruct (Z.leb_spec C 4); [|lia].
    cbn [lines level score set_counters set_board].
    assert (Hlines : GoInt.add (lines g) C = lines g + C).
    { apply GoIntFacts.add_small. unfold GoInt.in_range, GoInt.min_int, GoInt.max_int. lia. }
    rewrite Hlines.
    assert (Hq : Z.quot (lines g + C) 10 = (lines g + C) / 10)
      by (apply Z.quot_div_nonneg; lia).
    assert (Hqb : 0 <= (lines g + C) / 10 <= 429496730).
    { split; [apply Z.div_pos; lia|].
      apply Z.div_le_upper_bound; lia. }
    assert (Hlevel : GoInt.quot (lines g + C) 10 = (lines g + C) / 10).
    { rewrite GoIntFacts.quot_small; rewrite Hq; [done|].
      unfold GoInt.in_range, GoInt.min_int, GoInt.max_int. lia. }
    rewrite Hlevel. split; [done|]. split; [done|].
    assert (Hpts : exists pts, scoreTable !! Z.to_nat C = Some pts /\
                     nth (Z.to_nat C) scoreTable 0 = pts /\ 0 <= pts <= 1200).
    { assert (HC' : C = 1 \/ C = 2 \/ C = 3 \/ C = 4) by lia.
      destruct HC' as [->|[->|[->| ->]]]; eexists; (split; [reflexivity|]);
        (split; [reflexivity|]); lia. }
    destruct Hpts as (pts & Hp1 & Hp2 & Hp3). exists pts. split; [done|].
    rewrite Hp2.
    rewrite (GoIntFacts.add_small ((lines g + C) / 10) 1)
      by (unfold GoInt.in_range, GoInt.min_int, GoInt.max_int; lia).
    assert (Hprod : 0 <= pts * ((lines g + C) / 10 + 1) <= 515396077200).
    { revert Hqb. generalize ((lines g + C) / 10) as q. clear - Hp3.
      intros q Hqb. split; [apply Z.mul_nonneg_nonneg; lia|].
      assert (pts * (q + 1) <= 1200 * (q + 1))
        by (apply Z.mul_le_mono_nonneg_r; lia).
      lia. }
    rewrite (GoIntFacts.mul_small pts ((lines g + C) / 10 + 1)).
    - apply GoIntFacts.add_small. revert Hprod.
      generalize (pts * ((lines g + C) / 10 + 1)) as prod. clear - Hs.
      intros prod Hprod.
      unfold GoInt.in_range, GoInt.min_int, GoInt.max_int; lia.
    - revert Hprod.
      generalize (pts * ((lines g + C) / 10 + 1)) as prod. clear.
      intros prod Hprod.
      unfold GoInt.in_range, GoInt.min_int, GoInt.max_int; lia. }
  destruct (Z.eq_dec (clearedCount (board g)) 0) as [H0|Hn0].
  - exists g. repeat split; try (intros; lia).
    rewrite clearLines_eq by done. rewrite H0. simpl.
    pose proof (clearedCount_zero_kept _ H0) as Hkept.
    rewrite Hkept. by rewrite set_board_same.
  - destruct (Z_le_gt_dec (clearedCount (board g)) 4) as [Hle|Hgt].
    + pose proof (clearedCount_bounds (board g)) as Hb.
      destruct (Hgen _ eq_refl ltac:(lia)) as (g' & H1 & H2 & H3 & pts & H4 & H5).
      exists g'. split; [done|]. split; [intros; lia|]. split.
      { intros C HC Hr. subst C. repeat split; try done. by exists pts. }
      split.
      * intros HC Hlt. rewrite HC in *. simpl in H4. inversion H4; subst pts.
        rewrite H5, H3. rewrite Z.div_small by lia. lia.
      * intros HC Hlt. rewrite HC in *. simpl in H4. inversion H4; subst pts.
        rewrite H5, H3.
        assert ((lines g + 1) / 10 = 2).
        { symmetry. apply (Z.div_unique _ _ 2 (lines g + 1 - 20)); lia. }
        lia.
    + eexists. split; [by apply clearLines_eq|].
      repeat split; intros; lia.
Qed.

Lemma scoring_uses_recomputed_level_witness :
  exists g', clearLines Examples.nineLines = Ok g' /\
    (clearedCount (board Examples.nineLines) = 0 -> g' = Examples.nineLines) /\
    (forall C, clearedCount (board Examples.nineLines) = C -> 1 <= C <= 4 ->
       lines g' = lines Examples.nineLines + C /\
       level g' = (lines Examples.nineLines + C) / 10 /\
       exists pts, scoreTable !! Z.to_nat C = Some pts /\
         score g' = score Examples.nineLines + pts * (level g' + 1)) /\
    (clearedCount (board Examples.nineLines) = 4 ->
       lines Examples.nineLines + 4 < 10 ->
       score g' = score Examples.nineLines + 1200) /\
    (clearedCount (board Examples.nineLines) = 1 ->
       20 <= lines Examples.nineLines + 1 < 30 ->
       score g' = score Examples.nineLines + 120).
Proof.
  apply (scoring_uses_recomputed_level Examples.nineLines).
  - board_ok.
  - unfold small_counters; simpl; lia.
Defined.

(** C1 fails as stated: with 9 lines cleared (level 0) one more cleared
    row adds 80 = 40 * (1 + 1), the level counted after the clear, and
    not 40 * (0 + 1). *)
Lemma scoring_at_old_level_counterexample :
  clearedCount (board Examples.nineLines) = 1 /\
  level Examples.nineLines = 0 /\
  exists g', clearLines Examples.nineLines = Ok g' /\
    score g' = score Examples.nineLines + 80 /\
    score g' <> score Examples.nineLines + 40 * (level Examples.nineLines + 1).
Proof.
  split; [reflexivity|]. split; [reflexivity|].
  eexists. split; [vm_compute; reflexivity|]. simpl. lia.
Qed.

(** ** Game over *)

(** A call of [Update] that starts with the game-over flag set either
    returns the state as it is (no restart input) or replaces it by a
    new game (Space, Enter or a touch). *)
Lemma game_over_is_terminal {Rng} (Shuffle : Rng -> Z -> list (Z * Z) * Rng)
    (fuel : nat) (g : Game Rng) (i : input Rng) :
  gameOver g = true ->
  (restartPressed i = false /\ Update Shuffle fuel g i = Ok g) \/
  (restartPressed i = true /\
   Update Shuffle fuel g i = Reset Shuffle g (seed i) /\
   Reset Shuffle g (seed i) = NewGame Shuffle (seed i)).
Proof.
  intros Hover. unfold Update. rewrite Hover.
  destruct (restartPressed i); [right | left]; done.
Qed.

Lemma game_over_is_terminal_witness :
  (restartPressed Examples.pressEnter = false /\
   Update Lcg.Shuffle 30 Examples.lost Examples.pressEnter = Ok Examples.lost) \/
  (restartPressed Examples.pressEnter = true /\
   Update Lcg.Shuffle 30 Examples.lost Examples.pressEnter
   = Reset Lcg.Shuffle Examples.lost (seed Examples.pressEnter) /\
   Reset Lcg.Shuffle Examples.lost (seed Examples.pressEnter)
   = NewGame Lcg.Shuffle (seed Examples.pressEnter)).
Proof.
  apply (game_over_is_terminal Lcg.Shuffle 30 Examples.lost Examples.pressEnter).
  reflexivity.
Defined.

(** [spawn] raises the flag when the new piece collides. *)
Lemma spawn_collision_sets_gameOver {Rng}
    (Shuffle : Rng -> Z -> list (Z * Z) * Rng) (g g' : Game Rng) :
  spawn Shuffle g = Ok g' ->
  collides g' (cur g') = Ok true -> gameOver g' = true.
Proof.
  unfold spawn. intros H Hc. apply bind_Ok in H as ([v g2] & _ & H).
  apply bind_Ok in H as (c & Hc' & H). destruct c.
  - by inversion H.
  - inversion H; subst g'. rewrite Hc' in Hc. discriminate.
Qed.

(** The flag is read at the start of [Update] only: in the call that
    raises it (a hard drop whose next piece collides) the soft-drop step
    still runs and locks that next piece. *)
Lemma gameOver_raised_inside_update :
  exists g1 g2,
    hardDrop Lcg.Shuffle 30 Examples.stacked = Ok g1 /\ gameOver g1 = true /\
    Update Lcg.Shuffle 30 Examples.stacked Examples.spaceAndDown = Ok g2 /\
    gameOver g2 = true /\
    cellAt (board g1) 4 0 = Some 0 /\ cellAt (board g2) 4 0 = Some 3.
Proof.
  eexists _, _. split; [vm_compute; reflexivity|]. split; [reflexivity|].
  split; [vm_compute; reflexivity|]. split; [reflexivity|].
  split; reflexivity.
Qed.

Lemma frames_played {Rng} (Shuffle : Rng -> Z -> list (Z * Z) * Rng)
    (fuel : nat) (ins : list (input Rng)) (g g' : Game Rng) :
  played Shuffle g -> frames Shuffle fuel ins g = Ok g' -> played Shuffle g'.
Proof.
  revert g. induction ins as [|i rest IH]; intros g Hp; cbn [frames].
  - by intros [= <-].
  - intros H. apply bind_Ok in H as (g1 & H1 & H).
    apply (IH g1); [|exact H]. by apply (played_update Shuffle fuel g i).
Qed.

(** C8. The flag does not stop the call of [Update] that raises it. A
    new game is played by tapping Space nine times with Down pressed;
    the game is not over. In the next call with Space and Down the hard
    drop locks the piece and the spawned J piece collides, so the flag
    is set with 40 blocks on the board. The flag is read at the first
    line of [Update] only, so the soft-drop step of the same call runs
    from that game-over state: it locks the colliding piece over the
    board, where cell (4, 1) goes from 3 to 6 and the blocks from 40 to
    43, and spawns again, so the piece and the preview change too. *)
Theorem game_over_raised_in_update_is_not_terminal :
  frames Lcg.Shuffle 30 nineTaps Examples.started = Ok nearTop /\
  played Lcg.Shuffle nearTop /\
  gameOver nearTop = false /\
  exists gh g',
    hardDrop Lcg.Shuffle 30 nearTop = Ok gh /\
    gameOver gh = true /\
    gravity Lcg.Shuffle true gh = Ok g' /\
    Update Lcg.Shuffle 30 nearTop Examples.spaceAndDown = Ok g' /\
    gameOver g' = true /\
    occupied (board gh) = 40 /\ occupied (board g') = 43 /\
    cellAt (board gh) 4 1 = Some 3 /\ cellAt (board g') 4 1 = Some 6 /\
    cur gh = ActivePiece 5 0 3 0 /\ cur g' = ActivePiece 6 0 3 0 /\
    nextKind gh = 6 /\ nextKind g' = 0.
Proof.
  assert (Hrun : frames Lcg.Shuffle 30 nineTaps Examples.started = Ok nearTop)
    by (vm_compute; reflexivity).
  split; [exact Hrun|]. split.
  { apply (frames_played Lcg.Shuffle 30 nineTaps Examples.started nearTop);
      [|exact Hrun].
    apply (played_new Lcg.Shuffle 42). vm_compute. reflexivity. }
  split; [vm_compute; reflexivity|].
  eexists _, _.
  split; [vm_compute; reflexivity|]. split; [reflexivity|].
  split; [vm_compute; reflexivity|]. split; [vm_compute; reflexivity|].
  split; [reflexivity|].
  split; [vm_compute; reflexivity|]. split; [vm_compute; reflexivity|].
  split; [vm_compute; reflexivity|]. split; [vm_compute; reflexivity|].
  split; [reflexivity|]. split; [reflexivity|]. split; reflexivity.
Qed.

(** ** Rotation *)

Lemma collides_total {Rng} (g : Game Rng) ap :
  wf_board (board g) -> wf_piece ap -> exists r, collides g ap = Ok r.
Proof.
  intros Hb Hp. destruct (pieceCells_wf ap Hp) as (src & _ & _ & _ & Hc).
  unfold collides. rewrite Hc. simpl.
  destruct (collidesCells_spec (board g)
              (map (fun p => Point (GoInt.add (ap_x ap) (p_x p))
                                   (GoInt.add (ap_y ap) (p_y p))) src) Hb)
    as (r & H1 & _).
  by exists r.
Qed.

Lemma rotation_index rot dir :
  0 <= rot < 4 -> dir = 1 \/ dir = -1 ->
  GoInt.rem (GoInt.add (GoInt.add rot dir) 4) 4 = (rot + dir) mod 4 /\
  0 <= (rot + dir) mod 4 < 4.
Proof.
  intros Hr Hd.
  assert (Hr' : rot = 0 \/ rot = 1 \/ rot = 2 \/ rot = 3) by lia.
  destruct Hr' as [->|[->|[->| ->]]]; destruct Hd as [-> | ->];
    (split; [reflexivity | vm_compute; split; congruence]).
Qed.

Lemma tryKicks_spec {Rng} (g : Game Rng) (next : activePiece) (oxs : list Z) :
  wf_board (board g) -> wf_piece next ->
  let cand ox := ActivePiece (ap_kind next) (ap_rot next)
                             (GoInt.add (ap_x next) ox) (ap_y next) in
  (exists pre ox post, oxs = pre ++ ox :: post /\
     (forall o, o ∈ pre -> collides g (cand o) = Ok true) /\
     collides g (cand ox) = Ok false /\
     tryKicks g next oxs = Ok (set_cur g (cand ox), true))
  \/ ((forall o, o ∈ oxs -> collides g (cand o) = Ok true) /\
      tryKicks g next oxs = Ok (g, false)).
Proof.
  intros Hb Hp cand. induction oxs as [|ox rest IH].
  - right. split; [|done]. intros o Ho. by apply elem_of_nil in Ho.
  - cbn [tryKicks]. fold (cand ox).
    destruct (collides_total g (cand ox) Hb) as (r & Hr); [exact Hp|].
    rewrite Hr. cbn [bind]. destruct r; cbn [negb].
    + destruct IH as [(pre & o & post & -> & Hpre & Ho & Hres) | [Hall Hres]].
      * left. exists (ox :: pre), o, post.
        split; [reflexivity|]. split; [|split; assumption].
        intros o' Ho'. apply elem_of_cons in Ho' as [-> | Ho']; [done | by apply Hpre].
      * right. split; [|done].
        intros o' Ho'. apply elem_of_cons in Ho' as [-> | Ho']; [done | by apply Hall].
    + left. exists [], ox, rest.
      split; [reflexivity|]. split; [|split; [assumption | reflexivity]].
      intros o Ho. by apply elem_of_nil in Ho.
Qed.

Lemma kicks_small o : o ∈ kicks -> -2 <= o <= 2.
Proof.
  unfold kicks. intros H.
  repeat (apply elem_of_cons in H as [-> | H]; [lia|]).
  by apply elem_of_nil in H.
Qed.

(** [tryRotate] is [tryKicks] on the turned piece, whose candidates at
    the five offsets are the pieces [rotated]. *)
Lemma tryRotate_unfold {Rng} (g : Game Rng) (dir : Z) :
  wf_piece (cur g) -> dir = 1 \/ dir = -1 ->
  GoInt.min_int + 2 <= ap_x (cur g) <= GoInt.max_int - 2 ->
  exists next,
    wf_piece next /\
    tryRotate g dir = tryKicks g next kicks /\
    forall o, o ∈ kicks ->
      ActivePiece (ap_kind next) (ap_rot next) (GoInt.add (ap_x next) o)
                  (ap_y next)
      = rotated (cur g) dir o.
Proof.
  intros [Hk Hr] Hd Hx.
  destruct (rotation_index _ _ Hr Hd) as [Hrot Hrot'].
  exists (ActivePiece (ap_kind (cur g)) ((ap_rot (cur g) + dir) mod 4)
                      (ap_x (cur g)) (ap_y (cur g))).
  split; [split; simpl; lia|]. split.
  - unfold tryRotate. by rewrite Hrot.
  - intros o Ho. apply kicks_small in Ho. unfold rotated. simpl.
    rewrite (GoIntFacts.add_small (ap_x (cur g)) o); [done|].
    unfold GoInt.in_range. lia.
Qed.

(** C4. [tryRotate] with direction +1 or -1 turns the piece to rotation
    (rot + dir) mod 4 at the same anchor and tries the horizontal offsets
    0, -1, +1, -2, +2 in this order: it commits the first offset whose
    placement does not collide and returns true; when all five collide it
    returns false and the state is the one it was given. *)
Theorem tryRotate_commits_first_free_kick {Rng} (g : Game Rng) (dir : Z) :
  wf_board (board g) -> wf_piece (cur g) ->
  dir = 1 \/ dir = -1 ->
  GoInt.min_int + 2 <= ap_x (cur g) <= GoInt.max_int - 2 ->
  (exists pre ox post,
     [0; -1; 1; -2; 2] = pre ++ ox :: post /\
     (forall o, o ∈ pre -> collides g (rotated (cur g) dir o) = Ok true) /\
     collides g (rotated (cur g) dir ox) = Ok false /\
     tryRotate g dir = Ok (set_cur g (rotated (cur g) dir ox), true))
  \/ ((forall o, o ∈ [0; -1; 1; -2; 2] ->
         collides g (rotated (cur g) dir o) = Ok true) /\
      tryRotate g dir = Ok (g, false)).
Proof.
  intros Hb Hwf Hd Hx.
  destruct (tryRotate_unfold g dir Hwf Hd Hx) as (next & Hpn & Hnext & Hcand).
  rewrite Hnext.
  destruct (tryKicks_spec g next kicks Hb Hpn)
    as [(pre & ox & post & Heq & Hpre & Hox & Hres) | [Hall Hres]].
  - left. exists pre, ox, post.
    assert (Hin : forall o, o ∈ pre ++ ox :: post -> o ∈ kicks)
      by (intros o Ho; by rewrite Heq).
    split; [exact Heq|]. split; [|split].
    + intros o Ho. rewrite <- Hcand; [by apply Hpre|].
      apply Hin, elem_of_app. by left.
    + rewrite <- Hcand; [done|]. apply Hin, elem_of_app. right. by left.
    + rewrite Hres. rewrite Hcand; [done|].
      apply Hin, elem_of_app. right. by left.
  - right. split; [|exact Hres].
    intros o Ho. rewrite <- Hcand; [by apply Hall | exact Ho].
Qed.

Lemma tryRotate_commits_first_free_kick_witness :
  (exists pre ox post,
     [0; -1; 1; -2; 2] = pre ++ ox :: post /\
     (forall o, o ∈ pre ->
        collides Examples.fresh (rotated (cur Examples.fresh) 1 o) = Ok true) /\
     collides Examples.fresh (rotated (cur Examples.fresh) 1 ox) = Ok false /\
     tryRotate Examples.fresh 1
     = Ok (set_cur Examples.fresh (rotated (cur Examples.fresh) 1 ox), true))
  \/ ((forall o, o ∈ [0; -1; 1; -2; 2] ->
         collides Examples.fresh (rotated (cur Examples.fresh) 1 o) = Ok true) /\
      tryRotate Examples.fresh 1 = Ok (Examples.fresh, false)).
Proof.
  apply (tryRotate_commits_first_free_kick Examples.fresh 1).
  - board_ok.
  - unfold wf_piece; simpl; lia.
  - left; reflexivity.
  - unfold GoInt.min_int, GoInt.max_int; simpl; lia.
Defined.

(** ** Locking a piece *)

(** One board write of [lockPiece]. *)
Lemma write_cell (b : Board) (x y v : Z) :
  wf_board b -> 0 <= x < boardW -> 0 <= y < boardH ->
  exists row b',
    index b y = Ok row /\
    store row x v = Ok (<[Z.to_nat x := v]> row) /\
    store b y (<[Z.to_nat x := v]> row) = Ok b' /\
    b' = <[Z.to_nat y := <[Z.to_nat x := v]> row]> b /\
    wf_board b' /\
    forall x' y', cellAt b' x' y' =
      if (x =? x') && (y =? y') then Some v else cellAt b x' y'.
Proof.
  intros Hwf Hx Hy.
  destruct (wf_board_cell b x y Hwf Hx Hy) as (row & c & H1 & H2 & Hlen & H3).
  destruct Hwf as [Hlb Hrows].
  apply index_Ok in H1 as H1'. destruct H1' as [_ Hrow].
  exists row, (<[Z.to_nat y := <[Z.to_nat x := v]> row]> b).
  split; [done|]. split; [apply store_in_bounds; lia|].
  split; [apply store_in_bounds; lia|]. split; [done|]. split.
  - split; [by rewrite length_insert|].
    apply Forall_insert; [done|]. by rewrite length_insert.
  - intros x' y'. unfold cellAt.
    destruct (Z.ltb_spec x' 0) as [Hx'|Hx']; simpl.
    { destruct (Z.eqb_spec x x'); [lia | done]. }
    destruct (Z.ltb_spec y' 0) as [Hy'|Hy']; simpl.
    { destruct (Z.eqb_spec y y'); [lia|]. by rewrite andb_false_r. }
    destruct (Z.eqb_spec y y') as [<-|Hny].
    + rewrite list_lookup_insert_eq by lia. rewrite Hrow.
      destruct (Z.eqb_spec x x') as [<-|Hnx]; simpl.
      * apply list_lookup_insert_eq. lia.
      * apply list_lookup_insert_ne. lia.
    + rewrite andb_false_r. rewrite list_lookup_insert_ne by lia. done.
Qed.

Lemma placeCells_spec (b : Board) (cells : list point) (v : Z) :
  wf_board b ->
  (forall p, p ∈ cells -> 0 <= p_x p < boardW /\ p_y p < boardH) ->
  exists b' ov,
    placeCells b cells v = Ok (b', ov) /\
    wf_board b' /\
    (ov = true <-> exists p, p ∈ cells /\ p_y p < 0) /\
    (ov = false -> writtenCells cells = cells) /\
    forall x y, cellAt b' x y =
      if covers (writtenCells cells) x y then Some v else cellAt b x y.
Proof.
  revert b. induction cells as [|p rest IH]; intros b Hwf Hin.
  - exists b, false. split; [done|]. split; [done|]. split; [|done].
    split; [done|]. intros (p & Hp & _). by apply elem_of_nil in Hp.
  - cbn [placeCells writtenCells].
    destruct (Z.ltb_spec (p_y p) 0) as [Hneg|Hpos].
    + exists b, true. split; [done|]. split; [done|]. split; [|done].
      split; [|done]. intros _. exists p. split; [by left | done].
    + destruct (Hin p) as [Hx Hy]; [by left|].
      destruct (write_cell b (p_x p) (p_y p) v Hwf Hx)
        as (row & b1 & H1 & H2 & H3 & _ & Hwf1 & Hcell); [lia|].
      rewrite H1. cbn [bind]. rewrite H2. cbn [bind]. rewrite H3. cbn [bind].
      destruct (IH b1 Hwf1) as (b' & ov & Hp' & Hwf' & Hov & Hall & Hcells).
      { intros q Hq. apply Hin. by right. }
      exists b', ov. split; [done|]. split; [done|]. split; [|split].
      * rewrite Hov. split; intros (q & Hq & Hqy).
        -- exists q. split; [by right | done].
        -- apply elem_of_cons in Hq as [-> | Hq]; [lia|]. by exists q.
      * intros Hf. by rewrite (Hall Hf).
      * intros x y. rewrite Hcells, Hcell. cbn [covers existsb].
        fold (covers (writtenCells rest) x y).
        destruct (covers (writtenCells rest) x y); [by rewrite orb_true_r|].
        by rewrite orb_false_r.
Qed.

Lemma covers_spec cells x y :
  covers cells x y = true <-> Point x y ∈ cells.
Proof.
  unfold covers. rewrite existsb_exists. split.
  - intros (p & Hp & Hxy). apply andb_true_iff in Hxy as [Hx Hy].
    apply Z.eqb_eq in Hx, Hy. subst. destruct p. by apply list_elem_of_In.
  - intros H. exists (Point x y). split; [by apply list_elem_of_In|].
    simpl. by rewrite !Z.eqb_refl.
Qed.

(** C2, as the code has it. [lockPiece] writes kind+1 into the cells of
    the piece in catalog order and stops at the first cell with y < 0:
    it raises the game-over flag exactly when some cell has y < 0, and
    then the cells after that first one are not written and neither
    [clearLines] nor [spawn] runs; when no cell has y < 0 every cell of
    the piece is written, and [clearLines] and [spawn] follow. *)
Theorem lockPiece_writes_up_to_first_overflow {Rng}
    (Shuffle : Rng -> Z -> list (Z * Z) * Rng) (g : Game Rng)
    (cells : list point) :
  wf_board (board g) ->
  pieceCells (cur g) = Ok cells ->
  (forall p, p ∈ cells -> 0 <= p_x p < boardW /\ p_y p < boardH) ->
  exists b ov,
    placeCells (board g) cells (ap_kind (cur g) + 1) = Ok (b, ov) /\
    (ov = true <-> exists p, p ∈ cells /\ p_y p < 0) /\
    (ov = false -> writtenCells cells = cells) /\
    (forall p, p ∈ writtenCells cells ->
       cellAt b (p_x p) (p_y p) = Some (ap_kind (cur g) + 1)) /\
    (forall x y, Point x y ∉ writtenCells cells ->
       cellAt b x y = cellAt (board g) x y) /\
    lockPiece Shuffle g =
      if ov then Ok (set_gameOver (set_board g b) true)
      else (do g2 <- clearLines (set_board g b); spawn Shuffle g2).
Proof.
  intros Hwf Hcells Hin.
  destruct (placeCells_spec (board g) cells (ap_kind (cur g) + 1) Hwf Hin)
    as (b & ov & Hp & _ & Hov & Hall & Hcell).
  exists b, ov. split; [done|]. split; [done|]. split; [done|].
  split; [|split].
  - intros p Hp'. rewrite Hcell.
    replace (covers (writtenCells cells) (p_x p) (p_y p)) with true; [done|].
    symmetry. apply covers_spec. by destruct p.
  - intros x y Hn. rewrite Hcell.
    destruct (covers (writtenCells cells) x y) eqn:E; [|done].
    apply covers_spec in E. contradiction.
  - unfold lockPiece. rewrite Hcells. cbn [bind].
    apply pieceCells_Ok_wf in Hcells as [Hk _].
    rewrite (GoIntFacts.add_small (ap_kind (cur g)) 1)
      by (apply GoIntFacts.in_range_small; lia).
    rewrite Hp. cbn [bind]. by destruct ov.
Qed.

Lemma lockPiece_writes_up_to_first_overflow_witness :
  exists b ov,
    placeCells (board Examples.overTop)
      [Point 4 (-1); Point 3 0; Point 4 0; Point 5 0]
      (ap_kind (cur Examples.overTop) + 1) = Ok (b, ov) /\
    (ov = true <->
     exists p, p ∈ [Point 4 (-1); Point 3 0; Point 4 0; Point 5 0] /\ p_y p < 0) /\
    (ov = false ->
     writtenCells [Point 4 (-1); Point 3 0; Point 4 0; Point 5 0]
     = [Point 4 (-1); Point 3 0; Point 4 0; Point 5 0]) /\
    (forall p, p ∈ writtenCells [Point 4 (-1); Point 3 0; Point 4 0; Point 5 0] ->
       cellAt b (p_x p) (p_y p) = Some (ap_kind (cur Examples.overTop) + 1)) /\
    (forall x y,
       Point x y ∉ writtenCells [Point 4 (-1); Point 3 0; Point 4 0; Point 5 0] ->
       cellAt b x y = cellAt (board Examples.overTop) x y) /\
    lockPiece Lcg.Shuffle Examples.overTop =
      if ov then Ok (set_gameOver (set_board Examples.overTop b) true)
      else (do g2 <- clearLines (set_board Examples.overTop b);
            spawn Lcg.Shuffle g2).
Proof.
  apply (lockPiece_writes_up_to_first_overflow Lcg.Shuffle Examples.overTop).
  - board_ok.
  - reflexivity.
  - intros p Hp.
    repeat (apply elem_of_cons in Hp as [-> | Hp]; [vm_compute; repeat split; congruence|]).
    by apply elem_of_nil in Hp.
Defined.

(** C2 fails as stated: a T piece whose top cell is above the board is a
    placement that does not collide, yet locking it returns at that first
    cell, so its three cells in row 0 stay empty. *)
Lemma lockPiece_overflow_counterexample :
  pieceCells (cur Examples.overTop)
    = Ok [Point 4 (-1); Point 3 0; Point 4 0; Point 5 0] /\
  collides Examples.overTop (cur Examples.overTop) = Ok false /\
  exists g', lockPiece Lcg.Shuffle Examples.overTop = Ok g' /\
    gameOver g' = true /\
    cellAt (board g') 3 0 = Some 0 /\
    cellAt (board g') 3 0 <> Some (ap_kind (cur Examples.overTop) + 1).
Proof.
  split; [reflexivity|]. split; [reflexivity|].
  eexists. split; [vm_compute; reflexivity|].
  split; [reflexivity|]. split; [reflexivity|]. vm_compute. congruence.
Qed.

(** ** What [clearLines] does to the board *)

Lemma filter_insert_length {A} (P : A -> Prop) `{!forall a, Decision (P a)}
    (l : list A) (i : nat) (a : A) :
  (length (filter P (<[i := a]> l)) <= S (length (filter P l)))%nat.
Proof.
  revert i. induction l as [|a0 l IH]; intros i; [simpl; lia|].
  destruct i as [|i].
  - change (<[0%nat := a]> (a0 :: l)) with (a :: l).
    rewrite !filter_cons. destruct (decide (P a)), (decide (P a0)); simpl; lia.
  - change (<[S i := a]> (a0 :: l)) with (a0 :: <[i := a]> l).
    specialize (IH i). rewrite !filter_cons.
    destruct (decide (P a0)); simpl; lia.
Qed.

Lemma placeCells_count (cells : list point) (b b' : Board) (v : Z) (ov : bool) :
  placeCells b cells v = Ok (b', ov) ->
  clearedCount b' <= clearedCount b + Z.of_nat (length cells).
Proof.
  revert b. induction cells as [|p rest IH]; intros b H.
  - inversion H; subst. simpl. lia.
  - cbn [placeCells] in H. destruct (p_y p <? 0).
    + inversion H; subst. lia.
    + apply bind_Ok in H as (row & _ & H).
      apply bind_Ok in H as (row' & _ & H).
      apply bind_Ok in H as (b1 & Hb1 & H).
      apply store_Ok in Hb1 as [_ ->]. apply IH in H.
      pose proof (filter_insert_length (fun r => rowFull r = true) b
                    (Z.to_nat (p_y p)) row') as Hle.
      rewrite !clearedCount_spec in *. simpl length. lia.
Qed.

(** ** The 7-bag *)

Section Bag.

Context {Rng : Type}.
Variable Shuffle : Rng -> Z -> list (Z * Z) * Rng.
Hypothesis Shuffle_ok : Shuffle_in_bounds Shuffle.

Lemma swapBag_perm (l : list Z) (ij : Z * Z) :
  0 <= fst ij < Z.of_nat (length l) -> 0 <= snd ij < Z.of_nat (length l) ->
  exists l', swapBag l ij = Ok l' /\ l' ≡ₚ l.
Proof.
  destruct ij as [i j]. simpl. intros Hi Hj. unfold swapBag. simpl.
  destruct (lookup_lt_is_Some_2 l (Z.to_nat i)) as [vi Hvi]; [lia|].
  destruct (lookup_lt_is_Some_2 l (Z.to_nat j)) as [vj Hvj]; [lia|].
  assert (H1 : index l j = Ok vj) by (apply index_Ok; split; [lia | done]).
  assert (H2 : index l i = Ok vi) by (apply index_Ok; split; [lia | done]).
  rewrite H1. cbn [bind]. rewrite H2. cbn [bind].
  rewrite (store_in_bounds l i vj) by lia. cbn [bind].
  rewrite store_in_bounds by (rewrite length_insert; lia).
  eexists. split; [reflexivity|]. by apply Permutation_insert_swap.
Qed.

Lemma applySwaps_perm (swaps : list (Z * Z)) (l : list Z) :
  (forall ij, ij ∈ swaps ->
     0 <= fst ij < Z.of_nat (length l) /\ 0 <= snd ij < Z.of_nat (length l)) ->
  exists l', applySwaps swaps l = Ok l' /\ l' ≡ₚ l.
Proof.
  revert l. induction swaps as [|ij rest IH]; intros l Hin.
  - by exists l.
  - destruct (Hin ij) as [Hi Hj]; [by left|].
    destruct (swapBag_perm l ij Hi Hj) as (l1 & H1 & Hp1).
    cbn [applySwaps]. rewrite H1. cbn [bind].
    destruct (IH l1) as (l' & H2 & Hp2).
    + intros ij' Hij'. rewrite (Permutation_length Hp1). apply Hin. by right.
    + exists l'. split; [done|]. by rewrite Hp2.
Qed.

(** A draw from an empty bag refills and shuffles it first. *)
Lemma popBag_refill (g : Game Rng) :
  bag g = [] ->
  exists v rest r, popBag Shuffle g = Ok (v, set_bag g rest r) /\
    v :: rest ≡ₚ freshBag.
Proof.
  intros Hbag. unfold popBag. rewrite Hbag. simpl length.
  change (0 =? 0)%nat with true. cbv iota.
  change (Z.of_nat 7) with 7.
  destruct (Shuffle (rng g) 7) as [swaps r] eqn:Hsh.
  destruct (applySwaps_perm swaps freshBag) as (l & Hl & Hp).
  { intros ij Hij. apply (Shuffle_ok (rng g) 7). by rewrite Hsh. }
  rewrite Hl. cbn [bind].
  destruct l as [|v rest].
  { apply Permutation_length in Hp. discriminate. }
  exists v, rest, r. split; [|done]. by destruct g.
Qed.

Lemma popBag_nonempty (g : Game Rng) v rest :
  bag g = v :: rest -> popBag Shuffle g = Ok (v, set_bag g rest (rng g)).
Proof. intros Hbag. unfold popBag. rewrite Hbag. simpl. by rewrite Hbag. Qed.

(** The draws that empty the bag return its content in order. *)
Lemma draws_bag (l : list Z) (g : Game Rng) :
  bag g = l -> draws Shuffle (length l) g = Ok (l, set_bag g [] (rng g)).
Proof.
  revert g. induction l as [|v rest IH]; intros g Hbag.
  - simpl. f_equal. f_equal. destruct g. simpl in *. by subst.
  - cbn [length draws]. rewrite (popBag_nonempty g v rest Hbag). cbn [bind].
    rewrite IH by (by destruct g). cbn [bind]. by destruct g.
Qed.

(** Seven draws from an empty bag: one shuffled bag, emptied again. *)
Lemma draws_one_bag (g : Game Rng) :
  bag g = [] ->
  exists l g', draws Shuffle 7 g = Ok (l, g') /\ l ≡ₚ freshBag /\ bag g' = [].
Proof.
  intros Hbag. destruct (popBag_refill g Hbag) as (v & rest & r & Hpop & Hp).
  assert (Hlen : length rest = 6%nat).
  { apply Permutation_length in Hp. simpl in Hp. lia. }
  replace 7%nat with (S (length rest)) by lia.
  cbn [draws]. rewrite Hpop. cbn [bind].
  rewrite draws_bag by (by destruct g). cbn [bind].
  eexists _, _. split; [reflexivity|]. split; [done|]. by destruct g.
Qed.

Lemma draws_app (n m : nat) (g : Game Rng) :
  draws Shuffle (n + m) g =
  (do '(l1, g1) <- draws Shuffle n g;
   do '(l2, g2) <- draws Shuffle m g1;
   Ok (l1 ++ l2, g2)).
Proof.
  revert g. induction n as [|n IH]; intros g.
  - simpl. destruct (draws Shuffle m g) as [[l2 g2]| |]; done.
  - cbn [Nat.add draws]. destruct (popBag Shuffle g) as [[v g1]| |]; [|done..].
    cbn [bind]. rewrite IH.
    destruct (draws Shuffle n g1) as [[l1 g2]| |]; [|done..]. cbn [bind].
    destruct (draws Shuffle m g2) as [[l2 g3]| |]; done.
Qed.


(** C7. Starting at a bag boundary (the bag is empty, as in a new
    game), any number k of groups of 7 draws succeeds, yields 7 * k
    kinds, ends at a bag boundary again, and each of the k groups is a
    permutation of the seven kinds 0..6: every kind exactly once. *)
Theorem every_bag_is_a_permutation (k : nat) (g : Game Rng) :
  bag g = [] ->
  exists l g',
    draws Shuffle (7 * k) g = Ok (l, g') /\
    length l = (7 * k)%nat /\
    bag g' = [] /\
    forall j, (j < k)%nat -> take 7 (drop (7 * j) l) ≡ₚ [0; 1; 2; 3; 4; 5; 6].
Proof.
  revert g. induction k as [|k IH]; intros g Hbag.
  - exists [], g. split; [done|]. split; [done|]. split; [done|].
    intros j Hj. lia.
  - destruct (draws_one_bag g Hbag) as (l1 & g1 & H1 & Hp1 & Hb1).
    destruct (IH g1 Hb1) as (l2 & g2 & H2 & Hlen2 & Hb2 & Hgroups).
    exists (l1 ++ l2), g2.
    replace (7 * S k)%nat with (7 + 7 * k)%nat by lia.
    rewrite draws_app, H1. cbn [bind]. rewrite H2. cbn [bind].
    assert (Hl1 : length l1 = 7%nat) by (by apply Permutation_length in Hp1).
    split; [done|]. split; [rewrite length_app; lia|]. split; [done|].
    intros j Hj. destruct j as [|j].
    + rewrite Nat.mul_0_r, drop_0. rewrite take_app_length' by done. exact Hp1.
    + replace (7 * S j)%nat with (length l1 + 7 * j)%nat by lia.
      rewrite drop_app_add. apply Hgroups. lia.
Qed.

End Bag.

Lemma Lcg_swaps_bound (n : nat) (s : Z) :
  Forall (lcgBound n) (fst (Lcg.swaps n s)).
Proof.
  revert s. induction n as [|n IH]; intros s; [constructor|].
  cbn [Lcg.swaps]. specialize (IH (Lcg.next s)).
  destruct (Lcg.swaps n (Lcg.next s)) as [rest s2]. cbn [fst] in *.
  constructor.
  - unfold lcgBound. cbn [fst snd].
    pose proof (Z.mod_pos_bound (Lcg.next s) (Z.of_nat (S n) + 1)). lia.
  - eapply Forall_impl; [exact IH|]. unfold lcgBound. intros ij. lia.
Qed.

Lemma Lcg_in_bounds : Shuffle_in_bounds Lcg.Shuffle.
Proof.
  intros r n ij Hij. unfold Lcg.Shuffle in Hij.
  pose proof (Lcg_swaps_bound (Z.to_nat n - 1) r) as H.
  rewrite Forall_forall in H. specialize (H ij Hij). unfold lcgBound in H.
  destruct (Z.to_nat n - 1)%nat eqn:E.
  - simpl in Hij. by apply elem_of_nil in Hij.
  - lia.
Qed.

Lemma every_bag_is_a_permutation_witness :
  exists l g',
    draws Lcg.Shuffle (7 * 2) Examples.fresh = Ok (l, g') /\
    length l = (7 * 2)%nat /\
    bag g' = [] /\
    forall j, (j < 2)%nat -> take 7 (drop (7 * j) l) ≡ₚ [0; 1; 2; 3; 4; 5; 6].
Proof.
  apply (every_bag_is_a_permutation Lcg.Shuffle Lcg_in_bounds 2 Examples.fresh).
  reflexivity.
Defined.

(** ** Hard drop and the ghost piece *)

Lemma collides_set_cur {Rng} (g : Game Rng) ap ap' :
  collides (set_cur g ap') ap = collides g ap.
Proof. reflexivity. Qed.

Lemma ghostLoop_set_cur {Rng} fuel (g : Game Rng) ap ap' :
  ghostLoop fuel (set_cur g ap') ap = ghostLoop fuel g ap.
Proof.
  revert ap. induction fuel as [|fuel IH]; intros ap; [done|].
  cbn [ghostLoop]. rewrite collides_set_cur.
  destruct (collides g _) as [[|]| |]; cbn [bind negb]; first [done | apply IH].
Qed.


Lemma set_cur_same {Rng} (g : Game Rng) :
  set_cur g (atRow (cur g) (ap_y (cur g))) = g.
Proof. destruct g as [b [k r x y] ? ? ? ? ? ? ? ?]. reflexivity. Qed.

(** One step down is the move [tryMove(0, 1)] tries. *)
Lemma tryMove_down {Rng} (g : Game Rng) :
  GoInt.in_range (ap_x (cur g)) ->
  tryMove g 0 1 =
  (do c <- collides g (atRow (cur g) (GoInt.add (ap_y (cur g)) 1));
   if negb c
   then Ok (set_cur g (atRow (cur g) (GoInt.add (ap_y (cur g)) 1)), true)
   else Ok (g, false)).
Proof.
  intros Hx. unfold tryMove, atRow.
  by rewrite (GoIntFacts.add_0_r (ap_x (cur g)) Hx).
Qed.

(** The loop of [hardDrop] stops on the row the loop of [ghostPieceY]
    computes. *)
Lemma dropLoop_ghostLoop {Rng} (fuel : nat) (g : Game Rng) :
  GoInt.in_range (ap_x (cur g)) ->
  dropLoop fuel g =
  (do yg <- ghostLoop fuel g (cur g); Ok (set_cur g (atRow (cur g) yg))).
Proof.
  revert g. induction fuel as [|fuel IH]; intros g Hx; [done|].
  cbn [dropLoop ghostLoop]. rewrite (tryMove_down g Hx).
  change (ActivePiece (ap_kind (cur g)) (ap_rot (cur g)) (ap_x (cur g))
                      (GoInt.add (ap_y (cur g)) 1))
    with (atRow (cur g) (GoInt.add (ap_y (cur g)) 1)).
  destruct (collides g (atRow (cur g) (GoInt.add (ap_y (cur g)) 1)))
    as [[|]| |]; cbn [bind negb]; try done.
  - by rewrite set_cur_same.
  - rewrite IH by exact Hx. cbn [cur set_cur].
    rewrite ghostLoop_set_cur.
    destruct (ghostLoop fuel g _) as [yg| |]; done.
Qed.

Lemma collides_false_cells {Rng} (g : Game Rng) ap :
  wf_board (board g) -> collides g ap = Ok false ->
  wf_piece ap /\
  exists cells, pieceCells ap = Ok cells /\ Forall (cellFree (board g)) cells.
Proof.
  intros Hb Hc. unfold collides in Hc. apply bind_Ok in Hc as (cells & H1 & H2).
  split; [by eapply pieceCells_Ok_wf|]. exists cells. split; [done|].
  destruct (collidesCells_spec (board g) cells Hb) as (r & Hr & Hiff).
  rewrite Hr in H2. inversion H2; subst r. by apply Hiff.
Qed.

(** A piece that does not collide has its anchor above the floor. *)
Lemma not_collides_above_floor {Rng} (g : Game Rng) ap :
  wf_board (board g) -> collides g ap = Ok false ->
  GoInt.min_int <= ap_y ap <= boardH -> ap_y ap < boardH.
Proof.
  intros Hb Hc Hy.
  destruct (collides_false_cells g ap Hb Hc) as (Hwf & cells & Hcells & Hfree).
  destruct (pieceCells_wf ap Hwf) as (src & _ & Hlen & Hbox & Hmap).
  rewrite Hmap in Hcells. inversion Hcells; subst cells. clear Hcells.
  destruct src as [|p0 src]; [discriminate|].
  inversion Hbox as [|? ? [_ Hp0] _]; subst.
  inversion Hfree as [|? ? (_ & Hlt & _) _]; subst. cbn [p_y] in Hlt.
  rewrite (GoIntFacts.add_small (ap_y ap) (p_y p0)) in Hlt.
  - lia.
  - unfold GoInt.in_range, GoInt.max_int, boardH in *. lia.
Qed.


(** The ghost loop ends, on the first row below which the piece would
    collide. *)
Lemma ghostLoop_spec {Rng} (fuel : nat) (g : Game Rng) (ap : activePiece) :
  wf_board (board g) -> wf_piece ap ->
  GoInt.min_int <= ap_y ap < boardH ->
  (Z.to_nat (boardH - ap_y ap) < fuel)%nat ->
  exists yg,
    ghostLoop fuel g ap = Ok yg /\
    ap_y ap <= yg < boardH /\
    (forall y', ap_y ap < y' <= yg -> collides g (atRow ap y') = Ok false) /\
    collides g (atRow ap (yg + 1)) = Ok true.
Proof.
  revert ap. induction fuel as [|fuel IH]; intros ap Hb Hwf Hy Hfuel; [lia|].
  cbn [ghostLoop].
  change (ActivePiece (ap_kind ap) (ap_rot ap) (ap_x ap) (GoInt.add (ap_y ap) 1))
    with (atRow ap (GoInt.add (ap_y ap) 1)).
  assert (Hadd : GoInt.add (ap_y ap) 1 = ap_y ap + 1).
  { apply GoIntFacts.add_small.
    unfold GoInt.in_range, GoInt.max_int, boardH in *. lia. }
  rewrite Hadd.
  destruct (collides_total g (atRow ap (ap_y ap + 1)) Hb Hwf) as (c & Hc).
  rewrite Hc. cbn [bind]. destruct c; cbn [negb].
  - exists (ap_y ap). split; [done|]. split; [lia|]. split; [|done].
    intros y' Hy'. lia.
  - assert (Hlt : ap_y ap + 1 < boardH).
    { apply (not_collides_above_floor g (atRow ap (ap_y ap + 1)) Hb Hc).
      cbn [atRow ap_y]. lia. }
    destruct (IH (atRow ap (ap_y ap + 1)) Hb Hwf) as (yg & H1 & H2 & H3 & H4).
    + cbn [atRow ap_y]. lia.
    + cbn [atRow ap_y]. lia.
    + cbn [atRow ap_y] in H2. exists yg. split; [done|]. split; [lia|].
      split; [|done]. intros y' Hy'.
      destruct (Z.eq_dec y' (ap_y ap + 1)) as [-> | Hne]; [done|].
      apply (H3 y'). cbn [atRow ap_y]. lia.
Qed.

(** C3, as the code has it. From a placement that does not collide,
    [hardDrop] locks the piece on the row [ghostPieceY] computes, and
    that row is the lowest one the piece reaches by moving straight down:
    it does not collide on any row from its own down to that one, and it
    collides on the row below. *)
Theorem hardDrop_locks_on_ghost_row {Rng}
    (Shuffle : Rng -> Z -> list (Z * Z) * Rng) (fuel : nat) (g : Game Rng) :
  wf_board (board g) ->
  collides g (cur g) = Ok false ->
  GoInt.in_range (ap_x (cur g)) ->
  GoInt.min_int <= ap_y (cur g) < boardH ->
  (Z.to_nat (boardH - ap_y (cur g)) < fuel)%nat ->
  exists yg,
    ghostPieceY fuel g = Ok yg /\
    dropLoop fuel g = Ok (set_cur g (atRow (cur g) yg)) /\
    hardDrop Shuffle fuel g =
      (do g2 <- lockPiece Shuffle (set_cur g (atRow (cur g) yg));
       Ok (set_dropFrameCounter g2 0)) /\
    ap_y (cur g) <= yg /\
    (forall y', ap_y (cur g) <= y' <= yg ->
       collides g (atRow (cur g) y') = Ok false) /\
    collides g (atRow (cur g) (yg + 1)) = Ok true.
Proof.
  intros Hb Hc Hx Hy Hfuel.
  destruct (collides_false_cells g (cur g) Hb Hc) as (Hwf & _).
  destruct (ghostLoop_spec fuel g (cur g) Hb Hwf Hy Hfuel)
    as (yg & H1 & H2 & H3 & H4).
  assert (Hdrop : dropLoop fuel g = Ok (set_cur g (atRow (cur g) yg))).
  { rewrite (dropLoop_ghostLoop fuel g Hx), H1. reflexivity. }
  exists yg. split; [exact H1|]. split; [exact Hdrop|]. split.
  { unfold hardDrop. rewrite Hdrop. reflexivity. }
  split; [lia|]. split; [|exact H4].
  intros y' Hy'. destruct (Z.eq_dec y' (ap_y (cur g))) as [-> | Hne].
  - replace (atRow (cur g) (ap_y (cur g))) with (cur g); [done|].
    by destruct (cur g).
  - apply H3. lia.
Qed.

Lemma hardDrop_locks_on_ghost_row_witness :
  exists yg,
    ghostPieceY 30 Examples.overhang = Ok yg /\
    dropLoop 30 Examples.overhang
      = Ok (set_cur Examples.overhang (atRow (cur Examples.overhang) yg)) /\
    hardDrop Lcg.Shuffle 30 Examples.overhang =
      (do g2 <- lockPiece Lcg.Shuffle
                  (set_cur Examples.overhang (atRow (cur Examples.overhang) yg));
       Ok (set_dropFrameCounter g2 0)) /\
    ap_y (cur Examples.overhang) <= yg /\
    (forall y', ap_y (cur Examples.overhang) <= y' <= yg ->
       collides Examples.overhang (atRow (cur Examples.overhang) y') = Ok false) /\
    collides Examples.overhang (atRow (cur Examples.overhang) (yg + 1)) = Ok true.
Proof.
  apply (hardDrop_locks_on_ghost_row Lcg.Shuffle 30 Examples.overhang).
  - board_ok.
  - reflexivity.
  - vm_compute. split; congruence.
  - vm_compute. split; congruence.
  - vm_compute. lia.
Defined.

(** C3 fails as stated: under an overhang the row of the hard drop (and
    of the ghost) is not the greatest row on which the piece would be a
    placement that does not collide. Here the O piece stops on row 2,
    above the block at row 5, while row 17 would hold it too. *)
Lemma hardDrop_not_lowest_free_row_counterexample :
  collides Examples.overhang (cur Examples.overhang) = Ok false /\
  ghostPieceY 30 Examples.overhang = Ok 2 /\
  dropLoop 30 Examples.overhang
    = Ok (set_cur Examples.overhang (atRow (cur Examples.overhang) 2)) /\
  collides Examples.overhang (atRow (cur Examples.overhang) 17) = Ok false /\
  ~ (forall y', collides Examples.overhang (atRow (cur Examples.overhang) y')
                = Ok false -> y' <= 2).
Proof.
  split; [reflexivity|]. split; [reflexivity|]. split; [reflexivity|].
  split; [reflexivity|]. intros H. specialize (H 17 eq_refl). lia.
Qed.

(** ** The invariant of reachable states *)

Lemma cellsOnBoard_wf ap : cellsOnBoard ap -> wf_piece ap.
Proof. intros (cells & H & _). by eapply pieceCells_Ok_wf. Qed.

(** A placement near the board that does not collide lies on the board
    as soon as its anchor row is not negative. *)
Lemma free_placement_on_board {Rng} (g : Game Rng) ap :
  wf_board (board g) -> collides g ap = Ok false ->
  -100 <= ap_x ap <= 100 -> 0 <= ap_y ap <= 100 ->
  cellsOnBoard ap /\ -3 <= ap_x ap <= 9 /\ 0 <= ap_y ap <= 19.
Proof.
  intros Hb Hc Hx Hy.
  destruct (collides_false_cells g ap Hb Hc) as (Hwf & cells & Hcells & Hfree).
  destruct (pieceCells_wf ap Hwf) as (src & _ & Hlen & Hbox & Hmap).
  rewrite Hmap in Hcells. inversion Hcells; subst cells. clear Hcells.
  assert (Hadd : forall p, in_box p ->
            GoInt.add (ap_x ap) (p_x p) = ap_x ap + p_x p /\
            GoInt.add (ap_y ap) (p_y p) = ap_y ap + p_y p).
  { intros p [Hpx Hpy]. split; apply GoIntFacts.add_small;
      apply GoIntFacts.in_range_small; lia. }
  rewrite Forall_forall in Hbox, Hfree.
  split.
  - eexists. split; [exact Hmap|]. intros q Hq.
    specialize (Hfree q Hq) as (Hqx & Hqy & _).
    apply list_elem_of_fmap in Hq as (p & -> & Hp).
    destruct (Hadd p (Hbox p Hp)) as [Hax Hay]. cbn [p_x p_y] in *.
    destruct (Hbox p Hp) as [? ?]. rewrite Hay. rewrite Hay in Hqy. lia.
  - destruct src as [|p0 src]; [discriminate|].
    assert (Hp0 : p0 ∈ p0 :: src) by (by left).
    pose proof (Hbox p0 Hp0) as Hb0. destruct (Hadd p0 Hb0) as [Hax Hay].
    assert (Hq0 : Point (GoInt.add (ap_x ap) (p_x p0))
                        (GoInt.add (ap_y ap) (p_y p0))
                  ∈ map (fun p => Point (GoInt.add (ap_x ap) (p_x p))
                                        (GoInt.add (ap_y ap) (p_y p)))
                        (p0 :: src)) by (by left).
    specialize (Hfree _ Hq0) as (Hqx & Hqy & _). cbn [p_x p_y] in *.
    rewrite Hax in Hqx. rewrite Hay in Hqy. destruct Hb0 as [? ?].
    unfold boardW, boardH in *. lia.
Qed.

Lemma Inv_set_cur {Rng} (g : Game Rng) ap :
  Inv g -> collides g ap = Ok false ->
  -100 <= ap_x ap <= 100 -> 0 <= ap_y ap <= 100 ->
  Inv (set_cur g ap).
Proof.
  intros (Hb & _ & _ & _ & Hn & Hbag & _ & Hnf) Hc Hx Hy.
  destruct (free_placement_on_board g ap Hb Hc Hx Hy) as (H1 & H2 & H3).
  unfold Inv. cbn [board cur nextKind bag gameOver set_cur].
  split; [done|]. split; [done|]. split; [done|]. split; [done|].
  split; [done|]. split; [done|]. split; [|done]. intros _. exact Hc.
Qed.


Lemma tryMove_Inv {Rng} (g : Game Rng) dx dy :
  Inv g -> -1 <= dx <= 1 -> 0 <= dy <= 1 ->
  exists g' moved, tryMove g dx dy = Ok (g', moved) /\ Inv g' /\
    (moved = true -> ap_y (cur g') = ap_y (cur g) + dy).
Proof.
  intros HI Hdx Hdy. pose proof HI as (Hb & Hon & Hx & Hy & _).
  unfold tryMove.
  rewrite (GoIntFacts.add_small (ap_x (cur g)) dx)
    by (apply GoIntFacts.in_range_small; lia).
  rewrite (GoIntFacts.add_small (ap_y (cur g)) dy)
    by (apply GoIntFacts.in_range_small; lia).
  set (next := ActivePiece _ _ _ _).
  destruct (collides_total g next Hb) as (c & Hc).
  { apply cellsOnBoard_wf in Hon. exact Hon. }
  rewrite Hc. cbn [bind]. destruct c; cbn [negb].
  - exists g, false. split; [done|]. split; [done|]. discriminate.
  - exists (set_cur g next), true. split; [done|]. split; [|done].
    apply Inv_set_cur; try done; unfold next; cbn [ap_x ap_y]; lia.
Qed.

Lemma tryRotate_Inv {Rng} (g : Game Rng) dir :
  Inv g -> dir = 1 \/ dir = -1 ->
  exists g' turned, tryRotate g dir = Ok (g', turned) /\ Inv g'.
Proof.
  intros HI Hd. pose proof HI as (Hb & Hon & Hx & Hy & _).
  destruct (tryRotate_unfold g dir (cellsOnBoard_wf _ Hon) Hd)
    as (next & Hpn & Hnext & Hcand).
  { unfold GoInt.min_int, GoInt.max_int. lia. }
  rewrite Hnext.
  destruct (tryKicks_spec g next kicks Hb Hpn)
    as [(pre & ox & post & Heq & _ & Hox & Hres) | [_ Hres]].
  - assert (Hin : ox ∈ kicks).
    { rewrite Heq. apply elem_of_app. right. by left. }
    rewrite (Hcand ox Hin) in Hox, Hres.
    exists (set_cur g (rotated (cur g) dir ox)), true. split; [done|].
    apply kicks_small in Hin.
    apply Inv_set_cur; try done; unfold rotated; cbn [ap_x ap_y]; lia.
  - by exists g, false.
Qed.

Lemma clearLines_fields {Rng} (g : Game Rng) :
  wf_board (board g) ->
  exists g', clearLines g = Ok g' /\ wf_board (board g') /\
    cur g' = cur g /\ nextKind g' = nextKind g /\ bag g' = bag g /\
    rng g' = rng g /\ gameOver g' = gameOver g /\
    (forall r, r ∈ board g' -> rowFull r = false).
Proof.
  intros Hwf. destruct (cleared_rows _ Hwf) as [_ Hlen].
  pose proof (clearLines_eq g Hwf) as Heq. cbv zeta in Heq.
  eexists. split; [exact Heq|].
  assert (Hwf' : wf_board (replicate (Z.to_nat (clearedCount (board g))) emptyRow
                           ++ keptRows (board g))).
  { split; [exact Hlen|]. apply Forall_app. split.
    - apply Forall_replicate. unfold emptyRow. by rewrite length_replicate.
    - rewrite keptRows_spec. destruct Hwf as [_ Hrows].
      rewrite Forall_forall in *. intros r Hr.
      apply Hrows. by apply list_elem_of_filter in Hr as [_ Hr]. }
  assert (Hnf : forall r,
            r ∈ replicate (Z.to_nat (clearedCount (board g))) emptyRow
                ++ keptRows (board g) -> rowFull r = false).
  { intros r Hr. apply elem_of_app in Hr as [Hr | Hr].
    - apply elem_of_replicate in Hr as [-> _]. reflexivity.
    - rewrite keptRows_spec in Hr. by apply list_elem_of_filter in Hr as [Hr _]. }
  destruct (clearedCount (board g) >? 0);
    cbn [board cur nextKind bag rng gameOver set_board set_counters];
    (split; [exact Hwf' | by split_and!]).
Qed.

Lemma good_Ok {Rng} (r : result (Game Rng)) :
  good true r -> exists g, r = Ok g /\ Inv g.
Proof. destruct r; simpl; intros H; [by eexists | done | done]. Qed.

Lemma good_bind {Rng} s (m : result (Game Rng)) (k : Game Rng -> result (Game Rng)) :
  good s m -> (forall g, Inv g -> good s (k g)) -> good s (bind m k).
Proof. destruct m; simpl; auto. Qed.


Lemma spawn_cells_on_board k :
  0 <= k < 7 -> cellsOnBoard (ActivePiece k 0 3 0).
Proof.
  intros Hk.
  destruct (pieceCells_wf (ActivePiece k 0 3 0)) as (src & _ & _ & Hbox & Hmap).
  { split; simpl; lia. }
  eexists. split; [exact Hmap|]. intros q Hq.
  apply list_elem_of_fmap in Hq as (p & -> & Hp).
  rewrite Forall_forall in Hbox. destruct (Hbox p Hp) as [Hpx Hpy].
  cbn [p_x p_y ap_x ap_y].
  rewrite (GoIntFacts.add_small 3 (p_x p))
    by (apply GoIntFacts.in_range_small; lia).
  rewrite (GoIntFacts.add_small 0 (p_y p))
    by (apply GoIntFacts.in_range_small; lia).
  unfold boardW, boardH. lia.
Qed.

Section Invariant.

Context {Rng : Type}.
Variable Shuffle : Rng -> Z -> list (Z * Z) * Rng.
Hypothesis Shuffle_ok : Shuffle_in_bounds Shuffle.

Lemma popBag_range (g : Game Rng) :
  (forall k, k ∈ bag g -> 0 <= k < 7) ->
  exists v rest r, popBag Shuffle g = Ok (v, set_bag g rest r) /\
    0 <= v < 7 /\ (forall k, k ∈ rest -> 0 <= k < 7).
Proof.
  intros Hbag. destruct (bag g) as [|v rest] eqn:E.
  - destruct (popBag_refill Shuffle Shuffle_ok g E) as (v & rest & r & H & Hp).
    exists v, rest, r. split; [done|].
    assert (Hall : forall k, k ∈ v :: rest -> 0 <= k < 7).
    { intros k Hk. rewrite Hp in Hk. unfold freshBag in Hk.
      repeat (apply elem_of_cons in Hk as [-> | Hk]; [lia|]).
      by apply elem_of_nil in Hk. }
    split; [apply Hall; by left|]. intros k Hk. apply Hall. by right.
  - exists v, rest, (rng g). split; [by apply popBag_nonempty|].
    split; [apply Hbag; by left|]. intros k Hk. apply Hbag. by right.
Qed.

Lemma spawn_Inv (g : Game Rng) :
  wf_board (board g) -> 0 <= nextKind g < 7 ->
  (forall k, k ∈ bag g -> 0 <= k < 7) ->
  (forall r, r ∈ board g -> rowFull r = false) ->
  exists g', spawn Shuffle g = Ok g' /\ Inv g'.
Proof.
  intros Hb Hn Hbag Hnf. unfold spawn.
  set (ap := ActivePiece (nextKind g) 0 3 0).
  destruct (popBag_range (set_cur g ap) Hbag) as (v & rest & r & Hpop & Hv & Hrest).
  rewrite Hpop. cbn [bind].
  set (g3 := set_nextKind (set_bag (set_cur g ap) rest r) v).
  pose proof (spawn_cells_on_board (nextKind g) Hn) as Hon. fold ap in Hon.
  destruct (collides_total g3 ap Hb (cellsOnBoard_wf _ Hon)) as (c & Hc).
  change (cur g3) with ap. rewrite Hc. cbn [bind].
  assert (HI : forall over, (over = false -> c = false) ->
            Inv (MkGame (board g) ap v rest r (score g) (lines g) (level g)
                        (dropFrameCounter g) over)).
  { intros over Hover. unfold Inv.
    cbn [board cur nextKind bag gameOver ap_x ap_y]. unfold ap at 2 3.
    cbn [ap_x ap_y]. split_and!; try done; try lia.
    intros Hf. rewrite (Hover Hf) in Hc. exact Hc. }
  destruct c.
  - eexists. split; [reflexivity|]. apply (HI true). discriminate.
  - eexists. split; [reflexivity|]. apply (HI (gameOver g)). done.
Qed.

Lemma lockPiece_Inv (g : Game Rng) :
  Inv g -> exists g', lockPiece Shuffle g = Ok g' /\ Inv g'.
Proof.
  intros (Hb & (cells & Hcells & Hon) & _ & _ & Hn & Hbag & _).
  unfold lockPiece. rewrite Hcells. cbn [bind].
  apply pieceCells_Ok_wf in Hcells as Hwf. destruct Hwf as [Hk _].
  rewrite (GoIntFacts.add_small (ap_kind (cur g)) 1)
    by (apply GoIntFacts.in_range_small; lia).
  destruct (placeCells_spec (board g) cells (ap_kind (cur g) + 1) Hb)
    as (b & ov & Hp & Hwfb & Hov & _).
  { intros p Hp. specialize (Hon p Hp). lia. }
  rewrite Hp. cbn [bind].
  destruct ov.
  { destruct Hov as [Hov _]. destruct (Hov eq_refl) as (p & Hp' & Hneg).
    specialize (Hon p Hp'). lia. }
  destruct (clearLines_fields (set_board g b) Hwfb)
    as (g2 & H2 & Hwf2 & _ & Hn2 & Hbag2 & _ & _ & Hnf2).
  rewrite H2. cbn [bind]. apply spawn_Inv.
  - exact Hwf2.
  - rewrite Hn2. exact Hn.
  - rewrite Hbag2. exact Hbag.
  - exact Hnf2.
Qed.

Lemma dropLoop_good s (fuel : nat) (g : Game Rng) :
  Inv g ->
  (s = true -> (Z.to_nat (boardH - ap_y (cur g)) < fuel)%nat) ->
  good s (dropLoop fuel g).
Proof.
  revert g. induction fuel as [|fuel IH]; intros g HI Hfuel.
  - simpl. destruct s; [|done]. specialize (Hfuel eq_refl). lia.
  - cbn [dropLoop].
    destruct (tryMove_Inv g 0 1 HI) as (g1 & moved & H1 & HI1 & Hy); [lia..|].
    rewrite H1. cbn [bind]. destruct moved; [|exact HI1].
    apply IH; [exact HI1|]. intros Hs. specialize (Hfuel Hs).
    rewrite (Hy eq_refl). destruct HI1 as (_ & _ & _ & Hy1 & _).
    rewrite (Hy eq_refl) in Hy1. unfold boardH in *. lia.
Qed.

Lemma lockPiece_good s (g : Game Rng) : Inv g -> good s (lockPiece Shuffle g).
Proof.
  intros HI. destruct (lockPiece_Inv g HI) as (g' & -> & HI'). exact HI'.
Qed.

Lemma hardDrop_good s (fuel : nat) (g : Game Rng) :
  Inv g -> (s = true -> (Z.to_nat boardH < fuel)%nat) ->
  good s (hardDrop Shuffle fuel g).
Proof.
  intros HI Hfuel. unfold hardDrop. apply good_bind.
  - apply dropLoop_good; [exact HI|]. intros Hs. specialize (Hfuel Hs).
    destruct HI as (_ & _ & _ & Hy & _). unfold boardH in *. lia.
  - intros g1 HI1. apply good_bind; [by apply lockPiece_good|].
    intros g2 HI2. exact HI2.
Qed.

Lemma move_good s dx dy (g : Game Rng) :
  Inv g -> -1 <= dx <= 1 -> 0 <= dy <= 1 -> good s (move_ dx dy g).
Proof.
  intros HI Hdx Hdy. unfold move_.
  destruct (tryMove_Inv g dx dy HI Hdx Hdy) as (g1 & moved & -> & HI1 & _).
  exact HI1.
Qed.

Lemma rotate_good s dir (g : Game Rng) :
  Inv g -> dir = 1 \/ dir = -1 -> good s (rotate_ dir g).
Proof.
  intros HI Hd. unfold rotate_.
  destruct (tryRotate_Inv g dir HI Hd) as (g1 & turned & -> & HI1).
  exact HI1.
Qed.

Lemma when_good s (b : bool) f (g : Game Rng) :
  Inv g -> (forall g0, Inv g0 -> good s (f g0)) -> good s (when b f g).
Proof. intros HI Hf. destruct b; simpl; auto. Qed.

Lemma fallOrLock_good s (g : Game Rng) : Inv g -> good s (fallOrLock Shuffle g).
Proof.
  intros HI. unfold fallOrLock.
  destruct (tryMove_Inv g 0 1 HI) as (g1 & moved & -> & HI1 & _); [lia..|].
  cbn [bind]. destruct moved; cbn [negb bind]; [exact HI1|].
  apply good_bind; [by apply lockPiece_good|]. intros g2 HI2. exact HI2.
Qed.

Lemma gravity_good s softDrop (g : Game Rng) :
  Inv g -> good s (gravity Shuffle softDrop g).
Proof.
  intros HI. unfold gravity.
  set (g1 := set_dropFrameCounter g _).
  assert (HI1 : Inv g1) by exact HI.
  destruct softDrop; [by apply fallOrLock_good|].
  destruct (dropFrameCounter g1 >=? gravityFrames (level g1));
    [by apply fallOrLock_good | exact HI1].
Qed.

Lemma NewGame_Inv (r : Rng) : exists g, NewGame Shuffle r = Ok g /\ Inv g.
Proof.
  unfold NewGame.
  set (g := MkGame emptyBoard (ActivePiece 0 0 0 0) 0 [] r 0 0 0 0 false).
  destruct (popBag_range g) as (v & rest & r' & Hpop & Hv & Hrest).
  { intros k Hk. by apply elem_of_nil in Hk. }
  rewrite Hpop. cbn [bind]. apply spawn_Inv; cbn; try done.
  - board_ok.
  - intros row Hrow. apply elem_of_replicate in Hrow as [-> _]. reflexivity.
Qed.

Lemma Update_good s (fuel : nat) (g : Game Rng) (i : input Rng) :
  Inv g -> (s = true -> (Z.to_nat boardH < fuel)%nat) ->
  good s (Update Shuffle fuel g i).
Proof.
  intros HI Hfuel. unfold Update. destruct (gameOver g).
  { destruct (restartPressed i); [|exact HI]. unfold Reset.
    destruct (NewGame_Inv (seed i)) as (g' & -> & HI'). exact HI'. }
  apply good_bind.
  { apply when_good; [exact HI|]. intros; apply move_good; [done | lia..]. }
  intros g1 HI1. apply good_bind.
  { apply when_good; [exact HI1|]. intros; apply move_good; [done | lia..]. }
  intros g2 HI2. apply good_bind.
  { apply when_good; [exact HI2|]. intros; apply rotate_good; [done | by right]. }
  intros g3 HI3. apply good_bind.
  { apply when_good; [exact HI3|]. intros; apply rotate_good; [done | by left]. }
  intros g4 HI4. apply good_bind.
  { apply when_good; [exact HI4|]. intros; by apply hardDrop_good. }
  intros g5 HI5. cbv zeta. destruct (mobile i); [|by apply gravity_good].
  apply good_bind.
  { apply when_good; [exact HI5|]. intros; apply move_good; [done | lia..]. }
  intros g6 HI6. apply good_bind.
  { apply when_good; [exact HI6|]. intros; apply move_good; [done | lia..]. }
  intros g7 HI7. apply good_bind.
  { apply when_good; [exact HI7|]. intros; apply rotate_good; [done | by left]. }
  intros g8 HI8. apply good_bind.
  { apply when_good; [exact HI8|]. intros; by apply hardDrop_good. }
  intros g9 HI9. by apply gravity_good.
Qed.

Lemma good_false_Ok (r : result (Game Rng)) g :
  good false r -> r = Ok g -> Inv g.
Proof. intros H ->. exact H. Qed.

(** Every reachable state satisfies the invariant; in particular its
    board has no full row, so a lock always writes onto such a board. *)
Lemma reachable_Inv (g : Game Rng) : reachable Shuffle g -> Inv g.
Proof.
  induction 1 as [r g H | fuel g i g' _ IH H | g dx dy g' moved _ IH Hdx Hdy H
                 | g dir g' turned _ IH Hd H | fuel g g' _ IH H
                 | g g' _ IH H | g c _ IH].
  - destruct (NewGame_Inv r) as (g' & Hg' & HI). congruence.
  - eapply good_false_Ok; [|exact H]. by apply Update_good.
  - destruct (tryMove_Inv g dx dy IH Hdx Hdy) as (g1 & m1 & H1 & HI1 & _).
    congruence.
  - destruct (tryRotate_Inv g dir IH Hd) as (g1 & t1 & H1 & HI1). congruence.
  - eapply good_false_Ok; [|exact H]. by apply hardDrop_good.
  - destruct (lockPiece_Inv g IH) as (g1 & H1 & HI1). congruence.
  - exact IH.
Qed.

End Invariant.

Lemma writtenCells_all cells :
  (forall p, p ∈ cells -> 0 <= p_y p) -> writtenCells cells = cells.
Proof.
  induction cells as [|p rest IH]; intros H; [done|].
  cbn [writtenCells]. destruct (Z.ltb_spec (p_y p) 0) as [Hneg|_].
  - specialize (H p ltac:(by left)). lia.
  - f_equal. apply IH. intros q Hq. apply H. by right.
Qed.

(** C10. In every state reachable from a new game, between or inside
    calls of [Update], the active piece does not collide unless the game
    is over; the cells [lockPiece] writes there are all the cells of the
    piece and each has 0 <= x < W and 0 <= y < H; [lockPiece] returns a
    state, and so does [Update] for every input (given the fuel for the
    drop loop): no index leaves its array. *)
Theorem lockPiece_writes_stay_on_board {Rng}
    (Shuffle : Rng -> Z -> list (Z * Z) * Rng) (g : Game Rng) :
  Shuffle_in_bounds Shuffle ->
  reachable Shuffle g ->
  (gameOver g = false -> collides g (cur g) = Ok false) /\
  (exists cells,
     pieceCells (cur g) = Ok cells /\ writtenCells cells = cells /\
     forall p, p ∈ cells -> 0 <= p_x p < boardW /\ 0 <= p_y p < boardH) /\
  (exists g', lockPiece Shuffle g = Ok g') /\
  (forall fuel i, (Z.to_nat boardH < fuel)%nat ->
     exists g', Update Shuffle fuel g i = Ok g').
Proof.
  intros Hok Hreach. pose proof (reachable_Inv Shuffle Hok g Hreach) as HI.
  pose proof HI as (_ & (cells & Hcells & Hon) & _ & _ & _ & _ & Hvalid & _).
  split; [exact Hvalid|]. split; [|split].
  - exists cells. split; [exact Hcells|]. split; [|exact Hon].
    apply writtenCells_all. intros p Hp. specialize (Hon p Hp). lia.
  - destruct (lockPiece_Inv Shuffle Hok g HI) as (g' & Hg' & _). by exists g'.
  - intros fuel i Hfuel.
    destruct (good_Ok (Update Shuffle fuel g i)) as (g' & Hg' & _).
    + apply Update_good; done.
    + by exists g'.
Qed.

Lemma lockPiece_writes_stay_on_board_witness :
  (gameOver Examples.started = false ->
   collides Examples.started (cur Examples.started) = Ok false) /\
  (exists cells,
     pieceCells (cur Examples.started) = Ok cells /\ writtenCells cells = cells /\
     forall p, p ∈ cells -> 0 <= p_x p < boardW /\ 0 <= p_y p < boardH) /\
  (exists g', lockPiece Lcg.Shuffle Examples.started = Ok g') /\
  (forall fuel i, (Z.to_nat boardH < fuel)%nat ->
     exists g', Update Lcg.Shuffle fuel Examples.started i = Ok g').
Proof.
  apply (lockPiece_writes_stay_on_board Lcg.Shuffle Examples.started).
  - exact Lcg_in_bounds.
  - apply (reach_new Lcg.Shuffle 42). vm_compute. reflexivity.
Defined.

(** The board a lock writes onto never has a full row. *)
Lemma reachable_board_has_no_full_row {Rng}
    (Shuffle : Rng -> Z -> list (Z * Z) * Rng) (g : Game Rng) :
  Shuffle_in_bounds Shuffle -> reachable Shuffle g ->
  forall r, r ∈ board g -> rowFull r = false.
Proof.
  intros Hok Hreach. by destruct (reachable_Inv Shuffle Hok g Hreach) as (_&_&_&_&_&_&_&H).
Qed.

(** ** Rows cleared by one lock *)

(** C6. On a board of the right dimensions [clearLines] drops exactly the
    rows whose cells are all nonzero, keeps the other rows in their order
    below as many empty rows as were dropped, so that the board has H
    rows again, and the number it counts (and adds to the line count) is
    the number of rows dropped; on a board obtained by locking one piece
    onto a board without full rows, as every reachable board is, that
    number is between 0 and 4. *)
Theorem clearLines_drops_full_rows {Rng}
    (Shuffle : Rng -> Z -> list (Z * Z) * Rng) (g : Game Rng) :
  wf_board (board g) ->
  exists g', clearLines g = Ok g' /\
    (forall r, rowFull r = true <-> Forall (fun c => c <> 0) r) /\
    clearedCount (board g)
      = Z.of_nat (length (filter (fun r => rowFull r = true) (board g))) /\
    board g' = replicate (Z.to_nat (clearedCount (board g))) emptyRow
               ++ filter (fun r => rowFull r = false) (board g) /\
    length (board g') = Z.to_nat boardH /\
    wf_board (board g') /\
    lines g' = (if clearedCount (board g) >? 0
                then GoInt.add (lines g) (clearedCount (board g))
                else lines g) /\
    (forall b0 ap cells ov,
       (forall r, r ∈ b0 -> rowFull r = false) ->
       pieceCells ap = Ok cells ->
       placeCells b0 cells (ap_kind ap + 1) = Ok (board g, ov) ->
       0 <= clearedCount (board g) <= 4) /\
    (forall g0 cells ov,
       Shuffle_in_bounds Shuffle -> reachable Shuffle g0 ->
       pieceCells (cur g0) = Ok cells ->
       placeCells (board g0) cells (ap_kind (cur g0) + 1) = Ok (board g, ov) ->
       0 <= clearedCount (board g) <= 4).
Proof.
  intros Hwf. destruct (cleared_rows _ Hwf) as [_ Hlen].
  pose proof (clearLines_eq g Hwf) as Heq. cbv zeta in Heq.
  assert (Hfour : forall b0 ap cells ov,
            (forall r, r ∈ b0 -> rowFull r = false) ->
            pieceCells ap = Ok cells ->
            placeCells b0 cells (ap_kind ap + 1) = Ok (board g, ov) ->
            0 <= clearedCount (board g) <= 4).
  { intros b0 ap cells ov Hnone Hcells Hplace.
    split; [apply clearedCount_bounds|].
    apply placeCells_count in Hplace.
    destruct (no_full_row_scan _ Hnone) as [H0 _].
    destruct (pieceCells_wf ap (pieceCells_Ok_wf _ _ Hcells))
      as (src & _ & Hl & _ & Hc).
    rewrite Hc in Hcells. inversion Hcells; subst cells.
    rewrite length_map, Hl in Hplace. lia. }
  assert (Hboard : forall g', clearLines g = Ok g' ->
            board g' = replicate (Z.to_nat (clearedCount (board g))) emptyRow
                       ++ keptRows (board g) /\
            lines g' = (if clearedCount (board g) >? 0
                        then GoInt.add (lines g) (clearedCount (board g))
                        else lines g)).
  { intros g' Hg'. rewrite Heq in Hg'. inversion Hg'.
    by destruct (clearedCount (board g) >? 0). }
  eexists. split; [exact Heq|]. destruct (Hboard _ Heq) as [-> Hlines].
  split; [exact rowFull_spec|]. split; [apply clearedCount_spec|].
  split; [by rewrite keptRows_spec|]. split; [exact Hlen|].
  split; [|split; [|split]].
  - split; [exact Hlen|]. apply Forall_app. split.
    + apply Forall_replicate. unfold emptyRow. by rewrite length_replicate.
    + rewrite keptRows_spec. destruct Hwf as [_ Hrows].
      rewrite Forall_forall in *. intros r Hr.
      apply Hrows. by apply list_elem_of_filter in Hr as [_ Hr].
  - exact Hlines.
  - exact Hfour.
  - intros g0 cells ov Hok Hreach Hcells Hplace.
    apply (Hfour (board g0) (cur g0) cells ov); [|done..].
    by apply (reachable_board_has_no_full_row Shuffle).
Qed.

Lemma clearLines_drops_full_rows_witness :
  exists g', clearLines Examples.nineLines = Ok g' /\
    (forall r, rowFull r = true <-> Forall (fun c => c <> 0) r) /\
    clearedCount (board Examples.nineLines)
      = Z.of_nat (length (filter (fun r => rowFull r = true)
                                 (board Examples.nineLines))) /\
    board g' = replicate (Z.to_nat (clearedCount (board Examples.nineLines)))
                         emptyRow
               ++ filter (fun r => rowFull r = false) (board Examples.nineLines) /\
    length (board g') = Z.to_nat boardH /\
    wf_board (board g') /\
    lines g' = (if clearedCount (board Examples.nineLines) >? 0
                then GoInt.add (lines Examples.nineLines)
                       (clearedCount (board Examples.nineLines))
                else lines Examples.nineLines) /\
    (forall b0 ap cells ov,
       (forall r, r ∈ b0 -> rowFull r = false) ->
       pieceCells ap = Ok cells ->
       placeCells b0 cells (ap_kind ap + 1) = Ok (board Examples.nineLines, ov) ->
       0 <= clearedCount (board Examples.nineLines) <= 4) /\
    (forall g0 cells ov,
       Shuffle_in_bounds Lcg.Shuffle -> reachable Lcg.Shuffle g0 ->
       pieceCells (cur g0) = Ok cells ->
       placeCells (board g0) cells (ap_kind (cur g0) + 1)
       = Ok (board Examples.nineLines, ov) ->
       0 <= clearedCount (board Examples.nineLines) <= 4).
Proof.
  apply (clearLines_drops_full_rows Lcg.Shuffle Examples.nineLines). board_ok.
Defined.

(** * Further properties of the code *)

(** ** Gravity interval *)

Lemma sub_exact a b : GoInt.in_range (a - b) -> GoInt.sub a b = a - b.
Proof. apply GoIntFacts.wrap_small. Qed.

Lemma gravityFrames_min (level : Z) : 2 <= gravityFrames level.
Proof.
  unfold gravityFrames. cbv zeta.
  destruct (Z.ltb_spec (GoInt.sub 30 (GoInt.mul level 2)) 2); lia.
Qed.

Lemma gravityFrames_value (level : Z) :
  0 <= level <= 1000000000 ->
  gravityFrames level = Z.max 2 (30 - 2 * level).
Proof.
  intros H. unfold gravityFrames. cbv zeta.
  rewrite (GoIntFacts.mul_small level 2)
    by (unfold GoInt.in_range, GoInt.min_int, GoInt.max_int; lia).
  rewrite (sub_exact 30 (level * 2))
    by (unfold GoInt.in_range, GoInt.min_int, GoInt.max_int; lia).
  destruct (Z.ltb_spec (30 - level * 2) 2); lia.
Qed.

(** X1. [gravityFrames] is 30 - 2 * level cut off below at 2: between 2
    and 30 for a level that is not negative, never longer at a higher
    level, and 2 from level 14 on. *)
Theorem gravityFrames_speeds_up (l1 l2 : Z) :
  0 <= l1 <= l2 -> l2 <= 1000000000 ->
  gravityFrames l1 = Z.max 2 (30 - 2 * l1) /\
  2 <= gravityFrames l2 <= gravityFrames l1 /\
  gravityFrames l1 <= 30 /\
  (14 <= l1 -> gravityFrames l1 = 2).
Proof.
  intros H1 H2.
  rewrite (gravityFrames_value l1) by lia.
  rewrite (gravityFrames_value l2) by lia. lia.
Qed.

Lemma gravityFrames_speeds_up_witness :
  gravityFrames 3 = Z.max 2 (30 - 2 * 3) /\
  2 <= gravityFrames 20 <= gravityFrames 3 /\
  gravityFrames 3 <= 30 /\
  (14 <= 3 -> gravityFrames 3 = 2).
Proof. apply (gravityFrames_speeds_up 3 20); lia. Defined.

(** ** The cells of a piece *)

Lemma index_not_OutOfFuel {A} (l : list A) i : index l i <> OutOfFuel.
Proof.
  unfold index. destruct (i <? 0); [discriminate|].
  destruct (l !! Z.to_nat i); discriminate.
Qed.

Lemma shapeOf_not_OutOfFuel kind rot : shapeOf kind rot <> OutOfFuel.
Proof.
  unfold shapeOf. destruct (index pieceShapes kind) as [rots| |] eqn:E; cbn [bind].
  - apply index_not_OutOfFuel.
  - discriminate.
  - by apply index_not_OutOfFuel in E.
Qed.

Lemma shapeOf_NoDup kind rot src : shapeOf kind rot = Ok src -> NoDup src.
Proof.
  intros H. destruct (shapeOf_Ok_wf _ _ _ H) as [Hk Hr].
  assert (Hk' : kind = 0 \/ kind = 1 \/ kind = 2 \/ kind = 3 \/ kind = 4
                \/ kind = 5 \/ kind = 6) by lia.
  assert (Hr' : rot = 0 \/ rot = 1 \/ rot = 2 \/ rot = 3) by lia.
  destruct Hk' as [->|[->|[->|[->|[->|[->| ->]]]]]];
    destruct Hr' as [->|[->|[->| ->]]];
    vm_compute in H; inversion H; subst src;
    apply (bool_decide_unpack _); vm_compute; reflexivity.
Qed.

(** X2. [pieceCells] of a piece of the catalog (kind 0..6, rotation
    0..3) is four pairwise distinct cells inside the 4x4 box at the
    anchor; for any other kind or rotation the table lookup panics. *)
Theorem pieceCells_four_distinct_cells (ap : activePiece) :
  GoInt.min_int <= ap_x ap <= GoInt.max_int - 3 ->
  GoInt.min_int <= ap_y ap <= GoInt.max_int - 3 ->
  (wf_piece ap ->
   exists cells,
     pieceCells ap = Ok cells /\ length cells = 4%nat /\ NoDup cells /\
     forall p, p ∈ cells ->
       ap_x ap <= p_x p <= ap_x ap + 3 /\ ap_y ap <= p_y p <= ap_y ap + 3) /\
  (~ wf_piece ap -> pieceCells ap = Panic).
Proof.
  intros Hx Hy. split.
  - intros Hwf. destruct (pieceCells_wf ap Hwf) as (src & Hs & Hlen & Hbox & Hmap).
    rewrite Forall_forall in Hbox.
    assert (Hadd : forall p, p ∈ src ->
              GoInt.add (ap_x ap) (p_x p) = ap_x ap + p_x p /\
              GoInt.add (ap_y ap) (p_y p) = ap_y ap + p_y p).
    { intros p Hp. destruct (Hbox p Hp) as [Hpx Hpy].
      split; apply GoIntFacts.add_small; unfold GoInt.in_range; lia. }
    eexists. split; [exact Hmap|]. split; [by rewrite length_map|]. split.
    + apply NoDup_fmap_2_strong; [|by eapply shapeOf_NoDup].
      intros p q Hp Hq Heq.
      destruct (Hadd p Hp) as [Hp1 Hp2]. destruct (Hadd q Hq) as [Hq1 Hq2].
      rewrite Hp1, Hp2, Hq1, Hq2 in Heq. injection Heq as H1 H2.
      clear - H1 H2. destruct p as [a b], q as [c d]. cbn [p_x p_y] in *.
      f_equal; lia.
    + intros q Hq. apply list_elem_of_fmap in Hq as (p & -> & Hp).
      destruct (Hadd p Hp) as [-> ->]. destruct (Hbox p Hp). cbn [p_x p_y]. lia.
  - intros Hn. unfold pieceCells.
    destruct (shapeOf (ap_kind ap) (ap_rot ap)) as [src| |] eqn:E; cbn [bind].
    + exfalso. apply Hn. by apply shapeOf_Ok_wf in E.
    + reflexivity.
    + by apply shapeOf_not_OutOfFuel in E.
Qed.

Lemma pieceCells_four_distinct_cells_witness :
  (wf_piece (ActivePiece 2 1 3 0) ->
   exists cells,
     pieceCells (ActivePiece 2 1 3 0) = Ok cells /\ length cells = 4%nat /\
     NoDup cells /\
     forall p, p ∈ cells -> 3 <= p_x p <= 3 + 3 /\ 0 <= p_y p <= 0 + 3) /\
  (~ wf_piece (ActivePiece 2 1 3 0) -> pieceCells (ActivePiece 2 1 3 0) = Panic).
Proof.
  apply (pieceCells_four_distinct_cells (ActivePiece 2 1 3 0));
    unfold GoInt.min_int, GoInt.max_int; simpl; lia.
Defined.

(** ** What the operations leave alone *)

Lemma set_cur_cur {Rng} (g : Game Rng) : set_cur g (cur g) = g.
Proof. by destruct g. Qed.

Lemma tryMove_frame {Rng} (g g' : Game Rng) dx dy moved :
  tryMove g dx dy = Ok (g', moved) ->
  g' = set_cur g (cur g') /\ (moved = false -> g' = g) /\
  (moved = true -> collides g (cur g') = Ok false).
Proof.
  unfold tryMove. intros H. apply bind_Ok in H as (c & Hc & H).
  destruct c; cbn [negb] in H; inversion H; subst.
  - split; [by rewrite set_cur_cur|]. split; [done | discriminate].
  - split; [done|]. split; [discriminate | by intros _].
Qed.

Lemma tryKicks_frame {Rng} (g g' : Game Rng) next oxs turned :
  tryKicks g next oxs = Ok (g', turned) ->
  g' = set_cur g (cur g') /\ (turned = false -> g' = g) /\
  (turned = true ->
   collides g (cur g') = Ok false /\
   exists ox, ox ∈ oxs /\
     cur g' = ActivePiece (ap_kind next) (ap_rot next)
                          (GoInt.add (ap_x next) ox) (ap_y next)).
Proof.
  induction oxs as [|ox rest IH]; cbn [tryKicks]; intros H.
  - inversion H; subst. split; [by rewrite set_cur_cur|].
    split; [done | discriminate].
  - apply bind_Ok in H as (c & Hc & H). destruct c; cbn [negb] in H.
    + destruct (IH H) as (H1 & H2 & H3). split; [done|]. split; [done|].
      intros Ht. destruct (H3 Ht) as (H4 & ox' & Hox' & H5).
      split; [done|]. exists ox'. split; [by right | done].
    + inversion H; subst. split; [done|]. split; [discriminate|].
      intros _. split; [done|]. exists ox. split; [by left | done].
Qed.

Lemma dropLoop_frame {Rng} fuel (g g' : Game Rng) :
  dropLoop fuel g = Ok g' -> g' = set_cur g (cur g').
Proof.
  revert g. induction fuel as [|fuel IH]; intros g H; [discriminate|].
  cbn [dropLoop] in H. apply bind_Ok in H as ([g1 moved] & H1 & H).
  apply tryMove_frame in H1 as (H1 & _). destruct moved.
  - apply IH in H. rewrite H. rewrite H1 at 1. reflexivity.
  - by inversion H; subst.
Qed.

Lemma clearLines_frame {Rng} (g g' : Game Rng) :
  clearLines g = Ok g' ->
  cur g' = cur g /\ nextKind g' = nextKind g /\ bag g' = bag g /\
  rng g' = rng g /\ dropFrameCounter g' = dropFrameCounter g /\
  gameOver g' = gameOver g.
Proof.
  unfold clearLines. destruct (scanRows (board g) [] 0) as [kept cleared].
  generalize (take (Z.to_nat boardH) (padRows (Z.to_nat boardH) kept)) as b.
  intros b. cbv zeta.
  destruct (cleared >? 0); [|intros H; injection H as <-; by split_and!].
  destruct ((cleared >=? 0) && (cleared <=? 4)).
  - intros H. apply bind_Ok in H as (pts & _ & H).
    injection H as <-. by split_and!.
  - intros H. injection H as <-. by split_and!.
Qed.

Lemma popBag_frame {Rng} (Shuffle : Rng -> Z -> list (Z * Z) * Rng)
    (g g' : Game Rng) v :
  popBag Shuffle g = Ok (v, g') -> g' = set_bag g (bag g') (rng g').
Proof.
  unfold popBag. intros H. apply bind_Ok in H as (g1 & H1 & H).
  assert (Hg1 : g1 = set_bag g (bag g1) (rng g1)).
  { destruct (length (bag g) =? 0)%nat.
    - destruct (Shuffle (rng g) (Z.of_nat (length freshBag))) as [swaps r].
      apply bind_Ok in H1 as (l & _ & H1). by inversion H1.
    - inversion H1; subst. by destruct g1. }
  destruct (bag g1) as [|v' rest] eqn:E; [discriminate|].
  inversion H; subst. rewrite Hg1. reflexivity.
Qed.

Lemma spawn_frame {Rng} (Shuffle : Rng -> Z -> list (Z * Z) * Rng)
    (g g' : Game Rng) :
  spawn Shuffle g = Ok g' ->
  board g' = board g /\ cur g' = ActivePiece (nextKind g) 0 3 0 /\
  score g' = score g /\ lines g' = lines g /\ level g' = level g /\
  dropFrameCounter g' = dropFrameCounter g /\
  (gameOver g = true -> gameOver g' = true) /\
  (gameOver g' = false -> collides g' (cur g') = Ok false) /\
  popBag Shuffle g
  = Ok (nextKind g', set_bag g (bag g') (rng g')).
Proof.
  unfold spawn. intros H. apply bind_Ok in H as ([v g2] & Hpop & H).
  apply bind_Ok in H as (c & Hc & H).
  apply popBag_frame in Hpop as Hg2. cbn [cur set_cur set_nextKind] in *.
  assert (Hpop' : popBag Shuffle g = Ok (v, set_bag g (bag g2) (rng g2))).
  { revert Hpop. unfold popBag. cbn [bag rng set_cur].
    destruct (length (bag g) =? 0)%nat.
    - destruct (Shuffle (rng g) (Z.of_nat (length freshBag))) as [swaps r].
      destruct (applySwaps swaps freshBag) as [l| |]; cbn [bind]; try discriminate.
      cbn [bag set_bag rng]. destruct l; [discriminate|].
      intros E; inversion E; subst. reflexivity.
    - cbn [bind bag set_cur]. destruct (bag g); [discriminate|].
      intros E; inversion E; subst. reflexivity. }
  rewrite Hg2 in H, Hc. cbn in Hc.
  destruct c; inversion H; subst g'; cbn;
    (split_and!; try done; try discriminate).
Qed.

Lemma lockPiece_keeps_flag {Rng} (Shuffle : Rng -> Z -> list (Z * Z) * Rng)
    (g g' : Game Rng) :
  lockPiece Shuffle g = Ok g' -> gameOver g = true -> gameOver g' = true.
Proof.
  unfold lockPiece. intros H Hover.
  apply bind_Ok in H as (cells & _ & H).
  apply bind_Ok in H as ([b ov] & _ & H). destruct ov.
  - by injection H as <-.
  - apply bind_Ok in H as (g2 & H2 & H).
    apply clearLines_frame in H2 as (_ & _ & _ & _ & _ & Hflag).
    apply spawn_frame in H as (_ & _ & _ & _ & _ & _ & Hkeep & _).
    apply Hkeep. by rewrite Hflag.
Qed.

Lemma tryMove_keeps_flag {Rng} (g g' : Game Rng) dx dy moved :
  tryMove g dx dy = Ok (g', moved) -> gameOver g' = gameOver g.
Proof. intros H. apply tryMove_frame in H as (-> & _). reflexivity. Qed.

Lemma tryRotate_keeps_flag {Rng} (g g' : Game Rng) dir turned :
  tryRotate g dir = Ok (g', turned) -> gameOver g' = gameOver g.
Proof.
  unfold tryRotate. intros H. apply tryKicks_frame in H as (-> & _). reflexivity.
Qed.

Lemma hardDrop_keeps_flag {Rng} (Shuffle : Rng -> Z -> list (Z * Z) * Rng)
    fuel (g g' : Game Rng) :
  hardDrop Shuffle fuel g = Ok g' -> gameOver g = true -> gameOver g' = true.
Proof.
  unfold hardDrop. intros H Hover. apply bind_Ok in H as (g1 & H1 & H).
  apply bind_Ok in H as (g2 & H2 & H). injection H as <-.
  apply dropLoop_frame in H1. cbn [gameOver set_dropFrameCounter].
  apply (lockPiece_keeps_flag Shuffle g1 g2 H2). rewrite H1. exact Hover.
Qed.

Lemma gravity_keeps_flag {Rng} (Shuffle : Rng -> Z -> list (Z * Z) * Rng)
    softDrop (g g' : Game Rng) :
  gravity Shuffle softDrop g = Ok g' -> gameOver g = true -> gameOver g' = true.
Proof.
  intros H Hover.
  assert (Hfall : forall g0 : Game Rng, gameOver g0 = true ->
            fallOrLock Shuffle g0 = Ok g' -> gameOver g' = true).
  { intros g0 H0 Hf. unfold fallOrLock in Hf.
    apply bind_Ok in Hf as ([g1 moved] & H1 & Hf).
    apply bind_Ok in Hf as (g2 & H2 & Hf). injection Hf as <-.
    apply tryMove_keeps_flag in H1. cbn [gameOver set_dropFrameCounter].
    destruct moved; cbn [negb] in H2.
    - injection H2 as <-. congruence.
    - apply (lockPiece_keeps_flag Shuffle g1 g2 H2). congruence. }
  revert H. unfold gravity. cbv zeta.
  set (g1 := set_dropFrameCounter g _).
  destruct softDrop; [by apply Hfall|].
  destruct (dropFrameCounter g1 >=? gravityFrames (level g1)); [by apply Hfall|].
  intros H. by injection H as <-.
Qed.

(** X3. Once the game-over flag is set, no operation of the game lowers
    it: a move, a rotation, a lock, a hard drop, a gravity step and a
    call of [Update] without a restart input all return a state in which
    it is still set. Only a restart (a new game) clears it. *)
Theorem gameOver_flag_is_never_lowered {Rng}
    (Shuffle : Rng -> Z -> list (Z * Z) * Rng) (g : Game Rng) :
  gameOver g = true ->
  (forall dx dy g' moved,
     tryMove g dx dy = Ok (g', moved) -> gameOver g' = true) /\
  (forall dir g' turned,
     tryRotate g dir = Ok (g', turned) -> gameOver g' = true) /\
  (forall g', lockPiece Shuffle g = Ok g' -> gameOver g' = true) /\
  (forall fuel g', hardDrop Shuffle fuel g = Ok g' -> gameOver g' = true) /\
  (forall softDrop g',
     gravity Shuffle softDrop g = Ok g' -> gameOver g' = true) /\
  (forall fuel i g',
     restartPressed i = false -> Update Shuffle fuel g i = Ok g' ->
     gameOver g' = true).
Proof.
  intros Hover. split_and!.
  - intros dx dy g' moved H. apply tryMove_keeps_flag in H. congruence.
  - intros dir g' turned H. apply tryRotate_keeps_flag in H. congruence.
  - intros g' H. by apply (lockPiece_keeps_flag Shuffle g g').
  - intros fuel g' H. by apply (hardDrop_keeps_flag Shuffle fuel g g').
  - intros softDrop g' H. by apply (gravity_keeps_flag Shuffle softDrop g g').
  - intros fuel i g' Hr H. unfold Update in H. rewrite Hover, Hr in H.
    by injection H as <-.
Qed.

Lemma gameOver_flag_is_never_lowered_witness :
  (forall dx dy g' moved,
     tryMove Examples.lost dx dy = Ok (g', moved) -> gameOver g' = true) /\
  (forall dir g' turned,
     tryRotate Examples.lost dir = Ok (g', turned) -> gameOver g' = true) /\
  (forall g', lockPiece Lcg.Shuffle Examples.lost = Ok g' -> gameOver g' = true) /\
  (forall fuel g',
     hardDrop Lcg.Shuffle fuel Examples.lost = Ok g' -> gameOver g' = true) /\
  (forall softDrop g',
     gravity Lcg.Shuffle softDrop Examples.lost = Ok g' -> gameOver g' = true) /\
  (forall fuel i g',
     restartPressed i = false ->
     Update Lcg.Shuffle fuel Examples.lost i = Ok g' -> gameOver g' = true).
Proof.
  apply (gameOver_flag_is_never_lowered Lcg.Shuffle Examples.lost). reflexivity.
Defined.

(** ** Moves and rotations *)

(** X4. A move that succeeds from a placement that does not collide is
    undone by the opposite move: the state is the one before both. A
    move that fails returns the state it was given. *)
Theorem tryMove_is_undone_by_opposite {Rng} (g g1 : Game Rng) (dx dy : Z)
    (moved : bool) :
  collides g (cur g) = Ok false ->
  GoInt.in_range (ap_x (cur g)) -> GoInt.in_range (ap_y (cur g)) ->
  GoInt.in_range (ap_x (cur g) + dx) -> GoInt.in_range (ap_y (cur g) + dy) ->
  tryMove g dx dy = Ok (g1, moved) ->
  (moved = true -> tryMove g1 (- dx) (- dy) = Ok (g, true)) /\
  (moved = false -> g1 = g).
Proof.
  intros Hfree Hx Hy Hxd Hyd H. split.
  - intros ->. unfold tryMove in H. apply bind_Ok in H as (c & Hc & H).
    destruct c; cbn [negb] in H; [discriminate|]. injection H as <-.
    unfold tryMove. cbn [cur set_cur ap_kind ap_rot ap_x ap_y].
    rewrite (GoIntFacts.add_small (ap_x (cur g)) dx Hxd).
    rewrite (GoIntFacts.add_small (ap_y (cur g)) dy Hyd).
    rewrite (GoIntFacts.add_small (ap_x (cur g) + dx) (- dx))
      by (by replace (ap_x (cur g) + dx + - dx) with (ap_x (cur g)) by lia).
    rewrite (GoIntFacts.add_small (ap_y (cur g) + dy) (- dy))
      by (by replace (ap_y (cur g) + dy + - dy) with (ap_y (cur g)) by lia).
    replace (ap_x (cur g) + dx + - dx) with (ap_x (cur g)) by lia.
    replace (ap_y (cur g) + dy + - dy) with (ap_y (cur g)) by lia.
    rewrite collides_set_cur.
    replace (ActivePiece (ap_kind (cur g)) (ap_rot (cur g)) (ap_x (cur g))
                         (ap_y (cur g))) with (cur g) by (by destruct (cur g)).
    rewrite Hfree. cbn [bind negb]. by destruct g.
  - intros ->. by apply tryMove_frame in H as (_ & H & _); apply H.
Qed.

Lemma tryMove_is_undone_by_opposite_witness :
  (true = true ->
   tryMove (set_cur Examples.fresh (ActivePiece 0 0 2 0)) (- -1) (- 0)
   = Ok (Examples.fresh, true)) /\
  (true = false -> set_cur Examples.fresh (ActivePiece 0 0 2 0) = Examples.fresh).
Proof.
  apply (tryMove_is_undone_by_opposite Examples.fresh
           (set_cur Examples.fresh (ActivePiece 0 0 2 0)) (-1) 0 true);
    try reflexivity; vm_compute; split; congruence.
Defined.

(** X5. A rotation never changes the kind or the row of the piece, the
    board, the bag or the counters, and shifts the piece by at most two
    columns; when it succeeds the new rotation is (rot + dir) mod 4 and
    the new placement does not collide, and when it fails the state is
    the one it was given. *)
Theorem tryRotate_moves_at_most_two_columns {Rng} (g g' : Game Rng) (dir : Z)
    (turned : bool) :
  wf_piece (cur g) -> dir = 1 \/ dir = -1 ->
  GoInt.min_int + 2 <= ap_x (cur g) <= GoInt.max_int - 2 ->
  tryRotate g dir = Ok (g', turned) ->
  g' = set_cur g (cur g') /\
  ap_kind (cur g') = ap_kind (cur g) /\
  ap_y (cur g') = ap_y (cur g) /\
  -2 <= ap_x (cur g') - ap_x (cur g) <= 2 /\
  (turned = true ->
   ap_rot (cur g') = (ap_rot (cur g) + dir) mod 4 /\
   collides g' (cur g') = Ok false) /\
  (turned = false -> g' = g).
Proof.
  intros Hwf Hd Hx H.
  destruct (tryRotate_unfold g dir Hwf Hd Hx) as (next & _ & Hnext & Hcand).
  rewrite Hnext in H. apply tryKicks_frame in H as (Hframe & Hfail & Hok).
  split; [exact Hframe|]. destruct turned.
  - destruct (Hok eq_refl) as (Hfree & ox & Hox & Hcur).
    rewrite (Hcand ox Hox) in Hcur. apply kicks_small in Hox.
    assert (Hfree' : collides g' (cur g') = Ok false).
    { rewrite Hframe, collides_set_cur. cbn [cur set_cur]. exact Hfree. }
    rewrite Hcur. unfold rotated. cbn [ap_kind ap_rot ap_x ap_y].
    split; [done|]. split; [done|]. split; [lia|]. split; [|discriminate].
    intros _. split; [done|]. rewrite Hcur in Hfree'. exact Hfree'.
  - rewrite (Hfail eq_refl). split; [done|]. split; [done|]. split; [lia|].
    split; [discriminate | done].
Qed.

Lemma tryRotate_moves_at_most_two_columns_witness :
  set_cur Examples.fresh (ActivePiece 0 1 3 0)
  = set_cur Examples.fresh (cur (set_cur Examples.fresh (ActivePiece 0 1 3 0))) /\
  ap_kind (cur (set_cur Examples.fresh (ActivePiece 0 1 3 0)))
  = ap_kind (cur Examples.fresh) /\
  ap_y (cur (set_cur Examples.fresh (ActivePiece 0 1 3 0)))
  = ap_y (cur Examples.fresh) /\
  -2 <= ap_x (cur (set_cur Examples.fresh (ActivePiece 0 1 3 0)))
        - ap_x (cur Examples.fresh) <= 2 /\
  (true = true ->
   ap_rot (cur (set_cur Examples.fresh (ActivePiece 0 1 3 0)))
   = (ap_rot (cur Examples.fresh) + 1) mod 4 /\
   collides (set_cur Examples.fresh (ActivePiece 0 1 3 0))
            (cur (set_cur Examples.fresh (ActivePiece 0 1 3 0))) = Ok false) /\
  (true = false ->
   set_cur Examples.fresh (ActivePiece 0 1 3 0) = Examples.fresh).
Proof.
  apply (tryRotate_moves_at_most_two_columns Examples.fresh
           (set_cur Examples.fresh (ActivePiece 0 1 3 0)) 1 true).
  - unfold wf_piece; simpl; lia.
  - left; reflexivity.
  - unfold GoInt.min_int, GoInt.max_int; simpl; lia.
  - reflexivity.
Defined.

Lemma shapeOf_O_any_rotation r r' :
  0 <= r < 4 -> 0 <= r' < 4 -> shapeOf 1 r = shapeOf 1 r'.
Proof.
  intros Hr Hr'.
  assert (H : r = 0 \/ r = 1 \/ r = 2 \/ r = 3) by lia.
  assert (H' : r' = 0 \/ r' = 1 \/ r' = 2 \/ r' = 3) by lia.
  destruct H as [->|[->|[->| ->]]]; destruct H' as [->|[->|[->| ->]]];
    reflexivity.
Qed.

(** X6. The O piece (kind 1) never kicks: in a placement that does not
    collide, a rotation in either direction succeeds at offset 0 and the
    piece covers the same cells at the same anchor as before. *)
Theorem O_piece_rotates_in_place {Rng} (g : Game Rng) (dir : Z) :
  ap_kind (cur g) = 1 -> 0 <= ap_rot (cur g) < 4 ->
  collides g (cur g) = Ok false ->
  dir = 1 \/ dir = -1 ->
  GoInt.in_range (ap_x (cur g)) ->
  exists g',
    tryRotate g dir = Ok (g', true) /\
    g' = set_cur g (ActivePiece 1 ((ap_rot (cur g) + dir) mod 4)
                                (ap_x (cur g)) (ap_y (cur g))) /\
    pieceCells (cur g') = pieceCells (cur g).
Proof.
  intros Hk Hr Hfree Hd Hx.
  destruct (rotation_index _ _ Hr Hd) as [Hrot Hrot'].
  set (ap' := ActivePiece 1 ((ap_rot (cur g) + dir) mod 4)
                          (ap_x (cur g)) (ap_y (cur g))).
  assert (Hcells : pieceCells ap' = pieceCells (cur g)).
  { unfold pieceCells, ap'. cbn [ap_kind ap_rot ap_x ap_y]. rewrite Hk.
    by rewrite (shapeOf_O_any_rotation _ (ap_rot (cur g)) Hrot' Hr). }
  exists (set_cur g ap'). split; [|split; [done | exact Hcells]].
  unfold tryRotate. rewrite Hrot, Hk. unfold kicks. cbn [tryKicks].
  cbn [ap_kind ap_rot ap_x ap_y].
  rewrite (GoIntFacts.add_0_r (ap_x (cur g)) Hx). fold ap'.
  replace (collides g ap') with (collides g (cur g))
    by (unfold collides; by rewrite Hcells).
  rewrite Hfree. reflexivity.
Qed.

Lemma O_piece_rotates_in_place_witness :
  exists g',
    tryRotate Examples.overhang 1 = Ok (g', true) /\
    g' = set_cur Examples.overhang
           (ActivePiece 1 ((ap_rot (cur Examples.overhang) + 1) mod 4)
                        (ap_x (cur Examples.overhang))
                        (ap_y (cur Examples.overhang))) /\
    pieceCells (cur g') = pieceCells (cur Examples.overhang).
Proof.
  apply (O_piece_rotates_in_place Examples.overhang 1).
  - reflexivity.
  - simpl; lia.
  - reflexivity.
  - left; reflexivity.
  - vm_compute. split; congruence.
Defined.

(** ** Clearing twice, and counting blocks *)

Lemma clearLines_noop {Rng} (g : Game Rng) :
  wf_board (board g) -> (forall r, r ∈ board g -> rowFull r = false) ->
  clearLines g = Ok g.
Proof.
  intros Hwf Hnone. destruct (no_full_row_scan _ Hnone) as [HC Hk].
  rewrite clearLines_eq by done. rewrite HC, Hk. simpl.
  by rewrite set_board_same.
Qed.

(** X7. [clearLines] is idempotent on every board: what it returns has no
    full row left, and clearing that state again returns it unchanged
    (board, score, lines and level included). *)
Theorem clearLines_twice_is_once {Rng} (g : Game Rng) :
  wf_board (board g) ->
  exists g1,
    clearLines g = Ok g1 /\
    (forall r, r ∈ board g1 -> rowFull r = false) /\
    clearLines g1 = Ok g1 /\
    (do g2 <- clearLines g; clearLines g2) = clearLines g.
Proof.
  intros Hwf.
  destruct (clearLines_fields g Hwf) as (g1 & H1 & Hwf1 & _ & _ & _ & _ & _ & Hnone).
  exists g1. split; [exact H1|]. split; [exact Hnone|].
  pose proof (clearLines_noop g1 Hwf1 Hnone) as H2.
  split; [exact H2|]. rewrite H1. cbn [bind]. exact H2.
Qed.

Lemma clearLines_twice_is_once_witness :
  exists g1,
    clearLines Examples.nineLines = Ok g1 /\
    (forall r, r ∈ board g1 -> rowFull r = false) /\
    clearLines g1 = Ok g1 /\
    (do g2 <- clearLines Examples.nineLines; clearLines g2)
    = clearLines Examples.nineLines.
Proof. apply (clearLines_twice_is_once Examples.nineLines). board_ok. Defined.

Lemma occupied_cons r (b : Board) :
  occupied (r :: b) = Z.of_nat (rowCount r) + occupied b.
Proof.
  unfold occupied, rowCount. cbn [concat].
  rewrite filter_app, length_app. lia.
Qed.

Lemma occupied_app (a b : Board) : occupied (a ++ b) = occupied a + occupied b.
Proof.
  induction a as [|r a IH]; [unfold occupied; simpl; lia|].
  cbn [app]. rewrite !occupied_cons, IH. lia.
Qed.

Lemma rowCount_full r : rowFull r = true -> rowCount r = length r.
Proof.
  rewrite rowFull_spec. unfold rowCount. induction 1 as [|c r Hc _ IH]; [done|].
  rewrite filter_cons_True by done. simpl. by rewrite IH.
Qed.

Lemma occupied_empty_rows n : occupied (replicate n emptyRow) = 0.
Proof.
  induction n as [|n IH]; [reflexivity|].
  cbn [replicate]. rewrite occupied_cons, IH. reflexivity.
Qed.

Lemma occupied_kept (b : Board) :
  Forall (fun r => length r = Z.to_nat boardW) b ->
  occupied (filter (fun r => rowFull r = false) b)
  = occupied b
    - boardW * Z.of_nat (length (filter (fun r => rowFull r = true) b)).
Proof.
  induction 1 as [|r b Hr _ IH]; [reflexivity|].
  rewrite occupied_cons. destruct (rowFull r) eqn:E.
  - rewrite (filter_cons_False (fun r => rowFull r = false)) by congruence.
    rewrite (filter_cons_True (fun r => rowFull r = true)) by done.
    rewrite IH, (rowCount_full r E), Hr. cbn [length]. unfold boardW. lia.
  - rewrite (filter_cons_True (fun r => rowFull r = false)) by done.
    rewrite (filter_cons_False (fun r => rowFull r = true)) by congruence.
    rewrite occupied_cons, IH. lia.
Qed.

Lemma clearLines_board {Rng} (g g' : Game Rng) :
  wf_board (board g) -> clearLines g = Ok g' ->
  board g' = replicate (Z.to_nat (clearedCount (board g))) emptyRow
             ++ keptRows (board g).
Proof.
  intros Hwf H. rewrite (clearLines_eq g Hwf) in H. injection H as <-.
  by destruct (clearedCount (board g) >? 0).
Qed.

Lemma clearLines_occupied {Rng} (g g' : Game Rng) :
  wf_board (board g) -> clearLines g = Ok g' ->
  occupied (board g')
  = occupied (board g) - boardW * clearedCount (board g).
Proof.
  intros Hwf H.
  rewrite (clearLines_board g g' Hwf H), occupied_app, occupied_empty_rows.
  rewrite keptRows_spec, clearedCount_spec.
  destruct Hwf as [_ Hrows]. rewrite (occupied_kept _ Hrows). lia.
Qed.

(** X8. [clearLines] removes exactly the blocks of the full rows: the
    number of nonzero cells of the board drops by W for each row it
    counts, and by nothing else. *)
Theorem clearLines_removes_W_blocks_per_row {Rng} (g : Game Rng) :
  wf_board (board g) ->
  exists g',
    clearLines g = Ok g' /\
    occupied (board g')
    = occupied (board g) - boardW * clearedCount (board g).
Proof.
  intros Hwf.
  destruct (clearLines_fields g Hwf) as (g' & H & _).
  exists g'. split; [exact H|]. by apply clearLines_occupied.
Qed.

Lemma clearLines_removes_W_blocks_per_row_witness :
  exists g',
    clearLines Examples.nineLines = Ok g' /\
    occupied (board g')
    = occupied (board Examples.nineLines)
      - boardW * clearedCount (board Examples.nineLines).
Proof.
  apply (clearLines_removes_W_blocks_per_row Examples.nineLines). board_ok.
Defined.

(** ** Blocks and lines at a lock *)

Lemma filter_insert_count {A} (P : A -> Prop) `{!forall a, Decision (P a)}
    (l : list A) (i : nat) (old new : A) :
  l !! i = Some old -> ~ P old -> P new ->
  length (filter P (<[i := new]> l)) = S (length (filter P l)).
Proof.
  intros Hi Hold Hnew.
  rewrite insert_take_drop by (by eapply lookup_lt_Some).
  rewrite <- (take_drop_middle l i old Hi) at 3.
  rewrite !filter_app, !length_app.
  rewrite filter_cons_True by done. rewrite filter_cons_False by done.
  simpl. lia.
Qed.

Lemma occupied_insert_row (b : Board) (i : nat) (row row' : Row) :
  b !! i = Some row -> rowCount row' = S (rowCount row) ->
  occupied (<[i := row']> b) = occupied b + 1.
Proof.
  intros Hi Hc. pose proof (take_drop_middle b i row Hi) as Hb.
  rewrite insert_take_drop by (by eapply lookup_lt_Some).
  revert Hb. generalize (take i b) (drop (S i) b). intros l1 l2 <-.
  rewrite !occupied_app, !occupied_cons, Hc. lia.
Qed.

Lemma cellAt_lookup (b : Board) x y c :
  cellAt b x y = Some c ->
  0 <= x /\ 0 <= y /\
  exists row, b !! Z.to_nat y = Some row /\ row !! Z.to_nat x = Some c.
Proof.
  unfold cellAt. destruct (Z.ltb_spec x 0); [discriminate|].
  destruct (Z.ltb_spec y 0); [discriminate|]. simpl.
  destruct (b !! Z.to_nat y) as [row|] eqn:E; [|discriminate].
  intros Hc. split; [done|]. split; [done|]. by exists row.
Qed.

(** Writing the cells of a piece onto free cells adds one block each. *)
Lemma placeCells_occupied (cells : list point) (b : Board) (v : Z) :
  wf_board b -> v <> 0 -> NoDup cells ->
  (forall p, p ∈ cells ->
     0 <= p_x p < boardW /\ 0 <= p_y p < boardH /\
     cellAt b (p_x p) (p_y p) = Some 0) ->
  exists b',
    placeCells b cells v = Ok (b', false) /\ wf_board b' /\
    occupied b' = occupied b + Z.of_nat (length cells) /\
    (palette b -> 0 <= v <= 7 -> palette b').
Proof.
  intros Hwf Hv. revert b Hwf.
  induction cells as [|p rest IH]; intros b Hwf Hnd Hfree.
  - exists b. split; [done|]. split; [done|]. split; [simpl; lia | done].
  - apply NoDup_cons in Hnd as [Hnotin Hnd].
    destruct (Hfree p) as (Hx & Hy & Hcell); [by left|].
    cbn [placeCells]. destruct (Z.ltb_spec (p_y p) 0); [lia|].
    destruct (write_cell b (p_x p) (p_y p) v Hwf Hx Hy)
      as (row & b1 & H1 & H2 & H3 & Hb1 & Hwf1 & Hat).
    rewrite H1. cbn [bind]. rewrite H2. cbn [bind]. rewrite H3. cbn [bind].
    apply index_Ok in H1 as [_ Hrow].
    apply cellAt_lookup in Hcell as (_ & _ & row0 & Hrow0 & Hc0).
    rewrite Hrow in Hrow0. injection Hrow0 as <-.
    assert (Hocc : occupied b1 = occupied b + 1).
    { rewrite Hb1. apply (occupied_insert_row b _ row); [done|].
      unfold rowCount.
      apply (filter_insert_count (fun c => c <> 0) row _ 0 v); [done | lia | done]. }
    destruct (IH b1 Hwf1 Hnd) as (b' & Hp & Hwf' & Hocc' & Hpal).
    { intros q Hq. destruct (Hfree q) as (Hqx & Hqy & Hqc); [by right|].
      split; [done|]. split; [done|]. rewrite Hat.
      destruct (Z.eqb_spec (p_x p) (p_x q)) as [Ex|]; [|done].
      destruct (Z.eqb_spec (p_y p) (p_y q)) as [Ey|]; [|done].
      exfalso. apply Hnotin. destruct p, q. simpl in Ex, Ey. by subst. }
    exists b'. split; [done|]. split; [done|]. split.
    + rewrite Hocc', Hocc. cbn [length]. lia.
    + intros Hpalb Hv7. apply Hpal; [|done]. rewrite Hb1.
      apply Forall_insert; [done|]. apply Forall_insert; [|done].
      unfold palette in Hpalb. rewrite Forall_forall in Hpalb.
      apply Hpalb. by eapply list_elem_of_lookup_2.
Qed.

Lemma placeCells_keeps_shape (cells : list point) (b b' : Board) v ov :
  placeCells b cells v = Ok (b', ov) ->
  (wf_board b -> wf_board b') /\
  (palette b -> 0 <= v <= 7 -> palette b').
Proof.
  revert b. induction cells as [|p rest IH]; intros b H.
  - by injection H as <- <-.
  - cbn [placeCells] in H. destruct (p_y p <? 0); [by injection H as <- <-|].
    apply bind_Ok in H as (row & Hrow & H).
    apply bind_Ok in H as (row' & Hrow' & H).
    apply bind_Ok in H as (b1 & Hb1 & H).
    apply index_Ok in Hrow as [_ Hrow].
    apply store_Ok in Hrow' as [_ ->]. apply store_Ok in Hb1 as [_ ->].
    destruct (IH _ H) as [IHwf IHpal]. split.
    + intros [Hlen Hrows]. apply IHwf. split; [by rewrite length_insert|].
      apply Forall_insert; [done|]. rewrite length_insert.
      rewrite Forall_forall in Hrows. apply Hrows.
      by eapply list_elem_of_lookup_2.
    + intros Hpal Hv. apply IHpal; [|done].
      apply Forall_insert; [done|]. apply Forall_insert; [|done].
      unfold palette in Hpal. rewrite Forall_forall in Hpal.
      apply Hpal. by eapply list_elem_of_lookup_2.
Qed.

Lemma clearLines_keeps_Inv2 {Rng} (g g' : Game Rng) :
  wf_board (board g) -> clearLines g = Ok g' ->
  palette (board g) -> GoInt.in_range (lines g) ->
  level g = Z.quot (lines g) 10 ->
  palette (board g') /\ GoInt.in_range (lines g') /\
  level g' = Z.quot (lines g') 10.
Proof.
  intros Hwf H Hpal Hrange Hlevel.
  pose proof (clearLines_board g g' Hwf H) as Hboard.
  split.
  - rewrite Hboard. unfold palette in *. apply Forall_app. split.
    + apply Forall_replicate. unfold emptyRow. apply Forall_replicate. lia.
    + rewrite keptRows_spec. rewrite Forall_forall in *. intros r Hr.
      apply Hpal. by apply list_elem_of_filter in Hr as [_ Hr].
  - rewrite (clearLines_eq g Hwf) in H. injection H as <-.
    destruct (clearedCount (board g) >? 0);
      cbn [lines level set_counters set_board]; [|done].
    pose proof (GoIntFacts.wrap_in_range (lines g + clearedCount (board g))) as Hr.
    fold (GoInt.add (lines g) (clearedCount (board g))) in Hr.
    split; [exact Hr|].
    apply GoIntFacts.quot_small. revert Hr.
    generalize (GoInt.add (lines g) (clearedCount (board g))) as n.
    intros n. unfold GoInt.in_range, GoInt.min_int, GoInt.max_int. intros Hn.
    pose proof (Z.quot_rem' n 10) as Hqr.
    pose proof (Z.rem_bound_abs n 10 ltac:(lia)) as Hrem.
    revert Hqr Hrem. generalize (Z.quot n 10) (Z.rem n 10). intros q r. lia.
Qed.

Section Bag2.

Context {Rng : Type}.
Variable Shuffle : Rng -> Z -> list (Z * Z) * Rng.
Hypothesis Shuffle_ok : Shuffle_in_bounds Shuffle.

Lemma popBag_NoDup (g g' : Game Rng) v :
  NoDup (bag g) -> popBag Shuffle g = Ok (v, g') -> NoDup (v :: bag g').
Proof.
  intros Hnd H. destruct (bag g) as [|v0 rest] eqn:E.
  - destruct (popBag_refill Shuffle Shuffle_ok g E) as (v1 & rest1 & r & H1 & Hp).
    rewrite H1 in H. injection H as <- <-. cbn [bag set_bag].
    rewrite Hp. unfold freshBag.
    apply (bool_decide_unpack _). vm_compute. reflexivity.
  - rewrite (popBag_nonempty Shuffle g v0 rest E) in H.
    injection H as <- <-. exact Hnd.
Qed.

Lemma spawn_keeps_Inv2 (g g' : Game Rng) :
  spawn Shuffle g = Ok g' -> Inv2 g -> Inv2 g'.
Proof.
  intros H (Hpal & Hrange & Hlevel & Hnd).
  apply spawn_frame in H as (Hb & _ & _ & Hl & Hlv & _ & _ & _ & Hpop).
  unfold Inv2. rewrite Hb, Hl, Hlv. split_and!; try done.
  apply NoDup_cons_1_2 in Hnd.
  apply (popBag_NoDup g _ _ Hnd) in Hpop. exact Hpop.
Qed.

Lemma lockPiece_keeps_Inv2 (g g' : Game Rng) :
  Inv g -> Inv2 g -> lockPiece Shuffle g = Ok g' -> Inv2 g'.
Proof.
  intros HI (Hpal & Hrange & Hlevel & Hnd) H.
  destruct HI as (Hwf & Hon & _).
  unfold lockPiece in H. apply bind_Ok in H as (cells & Hcells & H).
  apply pieceCells_Ok_wf in Hcells as [Hk _].
  rewrite (GoIntFacts.add_small (ap_kind (cur g)) 1) in H
    by (apply GoIntFacts.in_range_small; lia).
  apply bind_Ok in H as ([b ov] & Hplace & H).
  destruct (placeCells_keeps_shape _ _ _ _ _ Hplace) as [Hwfb Hpalb].
  specialize (Hwfb Hwf). specialize (Hpalb Hpal ltac:(lia)).
  destruct ov.
  - injection H as <-. unfold Inv2.
    cbn [board lines level nextKind bag set_board set_gameOver]. done.
  - apply bind_Ok in H as (g2 & H2 & H).
    apply (spawn_keeps_Inv2 g2 g' H).
    apply clearLines_frame in H2 as Hframe.
    destruct Hframe as (_ & Hn2 & Hbag2 & _).
    destruct (clearLines_keeps_Inv2 (set_board g b) g2 Hwfb H2 Hpalb Hrange Hlevel)
      as (H3 & H4 & H5).
    unfold Inv2. rewrite Hn2, Hbag2. done.
Qed.

End Bag2.

(** ** Properties kept by [Update] *)

Section UpdateKeeps.

Context {Rng : Type}.
Variable Shuffle : Rng -> Z -> list (Z * Z) * Rng.
Variable P : Game Rng -> Prop.
Variable fuel : nat.

Hypothesis keep_move : forall dx, -1 <= dx <= 1 -> preserves P (move_ dx 0).
Hypothesis keep_rotate :
  forall dir, dir = 1 \/ dir = -1 -> preserves P (rotate_ dir).
Hypothesis keep_hardDrop : preserves P (hardDrop Shuffle fuel).
Hypothesis keep_gravity : forall b, preserves P (gravity Shuffle b).
Hypothesis keep_reset : forall g r g', Reset Shuffle g r = Ok g' -> P g'.

Lemma when_preserves (b : bool) f : preserves P f -> preserves P (when b f).
Proof.
  intros Hf g g' HP H. destruct b; cbn [when] in H.
  - by apply (Hf g g').
  - by injection H as <-.
Qed.

Lemma Update_preserves (i : input Rng) :
  preserves P (fun g => Update Shuffle fuel g i).
Proof.
  intros g g' HP H. unfold Update in H. destruct (gameOver g).
  { destruct (restartPressed i); [by eapply keep_reset | by injection H as <-]. }
  apply bind_Ok in H as (g1 & H1 & H).
  apply (when_preserves _ _ (keep_move (-1) ltac:(lia)) _ _ HP) in H1.
  apply bind_Ok in H as (g2 & H2 & H).
  apply (when_preserves _ _ (keep_move 1 ltac:(lia)) _ _ H1) in H2.
  apply bind_Ok in H as (g3 & H3 & H).
  apply (when_preserves _ _ (keep_rotate (-1) ltac:(by right)) _ _ H2) in H3.
  apply bind_Ok in H as (g4 & H4 & H).
  apply (when_preserves _ _ (keep_rotate 1 ltac:(by left)) _ _ H3) in H4.
  apply bind_Ok in H as (g5 & H5 & H).
  apply (when_preserves _ _ keep_hardDrop _ _ H4) in H5.
  cbv zeta in H. destruct (mobile i); [|by eapply keep_gravity].
  apply bind_Ok in H as (g6 & H6 & H).
  apply (when_preserves _ _ (keep_move (-1) ltac:(lia)) _ _ H5) in H6.
  apply bind_Ok in H as (g7 & H7 & H).
  apply (when_preserves _ _ (keep_move 1 ltac:(lia)) _ _ H6) in H7.
  apply bind_Ok in H as (g8 & H8 & H).
  apply (when_preserves _ _ (keep_rotate 1 ltac:(by left)) _ _ H7) in H8.
  apply bind_Ok in H as (g9 & H9 & H).
  apply (when_preserves _ _ keep_hardDrop _ _ H8) in H9.
  by eapply keep_gravity.
Qed.

End UpdateKeeps.

(** ** Level, palette and bag in reachable states *)

Section Invariant2.

Context {Rng : Type}.
Variable Shuffle : Rng -> Z -> list (Z * Z) * Rng.
Hypothesis Shuffle_ok : Shuffle_in_bounds Shuffle.

Lemma Inv2_set_cur (g : Game Rng) ap : Inv2 (set_cur g ap) <-> Inv2 g.
Proof. reflexivity. Qed.

Lemma tryMove_Both (g g' : Game Rng) dx dy moved :
  Both g -> -1 <= dx <= 1 -> 0 <= dy <= 1 ->
  tryMove g dx dy = Ok (g', moved) -> Both g'.
Proof.
  intros [HI H2] Hdx Hdy H.
  destruct (tryMove_Inv g dx dy HI Hdx Hdy) as (g1 & m1 & H1 & HI1 & _).
  rewrite H1 in H. injection H as <- <-. split; [exact HI1|].
  apply tryMove_frame in H1 as (-> & _). exact H2.
Qed.

Lemma tryRotate_Both (g g' : Game Rng) dir turned :
  Both g -> dir = 1 \/ dir = -1 ->
  tryRotate g dir = Ok (g', turned) -> Both g'.
Proof.
  intros [HI H2] Hd H.
  destruct (tryRotate_Inv g dir HI Hd) as (g1 & t1 & H1 & HI1).
  rewrite H1 in H. injection H as <- <-. split; [exact HI1|].
  unfold tryRotate in H1. apply tryKicks_frame in H1 as (-> & _). exact H2.
Qed.

Lemma lockPiece_Both (g g' : Game Rng) :
  Both g -> lockPiece Shuffle g = Ok g' -> Both g'.
Proof.
  intros [HI H2] H. split.
  - destruct (lockPiece_Inv Shuffle Shuffle_ok g HI) as (g1 & H1 & HI1). congruence.
  - by apply (lockPiece_keeps_Inv2 Shuffle Shuffle_ok g g').
Qed.

Lemma dropLoop_Both fuel (g g' : Game Rng) :
  Both g -> dropLoop fuel g = Ok g' -> Both g'.
Proof.
  intros [HI H2] H. split.
  - apply (good_false_Ok (dropLoop fuel g) g'); [|exact H].
    apply dropLoop_good; [exact HI | discriminate].
  - apply dropLoop_frame in H as ->. exact H2.
Qed.

Lemma hardDrop_Both fuel : preserves Both (hardDrop Shuffle fuel).
Proof.
  intros g g' HB H. unfold hardDrop in H.
  apply bind_Ok in H as (g1 & H1 & H). apply bind_Ok in H as (g2 & H2 & H).
  injection H as <-. apply (dropLoop_Both fuel g g1 HB) in H1.
  apply (lockPiece_Both g1 g2 H1) in H2. exact H2.
Qed.

Lemma move_Both dx : -1 <= dx <= 1 -> preserves (@Both Rng) (move_ dx 0).
Proof.
  intros Hdx g g' HB H. unfold move_ in H.
  apply bind_Ok in H as ([g1 m] & H1 & H). injection H as <-.
  apply (tryMove_Both g g1 dx 0 m HB); [done | lia | done].
Qed.

Lemma rotate_Both dir : dir = 1 \/ dir = -1 -> preserves (@Both Rng) (rotate_ dir).
Proof.
  intros Hd g g' HB H. unfold rotate_ in H.
  apply bind_Ok in H as ([g1 t] & H1 & H). injection H as <-.
  by apply (tryRotate_Both g g1 dir t HB).
Qed.

Lemma gravity_Both b : preserves Both (gravity Shuffle b).
Proof.
  intros g g' HB H.
  assert (Hfall : forall g0, Both g0 -> fallOrLock Shuffle g0 = Ok g' -> Both g').
  { intros g0 H0 Hf. unfold fallOrLock in Hf.
    apply bind_Ok in Hf as ([g1 moved] & H1 & Hf).
    apply bind_Ok in Hf as (g2 & H2 & Hf). injection Hf as <-.
    apply (tryMove_Both g0 g1 0 1 moved H0) in H1; [|lia..].
    destruct moved; cbn [negb] in H2.
    - injection H2 as <-. exact H1.
    - apply (lockPiece_Both g1 g2 H1) in H2. exact H2. }
  revert H. unfold gravity. cbv zeta.
  set (g1 := set_dropFrameCounter g _).
  assert (HB1 : Both g1) by exact HB.
  destruct b; [by apply Hfall|].
  destruct (dropFrameCounter g1 >=? gravityFrames (level g1)); [by apply Hfall|].
  intros H. by injection H as <-.
Qed.

Lemma NewGame_Both r (g : Game Rng) : NewGame Shuffle r = Ok g -> Both g.
Proof.
  intros H. split.
  - destruct (NewGame_Inv Shuffle Shuffle_ok r) as (g1 & H1 & HI). congruence.
  - unfold NewGame in H. apply bind_Ok in H as ([v g1] & Hpop & H).
    apply (spawn_keeps_Inv2 Shuffle Shuffle_ok _ g H).
    apply popBag_NoDup in Hpop as Hnd; [|exact Shuffle_ok | constructor].
    apply popBag_frame in Hpop. rewrite Hpop.
    unfold Inv2. cbn [board lines level nextKind bag set_bag set_nextKind].
    split_and!; try done.
    unfold palette, emptyBoard, emptyRow.
    apply Forall_replicate, Forall_replicate. lia.
Qed.

Lemma reachable_Both (g : Game Rng) : reachable Shuffle g -> Both g.
Proof.
  induction 1 as [r g H | fuel g i g' _ IH H | g dx dy g' moved _ IH Hdx Hdy H
                 | g dir g' turned _ IH Hd H | fuel g g' _ IH H
                 | g g' _ IH H | g c _ IH].
  - by apply (NewGame_Both r).
  - apply (Update_preserves Shuffle Both fuel) with (i := i) (g := g); try done.
    + apply move_Both.
    + apply rotate_Both.
    + apply hardDrop_Both.
    + apply gravity_Both.
    + intros g0 r g1 Hr. by apply (NewGame_Both r).
  - by apply (tryMove_Both g g' dx dy moved).
  - by apply (tryRotate_Both g g' dir turned).
  - by apply (hardDrop_Both fuel g g').
  - by apply (lockPiece_Both g g').
  - exact IH.
Qed.

End Invariant2.

(** X9. In every reachable state the level is the line count divided by
    10 (truncated), as [clearLines] sets both together and nothing else
    touches them. *)
Theorem reachable_level_is_lines_div_10 {Rng}
    (Shuffle : Rng -> Z -> list (Z * Z) * Rng) (g : Game Rng) :
  Shuffle_in_bounds Shuffle -> reachable Shuffle g ->
  level g = Z.quot (lines g) 10 /\ GoInt.in_range (lines g).
Proof.
  intros Hok Hr.
  destruct (reachable_Both Shuffle Hok g Hr) as (_ & _ & Hrange & Hlevel & _).
  by split.
Qed.

Lemma reachable_level_is_lines_div_10_witness :
  level Examples.started = Z.quot (lines Examples.started) 10 /\
  GoInt.in_range (lines Examples.started).
Proof.
  apply (reachable_level_is_lines_div_10 Lcg.Shuffle Examples.started).
  - exact Lcg_in_bounds.
  - apply (reach_new Lcg.Shuffle 42). vm_compute. reflexivity.
Defined.

Lemma palette_cellAt (b : Board) x y c :
  palette b -> cellAt b x y = Some c -> 0 <= c <= 7.
Proof.
  intros Hpal Hc. apply cellAt_lookup in Hc as (_ & _ & row & Hrow & Hc).
  unfold palette in Hpal. rewrite Forall_forall in Hpal.
  apply list_elem_of_lookup_2 in Hrow. specialize (Hpal row Hrow).
  rewrite Forall_forall in Hpal. apply Hpal. by eapply list_elem_of_lookup_2.
Qed.

(** X10. In every reachable state every board cell holds 0 or a piece
    kind 1..7: [lockPiece] writes kind + 1 with kind in 0..6 and
    [clearLines] only moves rows and adds empty ones. *)
Theorem reachable_board_cells_are_kinds {Rng}
    (Shuffle : Rng -> Z -> list (Z * Z) * Rng) (g : Game Rng) :
  Shuffle_in_bounds Shuffle -> reachable Shuffle g ->
  forall x y c, cellAt (board g) x y = Some c -> 0 <= c <= 7.
Proof.
  intros Hok Hr x y c Hc.
  destruct (reachable_Both Shuffle Hok g Hr) as (_ & Hpal & _).
  by apply (palette_cellAt (board g) x y c).
Qed.

Lemma reachable_board_cells_are_kinds_witness :
  exists c, cellAt (board Examples.started) 4 19 = Some c /\ 0 <= c <= 7.
Proof.
  exists 0. split; [vm_compute; reflexivity|].
  apply (reachable_board_cells_are_kinds Lcg.Shuffle Examples.started
           Lcg_in_bounds) with (x := 4) (y := 19).
  - apply (reach_new Lcg.Shuffle 42). vm_compute. reflexivity.
  - vm_compute. reflexivity.
Defined.

Lemma kinds_NoDup_length (l : list Z) :
  NoDup l -> (forall k, k ∈ l -> 0 <= k < 7) -> (length l <= 7)%nat.
Proof.
  intros Hnd Hin. change 7%nat with (length freshBag).
  apply submseteq_length, NoDup_submseteq; [done|].
  intros k Hk. specialize (Hin k Hk). unfold freshBag.
  assert (Hk' : k = 0 \/ k = 1 \/ k = 2 \/ k = 3 \/ k = 4 \/ k = 5 \/ k = 6)
    by lia.
  destruct Hk' as [->|[->|[->|[->|[->|[->| ->]]]]]];
    repeat first [by left | right].
Qed.

(** X11. In every reachable state the preview kind and the kinds left in
    the bag are pairwise distinct kinds 0..6, so the bag holds at most 6
    kinds and never the one shown as next. *)
Theorem reachable_next_and_bag_are_distinct {Rng}
    (Shuffle : Rng -> Z -> list (Z * Z) * Rng) (g : Game Rng) :
  Shuffle_in_bounds Shuffle -> reachable Shuffle g ->
  NoDup (nextKind g :: bag g) /\
  (forall k, k ∈ nextKind g :: bag g -> 0 <= k < 7) /\
  (nextKind g ∉ bag g) /\
  (length (bag g) <= 6)%nat.
Proof.
  intros Hok Hr.
  destruct (reachable_Both Shuffle Hok g Hr)
    as ((_ & _ & _ & _ & Hn & Hbag & _) & (_ & _ & _ & Hnd)).
  assert (Hall : forall k, k ∈ nextKind g :: bag g -> 0 <= k < 7).
  { intros k Hk. apply elem_of_cons in Hk as [-> | Hk]; [done | by apply Hbag]. }
  split; [exact Hnd|]. split; [exact Hall|].
  split; [by apply NoDup_cons_1_1|].
  pose proof (kinds_NoDup_length _ Hnd Hall) as Hlen. cbn [length] in Hlen. lia.
Qed.

Lemma reachable_next_and_bag_are_distinct_witness :
  NoDup (nextKind Examples.started :: bag Examples.started) /\
  (forall k, k ∈ nextKind Examples.started :: bag Examples.started ->
     0 <= k < 7) /\
  (nextKind Examples.started ∉ bag Examples.started) /\
  (length (bag Examples.started) <= 6)%nat.
Proof.
  apply (reachable_next_and_bag_are_distinct Lcg.Shuffle Examples.started).
  - exact Lcg_in_bounds.
  - apply (reach_new Lcg.Shuffle 42). vm_compute. reflexivity.
Defined.

(** ** What one lock does *)

Lemma pieceCells_NoDup ap cells :
  -100 <= ap_x ap <= 100 -> -100 <= ap_y ap <= 100 ->
  pieceCells ap = Ok cells -> NoDup cells.
Proof.
  intros Hx Hy Hcells.
  destruct (pieceCells_wf ap (pieceCells_Ok_wf _ _ Hcells))
    as (src & Hs & _ & Hbox & Hmap).
  rewrite Hmap in Hcells. injection Hcells as <-.
  rewrite Forall_forall in Hbox.
  apply NoDup_fmap_2_strong; [|by eapply shapeOf_NoDup].
  intros p q Hp Hq Heq.
  destruct (Hbox p Hp) as [Hpx Hpy]. destruct (Hbox q Hq) as [Hqx Hqy].
  rewrite (GoIntFacts.add_small (ap_x ap) (p_x p)),
          (GoIntFacts.add_small (ap_y ap) (p_y p)),
          (GoIntFacts.add_small (ap_x ap) (p_x q)),
          (GoIntFacts.add_small (ap_y ap) (p_y q)) in Heq
    by (apply GoIntFacts.in_range_small; lia).
  injection Heq as H1 H2. clear - H1 H2.
  destruct p as [a b], q as [c d]. cbn [p_x p_y] in *. f_equal; lia.
Qed.

(** The counters after clearing [C] rows, 1 <= C <= 4, away from the
    wrap. *)
Lemma scoring_arith (s l C : Z) :
  0 <= l <= 4294967296 -> 0 <= s <= 4611686018427387904 -> 1 <= C <= 4 ->
  GoInt.add l C = l + C /\
  GoInt.quot (l + C) 10 = (l + C) / 10 /\
  s <= GoInt.add s (GoInt.mul (nth (Z.to_nat C) scoreTable 0)
                              (GoInt.add ((l + C) / 10) 1)).
Proof.
  intros Hl Hs HC.
  assert (Hq : Z.quot (l + C) 10 = (l + C) / 10) by (apply Z.quot_div_nonneg; lia).
  assert (Hqb : 0 <= (l + C) / 10 <= 429496730).
  { split; [apply Z.div_pos; lia|]. apply Z.div_le_upper_bound; lia. }
  split.
  { apply GoIntFacts.add_small.
    unfold GoInt.in_range, GoInt.min_int, GoInt.max_int. lia. }
  split.
  { rewrite (GoIntFacts.quot_small (l + C) 10); rewrite Hq; [done|].
    unfold GoInt.in_range, GoInt.min_int, GoInt.max_int. lia. }
  revert Hqb. generalize ((l + C) / 10) as q. intros q Hqb.
  assert (Hpts : 0 <= nth (Z.to_nat C) scoreTable 0 <= 1200).
  { assert (HC' : C = 1 \/ C = 2 \/ C = 3 \/ C = 4) by lia.
    destruct HC' as [->|[->|[->| ->]]]; simpl; lia. }
  revert Hpts. generalize (nth (Z.to_nat C) scoreTable 0) as pts. intros pts Hpts.
  rewrite (GoIntFacts.add_small q 1)
    by (unfold GoInt.in_range, GoInt.min_int, GoInt.max_int; lia).
  assert (Hprod : 0 <= pts * (q + 1) <= 515396077200).
  { split; [apply Z.mul_nonneg_nonneg; lia|].
    assert (pts * (q + 1) <= 1200 * (q + 1))
      by (apply Z.mul_le_mono_nonneg_r; lia).
    lia. }
  rewrite (GoIntFacts.mul_small pts (q + 1)).
  - revert Hprod. generalize (pts * (q + 1)) as prod. intros prod Hprod.
    rewrite (GoIntFacts.add_small s prod)
      by (unfold GoInt.in_range, GoInt.min_int, GoInt.max_int; lia).
    lia.
  - revert Hprod. generalize (pts * (q + 1)) as prod. intros prod Hprod.
    unfold GoInt.in_range, GoInt.min_int, GoInt.max_int. lia.
Qed.

(** X12. A lock in a reachable state whose game is not over adds the four
    blocks of the piece and clears C full rows, 0 <= C <= 4: the number
    of blocks on the board changes by 4 - W * C, the line count grows by
    C, the level is the new line count divided by 10, and the score does
    not decrease (it is unchanged when C = 0). *)
Theorem lockPiece_adds_four_blocks {Rng}
    (Shuffle : Rng -> Z -> list (Z * Z) * Rng) (g : Game Rng) :
  Shuffle_in_bounds Shuffle -> reachable Shuffle g ->
  gameOver g = false -> small_counters g ->
  exists g' C,
    lockPiece Shuffle g = Ok g' /\ 0 <= C <= 4 /\
    occupied (board g') = occupied (board g) + 4 - boardW * C /\
    lines g' = lines g + C /\
    level g' = lines g' / 10 /\
    score g <= score g' /\
    (C = 0 -> score g' = score g).
Proof.
  intros Hok Hr Hover [Hl Hs].
  destruct (reachable_Both Shuffle Hok g Hr) as [HI (_ & _ & Hlevel & _)].
  pose proof HI as (Hwf & (cells & Hcells & Hon) & Hx & Hy & _ & _ & Hvalid & Hnone).
  specialize (Hvalid Hover).
  destruct (lockPiece_Inv Shuffle Hok g HI) as (g' & Hlock & _).
  destruct (collides_false_cells g (cur g) Hwf Hvalid) as (Hwfp & cells' & Hc' & Hfree).
  rewrite Hcells in Hc'. injection Hc' as <-. rewrite Forall_forall in Hfree.
  destruct (pieceCells_wf (cur g) Hwfp) as (src & _ & Hlen & _ & Hmap).
  assert (Hlen4 : length cells = 4%nat).
  { rewrite Hmap in Hcells. injection Hcells as <-. by rewrite length_map. }
  destruct Hwfp as [Hk _].
  destruct (placeCells_occupied cells (board g) (ap_kind (cur g) + 1) Hwf)
    as (b & Hplace & Hwfb & Hocc & _); [lia | | |].
  { apply (pieceCells_NoDup (cur g)); [lia | lia | done]. }
  { intros p Hp. destruct (Hon p Hp) as [Hpx Hpy].
    destruct (Hfree p Hp) as (_ & _ & [Hneg | Hzero]); [lia | done]. }
  rewrite Hlen4 in Hocc.
  assert (HC : 0 <= clearedCount b <= 4).
  { split; [apply clearedCount_bounds|].
    apply placeCells_count in Hplace as Hcount.
    destruct (no_full_row_scan _ Hnone) as [H0 _]. lia. }
  pose proof Hlock as Hlock'. unfold lockPiece in Hlock'.
  rewrite Hcells in Hlock'. cbn [bind] in Hlock'.
  rewrite (GoIntFacts.add_small (ap_kind (cur g)) 1) in Hlock'
    by (apply GoIntFacts.in_range_small; lia).
  rewrite Hplace in Hlock'. cbn [bind] in Hlock'.
  apply bind_Ok in Hlock' as (g2 & H2 & Hspawn).
  apply spawn_frame in Hspawn as (Hb' & _ & Hs' & Hl' & Hlv' & _).
  pose proof (clearLines_occupied (set_board g b) g2 Hwfb H2) as Hocc2.
  cbn [board set_board] in Hocc2.
  exists g', (clearedCount b). split; [exact Hlock|]. split; [exact HC|].
  split; [rewrite Hb', Hocc2, Hocc; lia|].
  rewrite Hs', Hl', Hlv'.
  rewrite (clearLines_eq (set_board g b) Hwfb) in H2. injection H2 as <-.
  cbn [board lines level score set_board].
  destruct (Z.gtb_spec (clearedCount b) 0) as [Hpos | Hzero];
    cbn [lines level score set_counters set_board].
  - destruct (scoring_arith (score g) (lines g) (clearedCount b) Hl Hs)
      as (Ha & Hq & Hsc); [lia|].
    destruct (Z.leb_spec (clearedCount b) 4); [|lia].
    rewrite Ha, Hq. split; [done|]. split; [done|]. split; [exact Hsc | lia].
  - assert (Hz : clearedCount b = 0) by lia. rewrite Hz, Z.add_0_r.
    split; [done|]. split; [|split; [lia | done]].
    rewrite Hlevel. apply Z.quot_div_nonneg; lia.
Qed.

Lemma lockPiece_adds_four_blocks_witness :
  exists g' C,
    lockPiece Lcg.Shuffle Examples.started = Ok g' /\ 0 <= C <= 4 /\
    occupied (board g')
    = occupied (board Examples.started) + 4 - boardW * C /\
    lines g' = lines Examples.started + C /\
    level g' = lines g' / 10 /\
    score Examples.started <= score g' /\
    (C = 0 -> score g' = score Examples.started).
Proof.
  apply (lockPiece_adds_four_blocks Lcg.Shuffle Examples.started).
  - exact Lcg_in_bounds.
  - apply (reach_new Lcg.Shuffle 42). vm_compute. reflexivity.
  - reflexivity.
  - unfold small_counters. vm_compute. repeat split; congruence.
Defined.

(** ** A new game *)

Lemma cellAt_emptyBoard x y :
  0 <= x < boardW -> 0 <= y < boardH -> cellAt emptyBoard x y = Some 0.
Proof.
  intros Hx Hy. unfold cellAt, emptyBoard, emptyRow.
  destruct (Z.ltb_spec x 0); [lia|]. destruct (Z.ltb_spec y 0); [lia|].
  cbn [orb]. rewrite lookup_replicate_2 by (unfold boardH in *; lia).
  apply lookup_replicate_2. unfold boardW in *. lia.
Qed.

Lemma collides_on_emptyBoard {Rng} (g : Game Rng) k :
  board g = emptyBoard -> 0 <= k < 7 ->
  collides g (ActivePiece k 0 3 0) = Ok false.
Proof.
  intros Hb Hk. destruct (spawn_cells_on_board k Hk) as (cells & Hcells & Hon).
  unfold collides. rewrite Hcells. cbn [bind]. rewrite Hb.
  destruct (collidesCells_spec emptyBoard cells) as (c & Hc & Hiff).
  { split; [reflexivity|]. apply Forall_replicate. unfold emptyRow.
    by rewrite length_replicate. }
  rewrite Hc. f_equal. apply Hiff. rewrite Forall_forall. intros p Hp.
  destruct (Hon p Hp) as [Hpx Hpy]. split; [done|]. split; [lia|].
  right. by apply cellAt_emptyBoard.
Qed.

(** X13. [NewGame] (and so [Reset]) always returns a game that is not
    over: the board is empty, score, lines, level and the gravity counter
    are 0, the piece is at the spawn anchor (x = 3, y = 0, rotation 0),
    and the piece, the preview and the five kinds left in the bag are the
    seven kinds of one shuffled bag. *)
Theorem NewGame_starts_fresh {Rng}
    (Shuffle : Rng -> Z -> list (Z * Z) * Rng) (r : Rng) :
  Shuffle_in_bounds Shuffle ->
  exists g,
    NewGame Shuffle r = Ok g /\
    gameOver g = false /\ board g = emptyBoard /\
    score g = 0 /\ lines g = 0 /\ level g = 0 /\ dropFrameCounter g = 0 /\
    ap_rot (cur g) = 0 /\ ap_x (cur g) = 3 /\ ap_y (cur g) = 0 /\
    ap_kind (cur g) :: nextKind g :: bag g ≡ₚ [0; 1; 2; 3; 4; 5; 6] /\
    length (bag g) = 5%nat.
Proof.
  intros Hok. unfold NewGame.
  set (g0 := MkGame emptyBoard (ActivePiece 0 0 0 0) 0 [] r 0 0 0 0 false).
  destruct (popBag_refill Shuffle Hok g0 eq_refl) as (v & rest & r' & Hpop & Hp).
  rewrite Hpop. cbn [bind].
  destruct rest as [|v2 rest2].
  { apply Permutation_length in Hp. discriminate. }
  assert (Hv : 0 <= v < 7).
  { assert (Hin : v ∈ freshBag) by (rewrite <- Hp; by left).
    unfold freshBag in Hin.
    repeat (apply elem_of_cons in Hin as [-> | Hin]; [lia|]).
    by apply elem_of_nil in Hin. }
  unfold spawn. cbn [nextKind set_nextKind set_bag set_cur].
  rewrite (popBag_nonempty Shuffle _ v2 rest2) by reflexivity. cbn [bind].
  cbn [cur set_nextKind set_bag set_cur rng].
  rewrite collides_on_emptyBoard by (done || reflexivity).
  eexists. split; [reflexivity|].
  cbn [gameOver board score lines level dropFrameCounter cur nextKind bag
       ap_kind ap_rot ap_x ap_y].
  split_and!; try reflexivity.
  - exact Hp.
  - apply Permutation_length in Hp. cbn [bag set_nextKind set_bag].
    simpl in Hp. lia.
Qed.

Lemma NewGame_starts_fresh_witness :
  exists g,
    NewGame Lcg.Shuffle 42 = Ok g /\
    gameOver g = false /\ board g = emptyBoard /\
    score g = 0 /\ lines g = 0 /\ level g = 0 /\ dropFrameCounter g = 0 /\
    ap_rot (cur g) = 0 /\ ap_x (cur g) = 3 /\ ap_y (cur g) = 0 /\
    ap_kind (cur g) :: nextKind g :: bag g ≡ₚ [0; 1; 2; 3; 4; 5; 6] /\
    length (bag g) = 5%nat.
Proof. apply (NewGame_starts_fresh Lcg.Shuffle 42). exact Lcg_in_bounds. Defined.

(** ** The gravity counter *)

Lemma gravityFrames_in_range (level : Z) : gravityFrames level <= GoInt.max_int.
Proof.
  unfold gravityFrames. cbv zeta.
  pose proof (GoIntFacts.wrap_in_range (30 - GoInt.mul level 2)) as Hr.
  fold (GoInt.sub 30 (GoInt.mul level 2)) in Hr. revert Hr.
  generalize (GoInt.sub 30 (GoInt.mul level 2)) as f. intros f [_ Hf].
  destruct (f <? 2); [unfold GoInt.max_int; lia | exact Hf].
Qed.

Section Counter.

Context {Rng : Type}.
Variable Shuffle : Rng -> Z -> list (Z * Z) * Rng.

Lemma counterInv_zero (g : Game Rng) c :
  c = 0 -> counterInv (set_dropFrameCounter g c).
Proof.
  intros ->. unfold counterInv. cbn [dropFrameCounter level set_dropFrameCounter].
  pose proof (gravityFrames_min (level g)). lia.
Qed.

Lemma move_counterInv dx dy : preserves (@counterInv Rng) (move_ dx dy).
Proof.
  intros g g' HP H. unfold move_ in H.
  apply bind_Ok in H as ([g1 m] & H1 & H). injection H as <-.
  apply tryMove_frame in H1 as (-> & _). exact HP.
Qed.

Lemma rotate_counterInv dir : preserves (@counterInv Rng) (rotate_ dir).
Proof.
  intros g g' HP H. unfold rotate_ in H.
  apply bind_Ok in H as ([g1 t] & H1 & H). injection H as <-.
  unfold tryRotate in H1. apply tryKicks_frame in H1 as (-> & _). exact HP.
Qed.

Lemma hardDrop_counterInv fuel : preserves counterInv (hardDrop Shuffle fuel).
Proof.
  intros g g' _ H. unfold hardDrop in H.
  apply bind_Ok in H as (g1 & _ & H). apply bind_Ok in H as (g2 & _ & H).
  injection H as <-. by apply counterInv_zero.
Qed.

Lemma gravity_counterInv b : preserves counterInv (gravity Shuffle b).
Proof.
  intros g g' [H0 Hlt] H.
  assert (Hfall : forall g0, fallOrLock Shuffle g0 = Ok g' -> counterInv g').
  { intros g0 Hf. unfold fallOrLock in Hf.
    apply bind_Ok in Hf as ([g1 moved] & _ & Hf).
    apply bind_Ok in Hf as (g2 & _ & Hf). injection Hf as <-.
    by apply counterInv_zero. }
  revert H. unfold gravity. cbv zeta.
  pose proof (gravityFrames_in_range (level g)) as Hmax.
  rewrite (GoIntFacts.add_small (dropFrameCounter g) 1)
    by (unfold GoInt.in_range, GoInt.min_int, GoInt.max_int in *; lia).
  destruct b; [by apply Hfall|].
  cbn [dropFrameCounter level set_dropFrameCounter].
  destruct (Z.geb_spec (dropFrameCounter g + 1) (gravityFrames (level g)));
    [by apply Hfall|].
  intros Hg. injection Hg as <-. unfold counterInv.
  cbn [dropFrameCounter level set_dropFrameCounter]. lia.
Qed.

Lemma NewGame_counterInv r (g : Game Rng) :
  NewGame Shuffle r = Ok g -> counterInv g.
Proof.
  unfold NewGame. intros H. apply bind_Ok in H as ([v g1] & Hpop & H).
  apply popBag_frame in Hpop.
  apply spawn_frame in H as (_ & _ & _ & _ & Hlv & Hc & _).
  unfold counterInv. rewrite Hc, Hlv, Hpop.
  cbn [dropFrameCounter level set_nextKind set_bag].
  pose proof (gravityFrames_min 0). lia.
Qed.

Lemma played_counterInv (g : Game Rng) : played Shuffle g -> counterInv g.
Proof.
  induction 1 as [r g H | fuel g i g' _ IH H].
  - by apply (NewGame_counterInv r).
  - apply (Update_preserves Shuffle counterInv fuel) with (i := i) (g := g);
      try done.
    + intros dx _. apply move_counterInv.
    + intros dir _. apply rotate_counterInv.
    + apply hardDrop_counterInv.
    + apply gravity_counterInv.
    + intros g0 r g1 Hr. by apply (NewGame_counterInv r).
Qed.

End Counter.

(** X14. Between two calls of [Update] the gravity counter is never
    negative and always below [gravityFrames] of the current level: the
    piece falls or locks after at most that many frames, and every fall,
    lock and hard drop puts the counter back to 0. *)
Theorem gravity_counter_stays_below_interval {Rng}
    (Shuffle : Rng -> Z -> list (Z * Z) * Rng) (g : Game Rng) :
  played Shuffle g ->
  0 <= dropFrameCounter g < gravityFrames (level g) /\
  (forall fuel g', hardDrop Shuffle fuel g = Ok g' -> dropFrameCounter g' = 0) /\
  (forall g',
     gravity Shuffle false g = Ok g' ->
     dropFrameCounter g' = 0 \/
     (dropFrameCounter g' = dropFrameCounter g + 1 /\
      g' = set_dropFrameCounter g (dropFrameCounter g + 1))).
Proof.
  intros Hp. pose proof (played_counterInv Shuffle g Hp) as [H0 Hlt].
  split; [by split|]. split.
  - intros fuel g' H. unfold hardDrop in H.
    apply bind_Ok in H as (g1 & _ & H). apply bind_Ok in H as (g2 & _ & H).
    by injection H as <-.
  - intros g' H. unfold gravity in H. cbv zeta in H.
    pose proof (gravityFrames_in_range (level g)) as Hmax.
    rewrite (GoIntFacts.add_small (dropFrameCounter g) 1) in H
      by (unfold GoInt.in_range, GoInt.min_int, GoInt.max_int in *; lia).
    destruct (dropFrameCounter _ >=? gravityFrames _).
    + left. unfold fallOrLock in H.
      apply bind_Ok in H as ([g1 moved] & _ & H).
      apply bind_Ok in H as (g2 & _ & H). by injection H as <-.
    + right. by injection H as <-.
Qed.

Lemma gravity_counter_stays_below_interval_witness :
  0 <= dropFrameCounter Examples.started
    < gravityFrames (level Examples.started) /\
  (forall fuel g',
     hardDrop Lcg.Shuffle fuel Examples.started = Ok g' ->
     dropFrameCounter g' = 0) /\
  (forall g',
     gravity Lcg.Shuffle false Examples.started = Ok g' ->
     dropFrameCounter g' = 0 \/
     (dropFrameCounter g' = dropFrameCounter Examples.started + 1 /\
      g' = set_dropFrameCounter Examples.started
             (dropFrameCounter Examples.started + 1))).
Proof.
  apply (gravity_counter_stays_below_interval Lcg.Shuffle Examples.started).
  apply (played_new Lcg.Shuffle 42). vm_compute. reflexivity.
Defined.

(** ** Touch buttons *)

Lemma pressIn_spec btnY btnW touches ix :
  pressIn btnY btnW touches ix = true <->
  exists pos, pos ∈ touches /\ inButton btnY btnW ix pos = true.
Proof.
  induction touches as [|pos rest IH]; cbn [pressIn].
  - split; [discriminate|]. intros (pos & Hp & _). by apply elem_of_nil in Hp.
  - destruct (inButton btnY btnW ix pos) eqn:E.
    + split; [|done]. intros _. exists pos. split; [by left | done].
    + rewrite IH. split; intros (q & Hq & Hin).
      * exists q. split; [by right | done].
      * apply elem_of_cons in Hq as [-> | Hq]; [congruence | by exists q].
Qed.

Lemma inButton_spec btnY btnW ix x y :
  0 <= btnW <= 1000000000 -> 0 <= ix < 4 ->
  inButton btnY btnW ix (x, y) = true <->
  btnY <= y /\ ix * btnW <= x < (ix + 1) * btnW.
Proof.
  intros Hw Hix. unfold inButton.
  rewrite (GoIntFacts.add_small ix 1)
    by (unfold GoInt.in_range, GoInt.min_int, GoInt.max_int; lia).
  assert (Hix' : ix = 0 \/ ix = 1 \/ ix = 2 \/ ix = 3) by lia.
  rewrite (GoIntFacts.mul_small ix btnW)
    by (destruct Hix' as [->|[->|[->| ->]]];
        unfold GoInt.in_range, GoInt.min_int, GoInt.max_int; lia).
  rewrite (GoIntFacts.mul_small (ix + 1) btnW)
    by (destruct Hix' as [->|[->|[->| ->]]];
        unfold GoInt.in_range, GoInt.min_int, GoInt.max_int; lia).
  rewrite !andb_true_iff, Z.geb_le, Z.geb_le, Z.ltb_lt. tauto.
Qed.

(** X15. The four touch buttons of [Update] are the four quarters of the
    bottom strip: with button width w / 4 and top edge h - 160 (480 and
    120 when the window size is reported as 0), a touch hits at most one
    button, it hits one exactly when it is on or below the top edge with
    0 <= x < 4 * (w / 4), and [pressIn] holds when some touch hits. A
    window narrower than 4 has no button at all. *)
Theorem touch_buttons_partition_the_strip (w h : Z) :
  0 <= w <= 1000000000 -> 0 <= h <= 1000000000 ->
  exists btnY btnW,
    touchLayout w h = (btnY, btnW) /\
    (w = 0 \/ h = 0 -> btnY = 480 /\ btnW = 120) /\
    (w <> 0 -> h <> 0 -> btnY = h - 160 /\ btnW = w / 4) /\
    (forall pos ix ix', 0 <= ix < 4 -> 0 <= ix' < 4 ->
       inButton btnY btnW ix pos = true ->
       inButton btnY btnW ix' pos = true -> ix = ix') /\
    (forall x y,
       (exists ix, 0 <= ix < 4 /\ inButton btnY btnW ix (x, y) = true) <->
       btnY <= y /\ 0 <= x < 4 * btnW) /\
    (forall touches ix,
       pressIn btnY btnW touches ix = true <->
       exists pos, pos ∈ touches /\ inButton btnY btnW ix pos = true) /\
    (btnW = 0 -> forall pos ix, 0 <= ix < 4 -> inButton btnY btnW ix pos = false).
Proof.
  intros Hw Hh.
  assert (Hlay : exists w1 h1,
            touchLayout w h = (h1 - 160, w1 / 4) /\
            0 <= w1 <= 1000000000 /\ 0 <= h1 <= 1000000000 /\
            (w = 0 \/ h = 0 -> w1 = 480 /\ h1 = 640) /\
            (w <> 0 -> h <> 0 -> w1 = w /\ h1 = h)).
  { unfold touchLayout.
    assert (Hgen : forall w1 h1, 0 <= w1 <= 1000000000 -> 0 <= h1 <= 1000000000 ->
              (GoInt.sub h1 160, GoInt.quot w1 4) = (h1 - 160, w1 / 4)).
    { intros w1 h1 Hw1 Hh1. f_equal.
      - apply sub_exact. unfold GoInt.in_range, GoInt.min_int, GoInt.max_int. lia.
      - assert (Hq : Z.quot w1 4 = w1 / 4) by (apply Z.quot_div_nonneg; lia).
        rewrite (GoIntFacts.quot_small w1 4); rewrite Hq; [done|].
        assert (0 <= w1 / 4 <= 1000000000).
        { split; [apply Z.div_pos; lia|]. apply Z.div_le_upper_bound; lia. }
        unfold GoInt.in_range, GoInt.min_int, GoInt.max_int. lia. }
    destruct (Z.eqb_spec w 0) as [Hw0 | Hw0]; cbn [orb].
    - exists 480, 640. unfold logicalW, logicalH.
      split; [apply Hgen; lia|]. split; [lia|]. split; [lia|]. split; [done | lia].
    - destruct (Z.eqb_spec h 0) as [Hh0 | Hh0].
      + exists 480, 640. unfold logicalW, logicalH.
        split; [apply Hgen; lia|]. split; [lia|]. split; [lia|].
        split; [done | lia].
      + exists w, h. split; [by apply Hgen|]. split; [lia|]. split; [lia|].
        split; [intros [?|?]; contradiction | done]. }
  destruct Hlay as (w1 & h1 & Hlay & Hw1 & Hh1 & Hzero & Hnon).
  assert (HbW : 0 <= w1 / 4 <= 1000000000).
  { split; [apply Z.div_pos; lia|]. apply Z.div_le_upper_bound; lia. }
  exists (h1 - 160), (w1 / 4). split; [exact Hlay|].
  assert (Hv0 : w = 0 \/ h = 0 -> h1 - 160 = 480 /\ w1 / 4 = 120).
  { intros Hz. destruct (Hzero Hz) as [-> ->]. by split. }
  assert (Hv1 : w <> 0 -> h <> 0 -> h1 - 160 = h - 160 /\ w1 / 4 = w / 4).
  { intros H1 H2. destruct (Hnon H1 H2) as [-> ->]. by split. }
  revert HbW Hv0 Hv1. generalize (w1 / 4) as btnW. intros btnW HbW Hv0 Hv1.
  assert (Hy : forall ix x y, 0 <= ix < 4 ->
            inButton (h1 - 160) btnW ix (x, y) = true <->
            h1 - 160 <= y /\ ix * btnW <= x < (ix + 1) * btnW).
  { intros ix x y Hix. by apply inButton_spec. }
  revert Hy Hv0 Hv1. generalize (h1 - 160) as btnY. intros btnY Hy Hv0 Hv1.
  split; [exact Hv0|]. split; [exact Hv1|].
  split.
  { intros [x y] ix ix' Hix Hix' H1 H2.
    apply Hy in H1; [|done]. apply Hy in H2; [|done].
    assert (Hc : ix = 0 \/ ix = 1 \/ ix = 2 \/ ix = 3) by lia.
    assert (Hc' : ix' = 0 \/ ix' = 1 \/ ix' = 2 \/ ix' = 3) by lia.
    clear Hy.
    destruct Hc as [->|[->|[->| ->]]]; destruct Hc' as [->|[->|[->| ->]]]; lia. }
  split.
  { intros x y. split.
    - intros (ix & Hix & Hin). apply Hy in Hin; [|done].
      assert (Hc : ix = 0 \/ ix = 1 \/ ix = 2 \/ ix = 3) by lia.
      clear Hy. destruct Hc as [->|[->|[->| ->]]]; lia.
    - intros (Hylo & Hx).
      assert (Hc : x < btnW \/ btnW <= x < 2 * btnW \/
                   2 * btnW <= x < 3 * btnW \/ 3 * btnW <= x) by lia.
      destruct Hc as [Hc|[Hc|[Hc|Hc]]].
      + exists 0. split; [lia|]. apply Hy; lia.
      + exists 1. split; [lia|]. apply Hy; lia.
      + exists 2. split; [lia|]. apply Hy; lia.
      + exists 3. split; [lia|]. apply Hy; lia. }
  split; [intros touches ix; apply pressIn_spec|].
  intros -> [x y] ix Hix.
  destruct (inButton btnY 0 ix (x, y)) eqn:E; [|done].
  apply Hy in E; [|done]. lia.
Qed.

Lemma touch_buttons_partition_the_strip_witness :
  exists btnY btnW,
    touchLayout 480 640 = (btnY, btnW) /\
    (480 = 0 \/ 640 = 0 -> btnY = 480 /\ btnW = 120) /\
    (480 <> 0 -> 640 <> 0 -> btnY = 640 - 160 /\ btnW = 480 / 4) /\
    (forall pos ix ix', 0 <= ix < 4 -> 0 <= ix' < 4 ->
       inButton btnY btnW ix pos = true ->
       inButton btnY btnW ix' pos = true -> ix = ix') /\
    (forall x y,
       (exists ix, 0 <= ix < 4 /\ inButton btnY btnW ix (x, y) = true) <->
       btnY <= y /\ 0 <= x < 4 * btnW) /\
    (forall touches ix,
       pressIn btnY btnW touches ix = true <->
       exists pos, pos ∈ touches /\ inButton btnY btnW ix pos = true) /\
    (btnW = 0 -> forall pos ix, 0 <= ix < 4 -> inButton btnY btnW ix pos = false).
Proof. apply (touch_buttons_partition_the_strip 480 640); lia. Defined.

(** ** Drawing *)

Lemma forEach_total {A B} (body : A -> result (list B)) (l : list A) :
  (forall a, a ∈ l -> exists out, body a = Ok out) ->
  exists outs, forEach body l = Ok outs.
Proof.
  induction l as [|a rest IH]; intros Hall; cbn [forEach]; [by eexists|].
  destruct (Hall a) as (out & ->); [by left|].
  destruct IH as (outs & ->); [intros b Hb; apply Hall; by right|].
  cbn. by eexists.
Qed.

Lemma forEach_elem {A B} (body : A -> result (list B)) (l : list A) outs o :
  forEach body l = Ok outs ->
  o ∈ outs <-> exists a out, a ∈ l /\ body a = Ok out /\ o ∈ out.
Proof.
  revert outs. induction l as [|a rest IH]; intros outs; cbn [forEach].
  - intros [= <-]. split.
    + intros Ho. by apply elem_of_nil in Ho.
    + intros (a & out & Ha & _). by apply elem_of_nil in Ha.
  - intros H. apply bind_Ok in H as (out & Hout & H).
    apply bind_Ok in H as (outs' & Houts & H). injection H as <-.
    rewrite elem_of_app, (IH outs' Houts). split.
    + intros [Ho | (b & out' & Hb & Hbody & Ho)].
      * exists a, out. split; [by left | done].
      * exists b, out'. split; [by right | done].
    + intros (b & out' & Hb & Hbody & Ho).
      apply elem_of_cons in Hb as [-> | Hb].
      * left. congruence.
      * right. by exists b, out'.
Qed.

Lemma forEach_length {A B} (body : A -> result (list B)) (l : list A) outs n :
  forEach body l = Ok outs ->
  (forall a out, a ∈ l -> body a = Ok out -> length out = n) ->
  length outs = (n * length l)%nat.
Proof.
  revert outs. induction l as [|a rest IH]; intros outs; cbn [forEach].
  - intros [= <-] _. cbn. lia.
  - intros H Hn. apply bind_Ok in H as (out & Hout & H).
    apply bind_Ok in H as (outs' & Houts & H). injection H as <-.
    rewrite length_app, (Hn a out), (IH outs' Houts); [cbn; lia | | by left | done].
    intros b out' Hb. apply Hn. by right.
Qed.

Lemma forEach_map {A B} (body : A -> result (list B)) (f : A -> B) (l : list A) :
  (forall a, a ∈ l -> body a = Ok [f a]) -> forEach body l = Ok (map f l).
Proof.
  induction l as [|a rest IH]; intros Hall; cbn [forEach map]; [done|].
  rewrite (Hall a) by (by left). rewrite IH; [done|].
  intros b Hb. apply Hall. by right.
Qed.

Lemma elem_of_upTo (n i : Z) : i ∈ upTo n <-> 0 <= i < n.
Proof.
  unfold upTo. rewrite list_elem_of_fmap. split.
  - intros (k & -> & Hk). apply elem_of_seq in Hk. lia.
  - intros Hi. exists (Z.to_nat i). split; [lia|]. apply elem_of_seq. lia.
Qed.

Lemma length_upTo (n : Z) : length (upTo n) = Z.to_nat n.
Proof. unfold upTo. by rewrite length_map, length_seq. Qed.

Lemma pieceColors_index (k : Z) :
  0 <= k < 7 ->
  exists c, index pieceColors k = Ok c /\ pieceColors !! Z.to_nat k = Some c.
Proof.
  intros Hk.
  assert (Hc : k = 0 \/ k = 1 \/ k = 2 \/ k = 3 \/ k = 4 \/ k = 5 \/ k = 6) by lia.
  destruct Hc as [->|[->|[->|[->|[->|[->| ->]]]]]]; by eexists.
Qed.

(** The colour [Draw] gives the board cell that holds [v]. *)
Lemma drawBoardCell_Ok (b : Board) x y :
  wf_board b -> palette b -> 0 <= x < boardW -> 0 <= y < boardH ->
  exists v c, cellAt b x y = Some v /\
    (v = 0 /\ c = gridCell \/ v <> 0 /\ pieceColors !! Z.to_nat (v - 1) = Some c) /\
    drawBoardCell b y x = Ok [DrawCell x y c].
Proof.
  intros Hwf Hpal Hx Hy.
  destruct (wf_board_cell b x y Hwf Hx Hy) as (row & v & Hrow & Hv & _ & Hcell).
  pose proof (palette_cellAt b x y v Hpal Hcell) as Hrange.
  unfold drawBoardCell. rewrite Hrow. cbn [bind]. rewrite Hv. cbn [bind].
  destruct (Z.eqb_spec v 0) as [-> | Hnz]; cbn [negb].
  - exists 0, gridCell. split; [done|]. split; [by left | done].
  - rewrite (sub_exact v 1)
      by (unfold GoInt.in_range, GoInt.min_int, GoInt.max_int; lia).
    destruct (pieceColors_index (v - 1)) as (c & -> & Hc); [lia|].
    exists v, c. split; [done|]. split; [by right | done].
Qed.

Lemma drawBoard_Ok (b : Board) :
  wf_board b -> palette b ->
  exists onBoard, drawBoard b = Ok onBoard /\
    length onBoard = 200%nat /\
    (forall px py c, DrawNextCell px py c ∉ onBoard) /\
    (forall x y c, DrawCell x y c ∈ onBoard <->
       0 <= x < boardW /\ 0 <= y < boardH /\
       exists v, cellAt b x y = Some v /\
         (v = 0 /\ c = gridCell \/
          v <> 0 /\ pieceColors !! Z.to_nat (v - 1) = Some c)).
Proof.
  intros Hwf Hpal.
  assert (Hrow : forall y, y ∈ upTo boardH ->
            exists out, forEach (drawBoardCell b y) (upTo boardW) = Ok out).
  { intros y Hy. apply elem_of_upTo in Hy. apply forEach_total.
    intros x Hx. apply elem_of_upTo in Hx.
    destruct (drawBoardCell_Ok b x y Hwf Hpal Hx Hy) as (v & c & _ & _ & ->).
    by eexists. }
  destruct (forEach_total _ _ Hrow) as (onBoard & Hdraw).
  assert (Hin : forall o, o ∈ onBoard <->
            exists x y v c, 0 <= x < boardW /\ 0 <= y < boardH /\
              cellAt b x y = Some v /\
              (v = 0 /\ c = gridCell \/
               v <> 0 /\ pieceColors !! Z.to_nat (v - 1) = Some c) /\
              o = DrawCell x y c).
  { intros o. rewrite (forEach_elem _ _ _ o Hdraw). split.
    - intros (y & out & Hy & Hout & Ho). apply elem_of_upTo in Hy.
      rewrite (forEach_elem _ _ _ o Hout) in Ho.
      destruct Ho as (x & cellOut & Hx & Hcell & Ho). apply elem_of_upTo in Hx.
      destruct (drawBoardCell_Ok b x y Hwf Hpal Hx Hy) as (v & c & Hv & Hc & Heq).
      rewrite Heq in Hcell. injection Hcell as <-.
      apply list_elem_of_singleton in Ho. by exists x, y, v, c.
    - intros (x & y & v & c & Hx & Hy & Hv & Hc & ->).
      destruct (Hrow y) as (out & Hout); [by apply elem_of_upTo|].
      exists y, out. split; [by apply elem_of_upTo|]. split; [done|].
      rewrite (forEach_elem _ _ _ _ Hout).
      exists x, [DrawCell x y c]. split; [by apply elem_of_upTo|].
      split; [|by apply list_elem_of_singleton].
      destruct (drawBoardCell_Ok b x y Hwf Hpal Hx Hy) as (v' & c' & Hv' & Hc' & ->).
      rewrite Hv in Hv'. injection Hv' as <-.
      destruct Hc as [[-> ->] | [Hnz Hc]], Hc' as [[? ->] | [Hnz' Hc']];
        try done; congruence. }
  exists onBoard. split; [exact Hdraw|]. split; [|split].
  - rewrite (forEach_length _ _ _ 10%nat Hdraw); [by rewrite length_upTo|].
    intros y out Hy Hout. apply elem_of_upTo in Hy.
    rewrite (forEach_length _ _ _ 1%nat Hout); [by rewrite length_upTo|].
    intros x cellOut Hx Hcell. apply elem_of_upTo in Hx.
    destruct (drawBoardCell_Ok b x y Hwf Hpal Hx Hy) as (v & c & _ & _ & Heq).
    rewrite Heq in Hcell. by injection Hcell as <-.
  - intros px py c Ho. apply Hin in Ho as (x & y & v & c' & _ & _ & _ & _ & Ho).
    discriminate.
  - intros x y c. rewrite Hin. split.
    + intros (x' & y' & v & c' & Hx & Hy & Hv & Hc & [= -> -> ->]).
      split; [done|]. split; [done|]. by exists v.
    + intros (Hx & Hy & v & Hv & Hc). by exists x, y, v, c.
Qed.

Lemma drawCurrent_Ok (ap : activePiece) cells :
  pieceCells ap = Ok cells ->
  (forall p, p ∈ cells -> 0 <= p_x p < boardW /\ 0 <= p_y p < boardH) ->
  exists col, pieceColors !! Z.to_nat (ap_kind ap) = Some col /\
    drawCurrent ap = Ok (map (fun p => DrawCell (p_x p) (p_y p) col) cells).
Proof.
  intros Hcells Hon.
  pose proof (pieceCells_Ok_wf ap cells Hcells) as Hwf.
  destruct (pieceCells_wf ap Hwf) as (src & Hsrc & _ & _ & Heq).
  rewrite Hcells in Heq. injection Heq as ->.
  destruct Hwf as [Hkind _].
  destruct (pieceColors_index (ap_kind ap) Hkind) as (col & Hidx & Hcol).
  exists col. split; [exact Hcol|].
  unfold drawCurrent. rewrite Hsrc. cbn [bind].
  rewrite map_map. apply forEach_map.
  intros p Hp. cbn [p_x p_y].
  destruct (Hon (Point (GoInt.add (ap_x ap) (p_x p)) (GoInt.add (ap_y ap) (p_y p))))
    as [Hx Hy].
  { apply list_elem_of_fmap. by exists p. }
  cbn [p_x p_y] in Hx, Hy.
  revert Hx Hy.
  generalize (GoInt.add (ap_x ap) (p_x p)) as x.
  generalize (GoInt.add (ap_y ap) (p_y p)) as y. intros y x Hx Hy.
  replace ((y >=? 0) && (y <? boardH) && (x >=? 0) && (x <? boardW)) with true
    by (symmetry; rewrite !andb_true_iff, !Z.geb_le, !Z.ltb_lt; lia).
  by rewrite Hidx.
Qed.

(** X16. [Draw] never indexes out of range in a reachable state: the
    board loop paints each of the 200 cells once, an empty cell in the
    grid colour and a locked block in the colour of the kind it holds
    (value - 1); then the four cells of the current piece are painted in
    the colour of its kind, none of them skipped by the on-board test;
    then the four cells of rotation 0 of the next kind in its colour. *)
Theorem Draw_paints_board_piece_and_preview {Rng}
    (Shuffle : Rng -> Z -> list (Z * Z) * Rng) (g : Game Rng) :
  Shuffle_in_bounds Shuffle -> reachable Shuffle g ->
  exists onBoard cells col shape0 nextCol,
    Draw g =
      Ok (onBoard
          ++ map (fun p => DrawCell (p_x p) (p_y p) col) cells
          ++ map (fun p => DrawNextCell (p_x p) (p_y p) nextCol) shape0) /\
    length onBoard = 200%nat /\
    (forall px py c, DrawNextCell px py c ∉ onBoard) /\
    (forall x y c, DrawCell x y c ∈ onBoard <->
       0 <= x < boardW /\ 0 <= y < boardH /\
       exists v, cellAt (board g) x y = Some v /\
         (v = 0 /\ c = gridCell \/
          v <> 0 /\ pieceColors !! Z.to_nat (v - 1) = Some c)) /\
    pieceCells (cur g) = Ok cells /\ length cells = 4%nat /\
    pieceColors !! Z.to_nat (ap_kind (cur g)) = Some col /\
    shapeOf (nextKind g) 0 = Ok shape0 /\ length shape0 = 4%nat /\
    pieceColors !! Z.to_nat (nextKind g) = Some nextCol.
Proof.
  intros Hok Hr.
  destruct (reachable_Both Shuffle Hok g Hr) as (HInv & Hpal & _).
  destruct HInv as (Hwf & (cells & Hcells & Hon) & _ & _ & Hnext & _).
  destruct (drawBoard_Ok (board g) Hwf Hpal) as (onBoard & Hboard & Hlen & Hno & Hin).
  destruct (drawCurrent_Ok (cur g) cells Hcells Hon) as (col & Hcol & Hcur).
  destruct (pieceColors_index (nextKind g) Hnext) as (nextCol & Hidx & Hnc).
  destruct (in_box_dec_all (nextKind g) 0 Hnext) as (shape0 & Hshape & Hlen0 & _);
    [lia|].
  exists onBoard, cells, col, shape0, nextCol.
  split.
  { unfold Draw. rewrite Hboard. cbn [bind]. rewrite Hcur. cbn [bind].
    unfold drawNext. rewrite Hidx. cbn [bind]. rewrite Hshape. by cbn [bind]. }
  split; [exact Hlen|]. split; [exact Hno|]. split; [exact Hin|].
  split; [exact Hcells|]. split.
  { pose proof (pieceCells_Ok_wf (cur g) cells Hcells) as Hwfp.
    destruct (pieceCells_wf (cur g) Hwfp) as (src & _ & Hl & _ & Heq).
    rewrite Hcells in Heq. injection Heq as ->. by rewrite length_map. }
  split; [exact Hcol|]. split; [exact Hshape|]. split; [exact Hlen0 | exact Hnc].
Qed.

Lemma Draw_paints_board_piece_and_preview_witness :
  exists onBoard cells col shape0 nextCol,
    Draw Examples.started =
      Ok (onBoard
          ++ map (fun p => DrawCell (p_x p) (p_y p) col) cells
          ++ map (fun p => DrawNextCell (p_x p) (p_y p) nextCol) shape0) /\
    length onBoard = 200%nat /\
    (forall px py c, DrawNextCell px py c ∉ onBoard) /\
    (forall x y c, DrawCell x y c ∈ onBoard <->
       0 <= x < boardW /\ 0 <= y < boardH /\
       exists v, cellAt (board Examples.started) x y = Some v /\
         (v = 0 /\ c = gridCell \/
          v <> 0 /\ pieceColors !! Z.to_nat (v - 1) = Some c)) /\
    pieceCells (cur Examples.started) = Ok cells /\ length cells = 4%nat /\
    pieceColors !! Z.to_nat (ap_kind (cur Examples.started)) = Some col /\
    shapeOf (nextKind Examples.started) 0 = Ok shape0 /\ length shape0 = 4%nat /\
    pieceColors !! Z.to_nat (nextKind Examples.started) = Some nextCol.
Proof.
  apply (Draw_paints_board_piece_and_preview Lcg.Shuffle Examples.started).
  - exact Lcg_in_bounds.
  - apply (reach_new Lcg.Shuffle 42). vm_compute. reflexivity.
Defined.
